(** * Obsidian tasks graph: task extraction and graph assembly

    A shallow embedding of the two implementations of the task graph view:
    - [src/unnamed/part_001]: the SVG view (visibility filter, "Policy A");
    - [src/TasksGraphView.ts]: the canvas view (reachability filter on the
      [#want] tag, "Policy B", with a task limit).

    JavaScript strings are sequences of UTF-16 code units, regular
    expressions are run by a small backtracking matcher, and the task objects
    that [collectTasks] creates and later mutates (a child is pushed onto its
    parent's [children] array after the parent was stored) live in a store
    indexed by creation order. *)

From Stdlib Require Import ZArith NArith String Ascii Decimal DecimalNat.
From stdpp Require Import gmap list option relations.

Local Open Scope N_scope.

(** ** JavaScript strings *)

(** A JavaScript string is a sequence of 16-bit code units. *)
Abbreviation jsstring := (list N).

Module JS.

(** Code points of a UTF-8 byte sequence, each written as one or two
    UTF-16 code units.  Only used to write string literals. *)
Definition units (cp : N) : jsstring :=
  if cp <? 0x10000 then [cp]
  else [0xD800 + N.shiftr (cp - 0x10000) 10; 0xDC00 + N.land (cp - 0x10000) 0x3FF].

Definition cont (b : N) : N := N.land b 0x3F.

Fixpoint recode (bs : list N) : jsstring :=
  match bs with
  | [] => []
  | b0 :: r0 =>
    if b0 <? 0x80 then b0 :: recode r0
    else match r0 with
    | [] => [b0]
    | b1 :: r1 =>
      if b0 <? 0xE0 then
        units (N.lor (N.shiftl (N.land b0 0x1F) 6) (cont b1)) ++ recode r1
      else match r1 with
      | [] => [b0; b1]
      | b2 :: r2 =>
        if b0 <? 0xF0 then
          units (N.lor (N.shiftl (N.land b0 0x0F) 12)
                       (N.lor (N.shiftl (cont b1) 6) (cont b2))) ++ recode r2
        else match r2 with
        | [] => [b0; b1; b2]
        | b3 :: r3 =>
          units (N.lor (N.shiftl (N.land b0 0x07) 18)
                  (N.lor (N.shiftl (cont b1) 12)
                    (N.lor (N.shiftl (cont b2) 6) (cont b3)))) ++ recode r3
        end
      end
    end
  end.

Definition utf16 (s : string) : jsstring :=
  recode (map N_of_ascii (list_ascii_of_string s)).

(** [WhiteSpace] and [LineTerminator] of ECMAScript: what [\s] matches and
    what [trim] and [trimStart] strip. *)
Definition isLineTerminator (c : N) : bool :=
  (c =? 0x0A) || (c =? 0x0D) || (c =? 0x2028) || (c =? 0x2029).

Definition isSpace (c : N) : bool :=
  (c =? 0x09) || (c =? 0x0A) || (c =? 0x0B) || (c =? 0x0C) || (c =? 0x0D)
  || (c =? 0x20) || (c =? 0xA0) || (c =? 0x1680)
  || ((0x2000 <=? c) && (c <=? 0x200A))
  || (c =? 0x2028) || (c =? 0x2029) || (c =? 0x202F) || (c =? 0x205F)
  || (c =? 0x3000) || (c =? 0xFEFF).

(** [.] without the [s] flag, [\S] and [\d]. *)
Definition isDot (c : N) : bool := negb (isLineTerminator c).
Definition isNonSpace (c : N) : bool := negb (isSpace c).
Definition isDigit (c : N) : bool := (0x30 <=? c) && (c <=? 0x39).

Fixpoint trimStart (s : jsstring) : jsstring :=
  match s with
  | c :: s' => if isSpace c then trimStart s' else s
  | [] => []
  end.

Definition trimEnd (s : jsstring) : jsstring := rev (trimStart (rev s)).
Definition trim (s : jsstring) : jsstring := trimEnd (trimStart s).

(** [s.split(sep)] for a one-unit separator: always at least one piece. *)
Fixpoint split (sep : N) (s : jsstring) : list jsstring :=
  match s with
  | [] => [[]]
  | c :: s' =>
    if c =? sep then [] :: split sep s'
    else match split sep s' with
         | p :: ps => (c :: p) :: ps
         | [] => [[c]]
         end
  end.

(** [s.slice(1)]. *)
Definition slice1 (s : jsstring) : jsstring := drop 1 s.

(** Decimal digits of a line number, as template literals print it. *)
Fixpoint digits (d : Decimal.uint) : jsstring :=
  match d with
  | Nil => []
  | D0 d => 0x30 :: digits d | D1 d => 0x31 :: digits d
  | D2 d => 0x32 :: digits d | D3 d => 0x33 :: digits d
  | D4 d => 0x34 :: digits d | D5 d => 0x35 :: digits d
  | D6 d => 0x36 :: digits d | D7 d => 0x37 :: digits d
  | D8 d => 0x38 :: digits d | D9 d => 0x39 :: digits d
  end.

Definition decimal (n : nat) : jsstring := digits (Nat.to_uint n).

(** [toLowerCase] on strings of ASCII letters, digits and punctuation; the
    full Unicode case mapping is a parameter of the extractor below. *)
Definition asciiLower (s : jsstring) : jsstring :=
  map (fun c => if (0x41 <=? c) && (c <=? 0x5A) then c + 0x20 else c) s.

(** Keeps the first occurrence of every element: [Array.from(new Set(xs))]. *)
Fixpoint uniqAcc (seen : list jsstring) (xs : list jsstring) : list jsstring :=
  match xs with
  | [] => []
  | x :: xs' =>
    if bool_decide (x ∈ seen) then uniqAcc seen xs'
    else x :: uniqAcc (x :: seen) xs'
  end.

Definition uniq (xs : list jsstring) : list jsstring := uniqAcc [] xs.

End JS.

(** ** Regular expressions *)

Module Regex.

(** The fragment of the regular expression language that the sources use.
    Quantifiers are greedy and only apply to character classes. *)
Inductive regex : Type :=
| Eps
| Lit (c : N)
| Class (p : N -> bool)
| Seq (r1 r2 : regex)
| Alt (r1 r2 : regex)
| Star (p : N -> bool)
| Plus (p : N -> bool)
| Group (r : regex)
| Bol
| Eol.

Fixpoint lits (s : jsstring) : regex :=
  match s with
  | [] => Eps
  | c :: s' => Seq (Lit c) (lits s')
  end.

Fixpoint seqs (rs : list regex) : regex :=
  match rs with
  | [] => Eps
  | r :: rs' => Seq r (seqs rs')
  end.

Section Run.
Context {A : Type}.

(** Greedy [p*]: take as many units as possible, give them back one at a
    time while the continuation fails. *)
Fixpoint star (p : N -> bool) (k : nat -> jsstring -> option A)
    (i : nat) (s : jsstring) : option A :=
  match s with
  | c :: s' =>
    if p c then
      match star p k (S i) s' with
      | Some a => Some a
      | None => k i s
      end
    else k i s
  | [] => k i s
  end.

(** Backtracking matcher at position [i] with [s] left to read; [caps]
    are the groups closed so far. *)
Fixpoint run (r : regex) (i : nat) (s : jsstring) (caps : list jsstring)
    (k : nat -> jsstring -> list jsstring -> option A) : option A :=
  match r with
  | Eps => k i s caps
  | Lit c =>
    match s with
    | x :: s' => if x =? c then k (S i) s' caps else None
    | [] => None
    end
  | Class p =>
    match s with
    | x :: s' => if p x then k (S i) s' caps else None
    | [] => None
    end
  | Seq r1 r2 => run r1 i s caps (fun i' s' caps' => run r2 i' s' caps' k)
  | Alt r1 r2 =>
    match run r1 i s caps k with
    | Some a => Some a
    | None => run r2 i s caps k
    end
  | Star p => star p (fun i' s' => k i' s' caps) i s
  | Plus p =>
    match s with
    | x :: s' =>
      if p x then star p (fun i' s' => k i' s' caps) (S i) s' else None
    | [] => None
    end
  | Group r1 =>
    run r1 i s caps (fun i' s' caps' => k i' s' (caps' ++ [take (i' - i) s]))
  | Bol => match i with O => k i s caps | S _ => None end
  | Eol => match s with [] => k i s caps | _ :: _ => None end
  end.
End Run.

(** A match: the matched text and its groups, [m[0]] and [m[1..]]. *)
Record Match := { whole : jsstring; groups : list jsstring }.

(** Match attempt at one position. *)
Definition exec_at (r : regex) (i : nat) (s : jsstring) : option Match :=
  run r i s [] (fun i' _ caps => Some {| whole := take (i' - i) s; groups := caps |}).

(** [s.match(r)] for a regular expression without the [g] flag: the
    leftmost match. *)
Fixpoint search (r : regex) (i : nat) (s : jsstring) : option Match :=
  match exec_at r i s with
  | Some m => Some m
  | None =>
    match s with
    | [] => None
    | _ :: s' => search r (S i) s'
    end
  end.

Definition match1 (r : regex) (s : jsstring) : option Match := search r 0%nat s.

(** All matches from left to right ([g] flag); [skip] units of the previous
    match are still to be passed over.  After an empty match the next
    attempt is one unit further. *)
Fixpoint scan (r : regex) (i : nat) (s : jsstring) (skip : nat) : list Match :=
  match skip with
  | S n =>
    match s with
    | [] => []
    | _ :: s' => scan r (S i) s' n
    end
  | O =>
    match exec_at r i s with
    | Some m =>
      m :: match s with
           | [] => []
           | _ :: s' => scan r (S i) s' (length (whole m) - 1)%nat
           end
    | None =>
      match s with
      | [] => []
      | _ :: s' => scan r (S i) s' O
      end
    end
  end.

(** [[...s.matchAll(r)]] and [s.match(r)] with the [g] flag. *)
Definition matchAll (r : regex) (s : jsstring) : list Match := scan r 0%nat s O.

(** [s.replace(r, '')] with the [g] flag. *)
Fixpoint remove (r : regex) (i : nat) (s : jsstring) (skip : nat) : jsstring :=
  match skip with
  | S n =>
    match s with
    | [] => []
    | _ :: s' => remove r (S i) s' n
    end
  | O =>
    match exec_at r i s with
    | Some m =>
      match s with
      | [] => []
      | c :: s' =>
        match whole m with
        | [] => c :: remove r (S i) s' O
        | _ :: w => remove r (S i) s' (length w)
        end
      end
    | None =>
      match s with
      | [] => []
      | c :: s' => c :: remove r (S i) s' O
      end
    end
  end.

Definition removeAll (r : regex) (s : jsstring) : jsstring := remove r 0%nat s O.

End Regex.

(** ** Data model ([src/types.ts]) *)

Inductive LinkType := hierarchy | dependency.

(** A task object.  [children] holds references to task objects: positions
    in the store of the scan.  [scheduled] and [start] keep the date text the
    [Date] is built from. *)
Record Task := {
  id : jsstring;
  text : jsstring;
  completed : bool;
  children : list nat;
  parent : option jsstring;
  blockers : list jsstring;
  file : jsstring;
  line : nat;
  depth : nat;
  tags : list jsstring;
  scheduled : option jsstring;
  start : option jsstring;
  outlinks : option (list jsstring);
  blockId : option jsstring
}.

(** A [TaskNode] is a copy of a task; the assembler leaves its position
    fields [x], [y], [fx], [fy] unset. *)
Abbreviation TaskNode := Task.

Record TaskLink := { source : jsstring; target : jsstring; type : LinkType }.

Record Graph := { nodes : list TaskNode; links : list TaskLink }.

(** The fields of the view that scanning and assembling read or write. *)
Record View := {
  data : Graph;
  showCompleted : bool;
  showBlocked : bool;
  liveUpdate : bool;
  showWithoutTags : bool;
  useDates : bool;
  allTags : gset jsstring;
  selectedTags : gset jsstring;
  taskLimit : Z
}.

(** What the host gives for one markdown file: its path, its text and the
    metadata cache entry ([listItems] with their start line and block id,
    [links] with their link text). *)
Record ListItem := { li_line : nat; li_id : option jsstring }.
Record Cache := { listItems : option (list ListItem); cache_links : option (list jsstring) }.
Record File := { path : jsstring; content : jsstring; cache : option Cache }.

(** The marker texts of the regular expressions, and the completion glyph. *)
Record Markers := {
  idMark : jsstring;
  blockerMark : jsstring;
  schedMark : jsstring;
  startMark : jsstring;
  doneGlyph : jsstring
}.

(** The two [collectTasks] differ in the marker texts, in the task limit
    (only the canvas view has one) and in reading the metadata cache. *)
Record Flavor := { marks : Markers; limit : option Z; cached : bool }.

(** State of a scan: the task objects created so far, in creation order
    (which is also the order of the [tasks] array), the tags seen, and the
    stack of open tasks of the current file (its top is the head). *)
Record Scan := { tasks : list Task; seenTags : gset jsstring; stack : list (nat * nat) }.

Definition set_text (s : jsstring) (t : Task) : Task :=
  {| id := id t; text := s; completed := completed t; children := children t;
     parent := parent t; blockers := blockers t; file := file t; line := line t;
     depth := depth t; tags := tags t; scheduled := scheduled t; start := start t;
     outlinks := outlinks t; blockId := blockId t |}.

Definition set_parent (p : jsstring) (d : nat) (t : Task) : Task :=
  {| id := id t; text := text t; completed := completed t; children := children t;
     parent := Some p; blockers := blockers t; file := file t; line := line t;
     depth := d; tags := tags t; scheduled := scheduled t; start := start t;
     outlinks := outlinks t; blockId := blockId t |}.

Definition push_child (c : nat) (t : Task) : Task :=
  {| id := id t; text := text t; completed := completed t; children := children t ++ [c];
     parent := parent t; blockers := blockers t; file := file t; line := line t;
     depth := depth t; tags := tags t; scheduled := scheduled t; start := start t;
     outlinks := outlinks t; blockId := blockId t |}.

Definition set_data (g : Graph) (v : View) : View :=
  {| data := g; showCompleted := showCompleted v; showBlocked := showBlocked v;
     liveUpdate := liveUpdate v; showWithoutTags := showWithoutTags v;
     useDates := useDates v; allTags := allTags v; selectedTags := selectedTags v;
     taskLimit := taskLimit v |}.

Definition set_allTags (s : gset jsstring) (v : View) : View :=
  {| data := data v; showCompleted := showCompleted v; showBlocked := showBlocked v;
     liveUpdate := liveUpdate v; showWithoutTags := showWithoutTags v;
     useDates := useDates v; allTags := s; selectedTags := selectedTags v;
     taskLimit := taskLimit v |}.

(** [{ ...t, text: t.completed ? `<glyph> ${t.text}` : t.text }] *)
Definition toNode (M : Markers) (t : Task) : TaskNode :=
  set_text (if completed t then doneGlyph M ++ [0x20] ++ text t else text t) t.

(** ** Marker extractor and hierarchy builder ([collectTasks]) *)

Section Collect.

(** [String.prototype.toLowerCase]. *)
Variable toLowerCase : jsstring -> jsstring.

Import JS Regex.

(** [/^- \[(.)\]\s*(.+)$/] *)
Definition checklistRe : regex :=
  seqs [Bol; Lit 0x2D; Lit 0x20; Lit 0x5B; Group (Class isDot); Lit 0x5D;
        Star isSpace; Group (Plus isDot); Eol].

(** [/#\S+/g] *)
Definition tagRe : regex := Seq (Lit 0x23) (Plus isNonSpace).

(** [/<mark>\s*(\S+)/] for the id and the blocker markers. *)
Definition refRe (mark : jsstring) : regex :=
  seqs [lits mark; Star isSpace; Group (Plus isNonSpace)].

(** [/<id>\s*\S+|<blocker>\s*\S+/g] *)
Definition refStripRe (M : Markers) : regex :=
  Alt (seqs [lits (idMark M); Star isSpace; Plus isNonSpace])
      (seqs [lits (blockerMark M); Star isSpace; Plus isNonSpace]).

(** [\d{4}-\d{2}-\d{2}] *)
Definition dateRe : regex :=
  seqs [Class isDigit; Class isDigit; Class isDigit; Class isDigit; Lit 0x2D;
        Class isDigit; Class isDigit; Lit 0x2D; Class isDigit; Class isDigit].

(** [/<mark>\s*(\d{4}-\d{2}-\d{2})/] and the same without the group. *)
Definition dateMarkRe (mark : jsstring) : regex :=
  seqs [lits mark; Star isSpace; Group dateRe].
Definition dateStripRe (mark : jsstring) : regex :=
  seqs [lits mark; Star isSpace; dateRe].

(** [m[n]] of a match, for a group that took part in it. *)
Definition group (n : nat) (m : Match) : jsstring := default [] (groups m !! n).

(** [`task-${file.path}-${i}`] *)
Definition derivedId (p : jsstring) (i : nat) : jsstring :=
  utf16 "task-" ++ p ++ utf16 "-" ++ decimal i.

(** [listItems?.find(item => item.position.start.line === i)?.id] *)
Definition findBlockId (f : File) (i : nat) : option jsstring :=
  c ← cache f; items ← listItems c;
  item ← list_find (fun it => li_line it = i) items; li_id item.2.

(** [cache?.links?.map(l => ({ subpath: l.link }))] *)
Definition fileOutlinks (f : File) : option (list jsstring) :=
  c ← cache f; cache_links c.

(** The body of the line callback up to the construction of [task]: the
    indentation of the line and the task, if the line is a checklist line. *)
Definition extract (F : Flavor) (f : File) (i : nat) (ln : jsstring)
    : option (nat * Task) :=
  let M := marks F in
  let trimmed := trimStart ln in
  let indent := (length ln - length trimmed)%nat in
  match match1 checklistRe trimmed with
  | None => None
  | Some m =>
    let completed := bool_decide (group 0 m ≠ [0x20]) in
    let text := group 1 m in
    let tagMatches := whole <$> matchAll tagRe text in
    let tags := uniq (toLowerCase <$> tagMatches) in
    let text := trim (removeAll tagRe text) in
    let idM := match1 (refRe (idMark M)) text in
    let blockerMs := matchAll (refRe (blockerMark M)) text in
    let text := trim (removeAll (refStripRe M) text) in
    let schedM := match1 (dateMarkRe (schedMark M)) text in
    let startM := match1 (dateMarkRe (startMark M)) text in
    let text :=
      trim (removeAll (dateStripRe (startMark M))
             (removeAll (dateStripRe (schedMark M)) text)) in
    Some (indent,
      {| id := match idM with Some im => group 0 im | None => derivedId (path f) i end;
         text := text; completed := completed; children := []; parent := None;
         blockers := group 0 <$> blockerMs;
         file := path f; line := i; depth := 0%nat;
         tags := tags;
         scheduled := group 0 <$> schedM; start := group 0 <$> startM;
         outlinks := if cached F then fileOutlinks f else None;
         blockId := if cached F then findBlockId f i else None |})
  end.

(** [tasks.length >= this.taskLimit] *)
Definition limitReached (F : Flavor) (ts : list Task) : bool :=
  match limit F with
  | Some l => bool_decide (l ≤ Z.of_nat (length ts))%Z
  | None => false
  end.

(** [while (stack.length && stack[stack.length - 1].indent >= indent) stack.pop()] *)
Fixpoint popStack (indent : nat) (stk : list (nat * nat)) : list (nat * nat) :=
  match stk with
  | (p, ind) :: rest => if bool_decide (indent ≤ ind)%nat then popStack indent rest else stk
  | [] => []
  end.

(** One call of the [lines.forEach] callback.  The new task gets the next
    free position of the store; with a non-empty stack it takes the id and
    depth of the top and is pushed onto the top's [children].  The stack
    only holds positions of stored tasks, so the lookup of the top does not
    fail. *)
Definition scanLine (F : Flavor) (f : File) (st : Scan) (i : nat) (ln : jsstring) : Scan :=
  if limitReached F (tasks st) then st else
  match extract F f i ln with
  | None => st
  | Some (indent, task) =>
    let seen := list_to_set (tags task) ∪ seenTags st in
    let stk := popStack indent (stack st) in
    let n := length (tasks st) in
    match stk with
    | (p, _) :: _ =>
      match tasks st !! p with
      | Some top =>
        {| tasks := alter (push_child n) p (tasks st)
                      ++ [set_parent (id top) (depth top + 1) task];
           seenTags := seen; stack := (n, indent) :: stk |}
      | None =>
        {| tasks := tasks st ++ [task]; seenTags := seen; stack := (n, indent) :: stk |}
      end
    | [] =>
      {| tasks := tasks st ++ [task]; seenTags := seen; stack := (n, indent) :: stk |}
    end
  end.

(** [lines.forEach((line, i) => ...)] from index [i] on. *)
Fixpoint scanLines (F : Flavor) (f : File) (i : nat) (lns : list jsstring) (st : Scan) : Scan :=
  match lns with
  | [] => st
  | ln :: rest => scanLines F f (S i) rest (scanLine F f st i ln)
  end.

(** One file: split its text into lines, start with an empty stack. *)
Definition scanFile (F : Flavor) (f : File) (st : Scan) : Scan :=
  scanLines F f 0%nat (split 0x0A (content f))
    {| tasks := tasks st; seenTags := seenTags st; stack := [] |}.

(** [for (const file of files) { if (limit reached) break; ... }] *)
Fixpoint scanFiles (F : Flavor) (files : list File) (st : Scan) : Scan :=
  match files with
  | [] => st
  | f :: rest => if limitReached F (tasks st) then st else scanFiles F rest (scanFile F f st)
  end.

(** The scan of a vault: [tasks] and [allTags] when [processTasks] is called. *)
Definition scanVault (F : Flavor) (files : list File) : Scan :=
  scanFiles F files {| tasks := []; seenTags := ∅; stack := [] |}.

End Collect.

(** ** Pointer events and the zoom behaviour *)

(** The fields of a DOM event that the zoom filters read. *)
Record Event := { ev_type : string; button : Z; ctrlKey : bool }.

Module D3.

(** The filter of a [d3.zoom()] behaviour on which [.filter(...)] was not
    called, as the d3-zoom documentation gives it:
    [(!event.ctrlKey || event.type === 'wheel') && !event.button].
    The behaviour ignores every event its filter rejects. *)
Definition defaultFilter (e : Event) : bool :=
  (negb (ctrlKey e) || String.eqb (ev_type e) "wheel") && bool_decide (button e = 0%Z).

End D3.

(** [renderGraph]: the links handed to the link force. *)
Definition validLinks (g : Graph) : list TaskLink :=
  filter (fun l =>
            existsb (fun n => bool_decide (id n = source l)) (nodes g)
            && existsb (fun n => bool_decide (id n = target l)) (nodes g))
         (links g).

(** A JavaScript string used as a condition. *)
Definition truthy (s : option jsstring) : bool :=
  match s with
  | Some (_ :: _) => true
  | _ => false
  end.

(** The references held by the [tasks] array that pass [t => !t.parent]. *)
Definition rootRefs (ts : list Task) : list nat :=
  fst <$> filter (fun it => negb (truthy (parent it.2))) (imap pair ts).

(** ** The SVG view ([src/unnamed/part_001]) *)

Module Svg.

Import JS.

(** The marker texts as the file has them. *)
Definition markers : Markers :=
  {| idMark := [0xF0; 0x178; 0x2020; 0x201D];
     blockerMark := [0xE2; 0x203A; 0x201D];
     schedMark := [0xE2; 0xB3];
     startMark := [0xF0; 0x178; 0x203A; 0xAB];
     doneGlyph := [0xE2; 0x153; 0x2026] |}.

Definition flavor : Flavor := {| marks := markers; limit := None; cached := false |}.

(** [function collect(u) { allIds.add(u.id); u.children.forEach(collect); }]:
    the ids added, in order.  The recursion follows references, so it is
    bounded by [fuel]; it gives [None] when the bound is hit (a cycle of
    [children], on which the source does not return) or when a reference
    is not in the store. *)
Fixpoint collect (fuel : nat) (ts : list Task) (u : nat) : option (list jsstring) :=
  match fuel with
  | O => None
  | S n =>
    t ← ts !! u;
    sub ← mapM (collect n ts) (children t);
    Some (id t :: concat sub)
  end.

Definition isBlocked (t : Task) : bool := bool_decide (0 < length (blockers t))%nat.

Definition hasTag (v : View) (t : Task) : bool :=
  bool_decide (0 < size (selectedTags v))%nat
  && existsb (fun tag => bool_decide (tag ∈ selectedTags v)) (tags t).

Definition noTags (v : View) (t : Task) : bool :=
  showWithoutTags v && bool_decide (length (tags t) = 0)%nat.

Definition tagOk (v : View) (t : Task) : bool :=
  (bool_decide (size (selectedTags v) = 0)%nat && negb (showWithoutTags v))
  || hasTag v t || noTags v t.

(** The condition under which [create] pushes the node of [t]. *)
Definition shown (v : View) (t : Task) : bool :=
  (showCompleted v || negb (completed t))
  && (showBlocked v || negb (isBlocked t))
  && tagOk v t.

(** The condition under which [create] pushes the link from [t] to its
    child [c]. *)
Definition linked (v : View) (t c : Task) : bool :=
  (showCompleted v || (negb (completed t) && negb (completed c)))
  && (showBlocked v || (negb (isBlocked t) && negb (isBlocked c))).

(** One round of [t.children.forEach(c => ...)]: the link to the child, if
    any, then what [create(c)] pushes. *)
Definition visit (rec : nat -> option (list TaskNode * list TaskLink))
    (v : View) (ts : list Task) (t : Task) (c : nat)
    : option (list TaskNode * list TaskLink) :=
  ct ← ts !! c;
  sub ← rec c;
  Some (sub.1,
        (if linked v t ct
         then [{| source := id t; target := id ct; type := hierarchy |}]
         else []) ++ sub.2).

(** [create(t)]: the nodes and the links it pushes, in order; bounded like
    [collect]. *)
Fixpoint create (fuel : nat) (v : View) (ts : list Task) (u : nat)
    : option (list TaskNode * list TaskLink) :=
  match fuel with
  | O => None
  | S n =>
    t ← ts !! u;
    subs ← mapM (visit (create n v ts) v ts t) (children t);
    Some ((if shown v t then [toNode markers t] else []) ++ concat (subs.*1),
          concat (subs.*2))
  end.

(** The dependency links of one task, from the last loop of [processTasks]. *)
Definition dependencies (v : View) (allIds visible : gset jsstring) (t : Task)
    : list TaskLink :=
  if negb (showBlocked v) && bool_decide (length (blockers t) ≠ 0)%nat then []
  else
    b ← blockers t;
    if bool_decide (b ∈ allIds) && bool_decide (b ∈ visible)
       && bool_decide (id t ∈ visible)
    then [{| source := b; target := id t; type := dependency |}]
    else [].

(** [processTasks(tasks)].  A path of distinct references has at most
    [length ts] of them, so that much fuel is enough on every store
    without a cycle. *)
Definition processTasks (ts : list Task) (v : View) : option View :=
  let fuel := length ts in
  ids ← mapM (collect fuel ts) (rootRefs ts);
  let allIds : gset jsstring := list_to_set (concat ids) in
  made ← mapM (create fuel v ts) (rootRefs ts);
  let nodes := concat (made.*1) in
  let visible : gset jsstring := list_to_set (id <$> nodes) in
  Some (set_data
          {| nodes := nodes;
             links := concat (made.*2) ++ (ts ≫= dependencies v allIds visible) |}
          v).

(** [collectTasks()] followed by the [processTasks] it ends with. *)
Definition collectTasks (toLowerCase : jsstring -> jsstring)
    (vault : list File) (v : View) : option View :=
  let st := scanVault toLowerCase flavor vault in
  processTasks (tasks st) (set_allTags (seenTags st) v).

(** The filter installed on the zoom behaviour in [renderGraph]. *)
Definition zoomFilter (e : Event) : bool :=
  if String.eqb (ev_type e) "wheel" then true
  else if String.eqb (ev_type e) "mousedown" && bool_decide (button e = 2%Z) then true
  else false.

End Svg.

(** ** The canvas view ([src/TasksGraphView.ts]) *)

Module Canvas.

Import JS.

Definition markers : Markers :=
  {| idMark := utf16 "🆔"; blockerMark := utf16 "⛔"; schedMark := utf16 "⏳";
     startMark := utf16 "🛫"; doneGlyph := utf16 "✅" |}.

Definition flavor (taskLimit : Z) : Flavor :=
  {| marks := markers; limit := Some taskLimit; cached := true |}.

Definition wantTag : jsstring := utf16 "#want".

(** [t.tags.includes('#want')] *)
Definition wanted (t : Task) : bool := bool_decide (wantTag ∈ tags t).

(** The block ids added to [wantTaskBlockIds]. *)
Definition wantBlockIds (ts : list Task) : gset jsstring :=
  list_to_set
    (omap (fun t => if truthy (blockId t) then blockId t else None) (filter wanted ts)).

(** Whether the loop over [t.outlinks] reaches [linkedTasks.add(t.id)]. *)
Definition linksToWanted (blockIds : gset jsstring) (t : Task) : bool :=
  match outlinks t with
  | Some ls => existsb (fun subpath => bool_decide (slice1 subpath ∈ blockIds)) ls
  | None => false
  end.

(** The links pushed for one task of [filteredTasks]. *)
Definition linksOf (allIds visible : gset jsstring) (t : Task) : list TaskLink :=
  (match parent t with
   | Some p =>
     if truthy (parent t) && bool_decide (p ∈ visible)
     then [{| source := p; target := id t; type := hierarchy |}]
     else []
   | None => []
   end)
  ++ (b ← blockers t;
      if bool_decide (b ∈ allIds) && bool_decide (b ∈ visible)
         && bool_decide (id t ∈ visible)
      then [{| source := b; target := id t; type := dependency |}]
      else []).

(** [processTasks(tasks)] *)
Definition processTasks (ts : list Task) (v : View) : View :=
  let wantTasks : gset jsstring := list_to_set (id <$> filter wanted ts) in
  let wantTaskBlockIds := wantBlockIds ts in
  let linkedTasks : gset jsstring :=
    list_to_set (id <$> filter (linksToWanted wantTaskBlockIds) ts) in
  let allIds : gset jsstring := list_to_set (id <$> ts) in
  let filteredTasks :=
    filter (fun t => bool_decide (id t ∈ wantTasks) || bool_decide (id t ∈ linkedTasks)) ts in
  let nodes := toNode markers <$> filteredTasks in
  let visible : gset jsstring := list_to_set (id <$> nodes) in
  set_data {| nodes := nodes; links := filteredTasks ≫= linksOf allIds visible |} v.

(** [collectTasks()] followed by the [processTasks] it ends with. *)
Definition collectTasks (toLowerCase : jsstring -> jsstring)
    (vault : list File) (v : View) : View :=
  let st := scanVault toLowerCase (flavor (taskLimit v)) vault in
  processTasks (tasks st) (set_allTags (seenTags st) v).

(** [renderGraph] builds the zoom behaviour with [scaleExtent] and a [zoom]
    listener and installs no filter: the behaviour keeps its default. *)
Definition zoomFilter : Event -> bool := D3.defaultFilter.

End Canvas.

(** ** Properties of graphs and views used in the statements *)

(** Both endpoints of every link are ids of emitted nodes. *)
Definition integrity (g : Graph) : Prop :=
  ∀ l, l ∈ links g → source l ∈ (id <$> nodes g) ∧ target l ∈ (id <$> nodes g).

(** [c] is in the [children] array of the task stored at [p]. *)
Definition childOf (ts : list Task) (p c : nat) : Prop :=
  ∃ t, ts !! p = Some t ∧ c ∈ children t.

(** Policy A as the specification words it. *)
Definition tagPredicate (v : View) (t : Task) : Prop :=
  if bool_decide (selectedTags v = ∅ ∧ showWithoutTags v = false) then True
  else (∃ tag, tag ∈ tags t ∧ tag ∈ selectedTags v)
       ∨ (showWithoutTags v = true ∧ tags t = []).

Definition visibleA (v : View) (t : Task) : Prop :=
  (showCompleted v = true ∨ completed t = false)
  ∧ (showBlocked v = true ∨ blockers t = [])
  ∧ tagPredicate v t.

(** Policy B as the specification words it: a task is included if it
    carries the pinned tag, or if it references, via its outlinks, the
    secondary identifier of a task that does.  The specification does not
    say when a reference target points at a secondary identifier, so that
    reading is the parameter [refers]. *)
Definition refersToPinned (refers : jsstring -> jsstring -> Prop)
    (ts : list Task) (t : Task) : Prop :=
  ∃ ls target w b,
    outlinks t = Some ls ∧ target ∈ ls ∧ w ∈ ts ∧ Canvas.wantTag ∈ tags w
    ∧ blockId w = Some b ∧ refers target b.

Definition includedBySpec (refers : jsstring -> jsstring -> Prop)
    (ts : list Task) (t : Task) : Prop :=
  Canvas.wantTag ∈ tags t ∨ refersToPinned refers ts t.

(** The reading of the canvas [processTasks], from [if (t.blockId)] and
    [wantTaskBlockIds.has(link.subpath.slice(1))]: the block id is not empty
    and is the target without its first code unit. *)
Definition sliceRefers (target b : jsstring) : Prop :=
  b ≠ [] ∧ JS.slice1 target = b.

(** ** Invariants of the scan *)

(** The shape of the store that the hierarchy builder maintains. *)
Record WfStore (ts : list Task) : Prop := {
  wf_lt : ∀ p c, childOf ts p c -> (p < c < length ts)%nat;
  wf_link : ∀ p c tp tc, ts !! p = Some tp -> c ∈ children tp -> ts !! c = Some tc ->
              parent tc = Some (id tp) ∧ depth tc = S (depth tp);
  wf_root : ∀ c tc, ts !! c = Some tc -> parent tc = None -> depth tc = 0%nat;
  wf_par : ∀ c tc, ts !! c = Some tc -> parent tc ≠ None -> ∃ p, childOf ts p c;
  wf_uniq : ∀ p p' c, childOf ts p c -> childOf ts p' c -> p = p';
  wf_ids : ∀ c tc, ts !! c = Some tc -> id tc ≠ []
}.

(** The stack holds references to stored tasks. *)
Definition ScanInv (st : Scan) : Prop :=
  WfStore (tasks st) ∧ Forall (fun e => (e.1 < length (tasks st))%nat) (stack st).

(** The places (file path and line number) of the stored tasks. *)
Definition locs (ts : list Task) : list (jsstring * nat) :=
  (fun t => (file t, line t)) <$> ts.

(** While the lines of [f] are scanned, the stored tasks are at distinct
    places, in files scanned before or on earlier lines of [f]. *)
Definition PlaceInv (seen : list jsstring) (cur : jsstring) (i : nat) (ts : list Task) : Prop :=
  NoDup (locs ts)
  ∧ Forall (fun l => l.1 ∈ seen ∨ (l.1 = cur ∧ (l.2 < i)%nat)) (locs ts).

(** ** Sample inputs *)

Module Sample.

Import JS.

(** The state of a freshly opened view. *)
Definition view0 : View :=
  {| data := {| nodes := []; links := [] |};
     showCompleted := true; showBlocked := true; liveUpdate := true;
     showWithoutTags := false; useDates := false;
     allTags := ∅; selectedTags := ∅; taskLimit := 500 |}.

(** The same view with the tag [#x] ticked in the tag panel. *)
Definition viewX : View :=
  {| data := {| nodes := []; links := [] |};
     showCompleted := true; showBlocked := true; liveUpdate := true;
     showWithoutTags := false; useDates := false;
     allTags := ∅; selectedTags := {[ utf16 "#x" ]}; taskLimit := 500 |}.

Definition unlines (ls : list string) : jsstring :=
  match ls with
  | [] => []
  | l :: rest => utf16 l ++ (rest ≫= fun l' => 0x0A :: utf16 l')
  end.

(** A note with a tagged task and an untagged subtask. *)
Definition notes : File :=
  {| path := utf16 "notes.md";
     content := unlines ["- [ ] plan #x"; "  - [ ] detail"; "- [x] done"]%string;
     cache := None |}.

(** A note in which two tasks carry the same id marker, written with the
    marker text of either view. *)
Definition twins (M : Markers) : File :=
  {| path := utf16 "twins.md";
     content := utf16 "- [ ] one " ++ idMark M ++ utf16 " t1" ++ [0x0A]
                ++ utf16 "- [ ] two " ++ idMark M ++ utf16 " t1";
     cache := None |}.

(** A note in which a task with the pinned tag and a task without tag or
    link carry the same id marker. *)
Definition pinnedTwin (M : Markers) : File :=
  {| path := utf16 "pinned.md";
     content := utf16 "- [ ] one #want " ++ idMark M ++ utf16 " t1" ++ [0x0A]
                ++ utf16 "- [ ] two " ++ idMark M ++ utf16 " t1";
     cache := None |}.

(** A note whose second task is blocked by an id that no task has. *)
Definition blocked (M : Markers) : File :=
  {| path := utf16 "blocked.md";
     content := utf16 "- [ ] first #want " ++ idMark M ++ utf16 " t1" ++ [0x0A]
                ++ utf16 "- [ ] second #want " ++ blockerMark M ++ utf16 " ghost "
                ++ blockerMark M ++ utf16 " t1";
     cache := None |}.

Definition primaryDown : Event := {| ev_type := "mousedown"; button := 0; ctrlKey := false |}.
Definition secondaryDown : Event := {| ev_type := "mousedown"; button := 2; ctrlKey := false |}.

End Sample.

(** * Further definitions: extraction shape, scan shape, controls, gestures, file watch *)

(** ** Reference descriptions used in the statements about extraction *)

(** The shape of a checklist line after its indentation: [- [c]], white
    space, then a non-empty content; the status character and the content
    hold no line terminator. *)
Definition ChecklistShape (s : jsstring) : Prop :=
  ∃ c ws body,
    s = [0x2D; 0x20; 0x5B; c; 0x5D] ++ ws ++ body
    ∧ JS.isLineTerminator c = false
    ∧ Forall (fun x => JS.isSpace x = true) ws
    ∧ body ≠ []
    ∧ Forall (fun x => JS.isLineTerminator x = false) body.

(** ** Reference description of a scan *)

(** A task as [extract] builds it: no children, no parent, depth 0. *)
Definition bare (t : Task) : Task :=
  {| id := id t; text := text t; completed := completed t; children := [];
     parent := None; blockers := blockers t; file := file t; line := line t;
     depth := 0%nat; tags := tags t; scheduled := scheduled t; start := start t;
     outlinks := outlinks t; blockId := blockId t |}.

Section Extracted.
Variable toLowerCase : jsstring -> jsstring.

(** The tasks of the checklist lines [lns], numbered from [i], in order. *)
Fixpoint extracts (F : Flavor) (f : File) (i : nat) (lns : list jsstring) : list Task :=
  match lns with
  | [] => []
  | ln :: rest =>
    option_list (snd <$> extract toLowerCase F f i ln) ++ extracts F f (S i) rest
  end.

(** The tasks of all checklist lines of a vault, file by file. *)
Definition vaultTasks (F : Flavor) (vault : list File) : list Task :=
  f ← vault; extracts F f 0%nat (JS.split 0x0A (content f)).

End Extracted.

(** The first tasks of a list, up to the limit of the flavor. *)
Definition capped (F : Flavor) (xs : list Task) : list Task :=
  match limit F with
  | Some l => take (Z.to_nat l) xs
  | None => xs
  end.

(** The tags recorded by a scan are the tags of its tasks. *)
Definition TagsInv (st : Scan) : Prop :=
  ∀ tag, tag ∈ seenTags st <-> ∃ tg, tg ∈ (tags <$> tasks st) ∧ tag ∈ tg.

(** ** Controls and gestures of the views *)

(** The handlers of the tag panel in [renderControls], before the
    [refreshData] they end with: the "Clear All" button, and the change of a
    tag check box. *)
Definition clearAll (v : View) : View :=
  {| data := data v; showCompleted := showCompleted v; showBlocked := showBlocked v;
     liveUpdate := liveUpdate v; showWithoutTags := false; useDates := useDates v;
     allTags := allTags v; selectedTags := ∅; taskLimit := taskLimit v |}.

Definition tagChanged (tag : jsstring) (checked : bool) (v : View) : View :=
  {| data := data v; showCompleted := showCompleted v; showBlocked := showBlocked v;
     liveUpdate := liveUpdate v; showWithoutTags := showWithoutTags v;
     useDates := useDates v; allTags := allTags v;
     selectedTags := if checked then {[ tag ]} ∪ selectedTags v
                     else selectedTags v ∖ {[ tag ]};
     taskLimit := taskLimit v |}.

(** The label of a node: [d.text.length > 20 ? `${d.text.slice(0,17)}…` : d.text],
    with the ellipsis as each file has it. *)
Definition label (ellipsis : jsstring) (s : jsstring) : jsstring :=
  if bool_decide (20 < length s)%nat then take 17 s ++ ellipsis else s.

Module SvgGestures.

  (** [d3.drag().filter(event => event.button === 0)] *)
Definition dragFilter (e : Event) : bool := bool_decide (button e = 0%Z).

  (** The guard of the [mousedown] listener of a node, which opens the task
      in a new tab: [e.button === 1]. *)
Definition opensNewTab (e : Event) : bool := bool_decide (button e = 1%Z).

Definition ellipsis : jsstring := [0xE2; 0x20AC; 0xA6].

End SvgGestures.

Module CanvasLabels.
Definition ellipsis : jsstring := JS.utf16 "…".
End CanvasLabels.

Module MoreSamples.

  (** The fresh view with "Show blocked" switched off. *)
Definition hideBlocked : View :=
    {| data := {| nodes := []; links := [] |};
       showCompleted := true; showBlocked := false; liveUpdate := true;
       showWithoutTags := false; useDates := false;
       allTags := ∅; selectedTags := ∅; taskLimit := 500 |}.

  (** A view with "without tags" and the tag [#x] ticked. *)
Definition everyTag : View :=
    {| data := {| nodes := []; links := [] |};
       showCompleted := true; showBlocked := true; liveUpdate := true;
       showWithoutTags := true; useDates := false;
       allTags := ∅; selectedTags := {[ JS.utf16 "#x" ]}; taskLimit := 500 |}.

End MoreSamples.

(** ** The file watch ([setupFileWatch], [onClose]) *)

(** The vault side of the watch: the event references that still have a
    listener, and the next reference [vault.on] will hand out (every call
    gives a new one).  The view side: [fileEventRef] and [liveUpdate]. *)
Record Watch := {
  listening : gset nat;
  nextRef : nat;
  fileEventRef : option nat;
  watchLive : bool
}.

(** [this.app.vault.offref(ref)] *)
Definition offref (r : nat) (w : Watch) : Watch :=
  {| listening := listening w ∖ {[ r ]}; nextRef := nextRef w;
     fileEventRef := fileEventRef w; watchLive := watchLive w |}.

(** [setupFileWatch()]: drop the listener of the stored reference, if any,
    then register a new one when live update is on.  With live update off
    the stored reference is kept as it is. *)
Definition setupFileWatch (w : Watch) : Watch :=
  let w1 := match fileEventRef w with Some r => offref r w | None => w end in
  if watchLive w1 then
    {| listening := {[ nextRef w1 ]} ∪ listening w1; nextRef := S (nextRef w1);
       fileEventRef := Some (nextRef w1); watchLive := true |}
  else w1.

(** [onClose()], as far as the watch goes. *)
Definition onClose (w : Watch) : Watch :=
  match fileEventRef w with
  | Some r =>
    {| listening := listening w ∖ {[ r ]}; nextRef := nextRef w;
       fileEventRef := None; watchLive := watchLive w |}
  | None => w
  end.

(** The "Live update" toggle: [this.liveUpdate = v; this.setupFileWatch()]. *)
Definition liveToggled (b : bool) (w : Watch) : Watch :=
  setupFileWatch {| listening := listening w; nextRef := nextRef w;
                    fileEventRef := fileEventRef w; watchLive := b |}.

(** What a view does to its watch, from the fresh view on: [onOpen] sets it
    up, the toggle sets it up again, [onClose] ends it. *)
Inductive WatchStep : Watch -> Watch -> Prop :=
| step_setup w : WatchStep w (setupFileWatch w)
| step_toggle b w : WatchStep w (liveToggled b w)
| step_close w : WatchStep w (onClose w).

Definition freshWatch : Watch :=
  {| listening := ∅; nextRef := 0; fileEventRef := None; watchLive := true |}.

(** The view holds at most the listener of its stored reference, and
    references not yet handed out have no listener. *)
Definition WatchInv (w : Watch) : Prop :=
  (∀ r, r ∈ listening w -> fileEventRef w = Some r)
  ∧ (∀ r, fileEventRef w = Some r -> (r < nextRef w)%nat).

(** ** Reference description of the hierarchy *)

Section Rows.
Variable toLowerCase : jsstring -> jsstring.

(** The indentation of the checklist lines [lns], numbered from [i], in order. *)
Fixpoint indents (F : Flavor) (f : File) (i : nat) (lns : list jsstring) : list nat :=
  match lns with
  | [] => []
  | ln :: rest =>
    option_list (fst <$> extract toLowerCase F f i ln) ++ indents F f (S i) rest
  end.

(** For every checklist line of the files [files], the first of which is
    file number [k] of the vault, in document order: the number of its file
    and its indentation. *)
Fixpoint rowsFrom (F : Flavor) (k : nat) (files : list File) : list (nat * nat) :=
  match files with
  | [] => []
  | f :: rest =>
    (pair k <$> indents F f 0%nat (JS.split 0x0A (content f))) ++ rowsFrom F (S k) rest
  end.

Definition vaultRows (F : Flavor) (vault : list File) : list (nat * nat) :=
  rowsFrom F 0%nat vault.

End Rows.

(** Row [p] is the nearest row before row [k] that belongs to the same file
    and has a smaller indentation. *)
Definition nearestShallower (R : list (nat * nat)) (p k : nat) : Prop :=
  ∃ f dp dk,
    R !! p = Some (f, dp) ∧ R !! k = Some (f, dk) ∧ (p < k)%nat ∧ (dp < dk)%nat
    ∧ ∀ j dj, (p < j < k)%nat -> R !! j = Some (f, dj) -> (dk ≤ dj)%nat.

(** [stk], top first, is the chain of nearest shallower rows that a row of
    file [fi] with indentation [d] would have at position [n]. *)
Fixpoint Chain (R : list (nat * nat)) (fi n d : nat) (stk : list (nat * nat)) : Prop :=
  match stk with
  | [] => ∀ j dj, (j < n)%nat -> R !! j = Some (fi, dj) -> (d ≤ dj)%nat
  | (p, dp) :: rest =>
    (p < n)%nat ∧ R !! p = Some (fi, dp) ∧ (dp < d)%nat
    ∧ (∀ j dj, (p < j < n)%nat -> R !! j = Some (fi, dj) -> (d ≤ dj)%nat)
    ∧ Chain R fi p dp rest
  end.

(** No stored task is deeper than its line is indented. *)
Definition DepthInv (ts : list Task) (R : list (nat * nat)) : Prop :=
  ∀ k t f d, ts !! k = Some t -> R !! k = Some (f, d) -> (depth t ≤ d)%nat.

(** While file number [fi] is scanned: one row per stored task, the stack
    popped for an indentation is the chain for it, and the [children] arrays
    hold the nearest-shallower relation. *)
Definition HierInv (fi : nat) (st : Scan) (R : list (nat * nat)) : Prop :=
  length R = length (tasks st)
  ∧ (∀ d, Chain R fi (length R) d (popStack d (stack st)))
  ∧ (∀ p k, childOf (tasks st) p k <-> nearestShallower R p k)
  ∧ Forall (fun r => (r.1 ≤ fi)%nat) R
  ∧ DepthInv (tasks st) R.

(** The rows of the stored tasks are the first rows of [Full], all of them
    unless the task limit is reached. *)
Definition Track (F : Flavor) (st : Scan) (R Full : list (nat * nat)) : Prop :=
  R `prefix_of` Full ∧ (limitReached F (tasks st) = false -> R = Full).

(** ** Reference description of the traversal order *)

(** The children [cs], in order, take the positions from [s] up to [e]
    (excluded), each child [c] the positions that [T c] gives it. *)
Inductive TilesBy (T : nat -> nat -> Prop) : nat -> list nat -> nat -> Prop :=
| tiles_nil s : TilesBy T s [] s
| tiles_cons c m cs e :
    (c < m)%nat -> T c m -> TilesBy T m cs e -> TilesBy T c (c :: cs) e.

(** The task stored at [c] and all its descendants take the positions from
    [c] up to [e] (excluded), in the order in which [create] visits them. *)
#[warnings="-register-all"] Inductive Tree (ts : list Task) : nat -> nat -> Prop :=
| tree_node c t e :
    ts !! c = Some t -> TilesBy (Tree ts) (S c) (children t) e -> Tree ts c e.

(** Each entry of the stack (references only, top first) is the last child
    of the entry below it, and the bottom entry is the last root. *)
Fixpoint Spine (ts : list Task) (stk : list nat) : Prop :=
  match stk with
  | [] => True
  | c :: rest =>
    match rest with
    | [] => last (rootRefs ts) = Some c
    | p :: _ => ∃ t, ts !! p = Some t ∧ last (children t) = Some c
    end ∧ Spine ts rest
  end.

(** The store is in traversal order, and the stack is its right-most branch. *)
Definition OrderInv (st : Scan) : Prop :=
  TilesBy (Tree (tasks st)) 0 (rootRefs (tasks st)) (length (tasks st))
  ∧ Spine (tasks st) (stack st).*1.

(** The stored tasks at the positions from [c] up to [e] (excluded). *)
Definition seg (c e : nat) (ts : list Task) : list Task := take (e - c) (drop c ts).

(** ** Layout of the nodes and the task limit input *)

Module Layout.

(** The radius of the circle of a node, [25 - d.depth * 3], in [renderGraph]
    of the SVG view and in [draw] and [findNode] of the canvas view. *)
Definition radius (n : TaskNode) : Z := 25 - Z.of_nat (depth n) * 3.

(** [d.completed && !this.showCompleted ? 0 : 1], the opacity of the circle
    and of the label of a node in the SVG view. *)
Definition opacity (v : View) (n : TaskNode) : Z :=
  if completed n && negb (showCompleted v) then 0 else 1.

(** [this.data.nodes.filter(n => n.depth === 0)]: the nodes that
    [renderGraph] of the SVG view places on a circle. *)
Definition circleRoots (g : Graph) : list TaskNode :=
  filter (fun n => bool_decide (depth n = 0%nat)) (nodes g).

End Layout.

(** The [change] handler of the task limit input of the canvas view, before
    its [refreshData]: [parseInt] gave a number, or [NaN] and nothing is
    done. *)
Definition limitChanged (parsed : option Z) (v : View) : View :=
  match parsed with
  | Some l =>
    {| data := data v; showCompleted := showCompleted v; showBlocked := showBlocked v;
       liveUpdate := liveUpdate v; showWithoutTags := showWithoutTags v;
       useDates := useDates v; allTags := allTags v; selectedTags := selectedTags v;
       taskLimit := l |}
  | None => v
  end.

Module MoreViews.

(** The fresh view with "Show completed" switched off. *)
Definition hideCompleted : View :=
  {| data := {| nodes := []; links := [] |};
     showCompleted := false; showBlocked := true; liveUpdate := true;
     showWithoutTags := false; useDates := false;
     allTags := ∅; selectedTags := ∅; taskLimit := 500 |}.

End MoreViews.

(** ** Shape of the extracted dates *)

(** Four digits, a dash, two digits, a dash, two digits. *)
Definition DateShape (s : jsstring) : Prop :=
  ∃ y1 y2 y3 y4 m1 m2 d1 d2,
    s = [y1; y2; y3; y4; 0x2D; m1; m2; 0x2D; d1; d2]
    ∧ Forall (fun c => JS.isDigit c = true) [y1; y2; y3; y4; m1; m2; d1; d2].

(** ** Opening a task in the editor *)


(** ** Where an id comes from *)

(** The text in which [collectTasks] looks for the id marker: [m[2]] of the
    checklist line, without its tag tokens, trimmed. *)
Definition markedText (ln : jsstring) : option jsstring :=
  m ← Regex.match1 checklistRe (JS.trimStart ln);
  Some (JS.trim (Regex.removeAll tagRe (group 1 m))).

(** [payload] is written in [body] after the first marker [mark] that is
    followed, after any white space, by a unit that is not white space: it
    is the run of such units up to the next white space or the end. *)
Definition FirstPayload (mark body payload : jsstring) : Prop :=
  ∃ pre ws post,
    body = pre ++ mark ++ ws ++ payload ++ post
    ∧ Forall (fun c => JS.isSpace c = true) ws
    ∧ payload ≠ []
    ∧ Forall (fun c => JS.isSpace c = false) payload
    ∧ (∀ c, head post = Some c -> JS.isSpace c = true)
    ∧ ∀ p ws' c rest,
        body = p ++ mark ++ ws' ++ c :: rest ->
        Forall (fun x => JS.isSpace x = true) ws' -> JS.isSpace c = false ->
        (length pre ≤ length p)%nat.

(** No marker [mark] of [body] is followed, after any white space, by a
    unit that is not white space. *)
Definition Unmarked (mark body : jsstring) : Prop :=
  ∀ p ws c rest,
    body = p ++ mark ++ ws ++ c :: rest ->
    Forall (fun x => JS.isSpace x = true) ws -> JS.isSpace c = true.

(** * Theorems *)

Example utf16_markers : JS.utf16 "🆔 ⛔⏳🛫✅" = [0xD83C; 0xDD94; 0x20; 0x26D4; 0x23F3; 0xD83D; 0xDEEB; 0x2705].
Proof. reflexivity. Qed.

Section RegexFacts.
Import JS Regex.
Context {A : Type}.

Lemma star_inv p (k : nat -> jsstring -> option A) i s a :
  star p k i s = Some a -> ∃ i' s', (i ≤ i')%nat ∧ k i' s' = Some a.
Proof.
  revert i. induction s as [|c s IH]; intros i; simpl.
  - eauto.
  - destruct (p c); [|eauto].
    destruct (star p k (S i) s) eqn:E; [|eauto].
    intros [= ->]. destruct (IH _ E) as (i' & s' & ? & ?).
    exists i', s'. split; [lia|done].
Qed.

Lemma lits_inv m i s caps (k : nat -> jsstring -> list jsstring -> option A) a :
  run (lits m) i s caps k = Some a -> ∃ i' s', (i ≤ i')%nat ∧ k i' s' caps = Some a.
Proof.
  revert i s. induction m as [|c m IH]; intros i s; simpl.
  - eauto.
  - destruct s as [|x s]; [done|]. destruct (x =? c); [|done].
    intros H. apply IH in H as (i' & s' & ? & ?).
    exists i', s'. split; [lia|done].
Qed.
End RegexFacts.

Section ExtractFacts.
Import JS Regex.
Variable toLowerCase : jsstring -> jsstring.

Lemma search_inv r i s m :
  search r i s = Some m -> ∃ i' s', exec_at r i' s' = Some m.
Proof.
  revert i. induction s as [|c s IH]; intros i; simpl.
  - destruct (exec_at r i []) eqn:E; [|done]. intros [= ->]. eauto.
  - destruct (exec_at r i (c :: s)) eqn:E; [intros [= ->]; eauto|]. apply IH.
Qed.

(** The payload of an id or blocker marker is never empty. *)
Lemma refRe_payload mark s m :
  match1 (refRe mark) s = Some m -> group 0 m ≠ [].
Proof.
  intros H. apply search_inv in H as (i & s' & H).
  unfold exec_at, refRe in H. simpl in H.
  apply lits_inv in H as (i1 & s1 & _ & H).
  apply star_inv in H as (i2 & s2 & _ & H).
  destruct s2 as [|x s2]; [done|]. destruct (isNonSpace x); [|done].
  apply star_inv in H as (i3 & s3 & Hle & H).
  injection H as <-. unfold group. simpl.
  replace (i3 - i2)%nat with (S (i3 - S i2)) by lia. done.
Qed.

Lemma derivedId_nonempty p i : derivedId p i ≠ [].
Proof. unfold derivedId. by vm_compute (utf16 "task-"). Qed.

(** What the task literal of [extract] fixes. *)
Lemma extract_fields F f i ln ind t :
  extract toLowerCase F f i ln = Some (ind, t) ->
  children t = [] ∧ parent t = None ∧ depth t = 0%nat
  ∧ file t = path f ∧ line t = i ∧ id t ≠ [].
Proof.
  unfold extract. destruct (match1 checklistRe _) as [m|]; [|done].
  intros [= <- <-]. simpl. repeat split.
  destruct (match1 (refRe _) _) as [im|] eqn:E.
  - by eapply refRe_payload.
  - apply derivedId_nonempty.
Qed.
End ExtractFacts.

Section Store.

Lemma wf_nil : WfStore [].
Proof.
  split; try (intros ? ? (t & H & _)); try (intros ? ? ? (t & H & _)); try done.
  all: intros; by rewrite ?lookup_nil in *.
Qed.

Lemma childOf_snoc_leaf ts t p c :
  children t = [] ->
  childOf (ts ++ [t]) p c <-> childOf ts p c.
Proof.
  intros Hc. split.
  - intros (x & [[_ ?]|[_ <-]]%lookup_snoc_Some & Hin).
    + by exists x.
    + rewrite Hc in Hin. by apply elem_of_nil in Hin.
  - intros (x & Hx & Hin). exists x. split; [|done].
    apply lookup_snoc_Some. left. split; [|done]. by eapply lookup_lt_Some.
Qed.

Lemma wf_snoc_root ts t :
  WfStore ts -> children t = [] -> parent t = None -> depth t = 0%nat -> id t ≠ [] ->
  WfStore (ts ++ [t]).
Proof.
  intros W Hc Hp Hd Hi. split.
  - intros p c H%childOf_snoc_leaf; [|done].
    apply (wf_lt _ W) in H. rewrite length_app. simpl. lia.
  - intros p c tp tc [[Hlt Hp']|[_ <-]]%lookup_snoc_Some Hin;
      [|rewrite Hc in Hin; by apply elem_of_nil in Hin].
    intros [[_ Hc']|[-> <-]]%lookup_snoc_Some.
    + by eapply (wf_link _ W).
    + assert (childOf ts p (length ts)) as H%(wf_lt _ W) by (by exists tp). lia.
  - intros c tc [[_ H]|[_ <-]]%lookup_snoc_Some; [|done]. by eapply (wf_root _ W).
  - intros c tc [[_ H]|[_ <-]]%lookup_snoc_Some Hne; [|done].
    destruct (wf_par _ W _ _ H Hne) as [p Hp']. exists p. by apply childOf_snoc_leaf.
  - intros p p' c H1%childOf_snoc_leaf H2%childOf_snoc_leaf; try done.
    by eapply (wf_uniq _ W).
  - intros c tc [[_ H]|[_ <-]]%lookup_snoc_Some; [|done]. by eapply (wf_ids _ W).
Qed.

(** The store after a child was created: the entry of the parent has one
    more child, the other entries are as before, the child is last. *)
Lemma lookup_grow ts p top t' q x :
  ts !! p = Some top ->
  (alter (push_child (length ts)) p ts ++ [t']) !! q = Some x ->
  (q = length ts ∧ x = t')
  ∨ (∃ old, ts !! q = Some old ∧ id x = id old ∧ parent x = parent old
            ∧ depth x = depth old
            ∧ ∀ c, c ∈ children x <-> c ∈ children old ∨ (q = p ∧ c = length ts)).
Proof.
  intros Hp [[Hlt H]|[Hq <-]]%lookup_snoc_Some.
  - right. destruct (decide (q = p)) as [->|Hne].
    + rewrite list_lookup_alter_eq, Hp in H. injection H as <-.
      exists top. split_and!; try done.
      intros c. simpl. rewrite elem_of_app, list_elem_of_singleton. tauto.
    + rewrite list_lookup_alter_ne in H by done.
      exists x. split_and!; try done. tauto.
  - left. by rewrite length_alter in Hq.
Qed.

Lemma lookup_grow_old ts p top t' q old :
  ts !! p = Some top ->
  ts !! q = Some old ->
  ∃ x, (alter (push_child (length ts)) p ts ++ [t']) !! q = Some x
       ∧ id x = id old ∧ parent x = parent old ∧ depth x = depth old
       ∧ ∀ c, c ∈ children x <-> c ∈ children old ∨ (q = p ∧ c = length ts).
Proof.
  intros Hp Hq.
  assert (q < length ts)%nat as Hlt by (by eapply lookup_lt_Some).
  destruct (decide (q = p)) as [->|Hne].
  - exists (push_child (length ts) top). split.
    + rewrite lookup_app_l by (by rewrite length_alter).
      by rewrite list_lookup_alter_eq, Hp.
    + assert (old = top) as -> by congruence. split_and!; try done.
      intros c. simpl. rewrite elem_of_app, list_elem_of_singleton. tauto.
  - exists old. split.
    + rewrite lookup_app_l by (by rewrite length_alter).
      by rewrite list_lookup_alter_ne.
    + split_and!; try done. tauto.
Qed.

Lemma childOf_grow ts p top t' q c :
  ts !! p = Some top -> children t' = [] ->
  childOf (alter (push_child (length ts)) p ts ++ [t']) q c
  <-> childOf ts q c ∨ (q = p ∧ c = length ts).
Proof.
  intros Hp Hc. split.
  - intros (x & Hx & Hin).
    destruct (lookup_grow _ _ _ _ _ _ Hp Hx) as [[_ ->]|(old & Ho & _ & _ & _ & Hch)].
    + rewrite Hc in Hin. by apply elem_of_nil in Hin.
    + destruct (proj1 (Hch c) Hin) as [Hin'|[E1 E2]]; [left; by exists old|by right].
  - intros [(old & Ho & Hin)|[-> ->]].
    + destruct (lookup_grow_old _ _ _ t' _ _ Hp Ho) as (x & Hx & _ & _ & _ & Hch).
      exists x. split; [done|]. apply Hch. by left.
    + destruct (lookup_grow_old _ _ _ t' _ _ Hp Hp) as (x & Hx & _ & _ & _ & Hch).
      exists x. split; [done|]. apply Hch. by right.
Qed.

Lemma wf_snoc_child ts p top t :
  WfStore ts -> ts !! p = Some top -> children t = [] -> id t ≠ [] ->
  WfStore (alter (push_child (length ts)) p ts
             ++ [set_parent (id top) (depth top + 1) t]).
Proof.
  intros W Hp Hc Hi.
  set (t' := set_parent (id top) (depth top + 1) t).
  assert (children t' = []) as Hc' by done.
  assert (p < length ts)%nat as Hplt by (by eapply lookup_lt_Some).
  assert (∀ q, ¬ childOf ts q (length ts)) as Hfresh.
  { intros q H%(wf_lt _ W). lia. }
  pose proof (fun q c => childOf_grow ts p top t' q c Hp Hc') as CG.
  split.
  - intros q c [H| [-> ->]]%CG; try done.
    + apply (wf_lt _ W) in H. rewrite length_app, length_alter. simpl. lia.
    + rewrite length_app, length_alter. simpl. lia.
  - intros q c tq tc Hq Hin Hcq.
    assert (childOf ts q c ∨ q = p ∧ c = length ts) as Hco.
    { apply CG. by exists tq. }
    destruct (lookup_grow _ _ _ _ _ _ Hp Hq) as [[-> ->]|(oq & Hoq & Eid & _ & Ed & _)].
    { destruct Hco as [H%(wf_lt _ W)|[? _]]; lia. }
    destruct (lookup_grow _ _ _ _ _ _ Hp Hcq) as [[-> ->]|(oc & Hoc & _ & Ep & Edc & _)].
    + destruct Hco as [H|[-> _]]; [by apply Hfresh in H|].
      assert (oq = top) as -> by congruence.
      simpl. rewrite Eid, Ed. split; [done|lia].
    + destruct Hco as [(x & Hx & Hin')|[_ ->]].
      * assert (x = oq) as -> by congruence.
        rewrite Ep, Edc, Eid, Ed. by eapply (wf_link _ W).
      * apply lookup_lt_Some in Hoc. lia.
  - intros c tc Hcq Hpar.
    destruct (lookup_grow _ _ _ _ _ _ Hp Hcq) as [[-> ->]|(oc & Hoc & _ & Ep & Edc & _)];
      [done|].
    rewrite Edc. eapply (wf_root _ W); [done|]. by rewrite <- Ep.
  - intros c tc Hcq Hpar.
    destruct (lookup_grow _ _ _ _ _ _ Hp Hcq) as [[-> ->]|(oc & Hoc & _ & Ep & Edc & _)].
    + exists p. apply CG. by right.
    + rewrite Ep in Hpar. destruct (wf_par _ W _ _ Hoc Hpar) as [q Hq].
      exists q. apply CG. by left.
  - intros q q' c [H1|[-> ->]]%CG [H2|[-> E]]%CG; try done.
    + by eapply (wf_uniq _ W).
    + subst c. by apply Hfresh in H1.
    + by apply Hfresh in H2.
  - intros c tc Hcq.
    destruct (lookup_grow _ _ _ _ _ _ Hp Hcq) as [[-> ->]|(oc & Hoc & Eid & _)]; [done|].
    rewrite Eid. by eapply (wf_ids _ W).
Qed.

End Store.

Section ScanFacts.
Variable toLowerCase : jsstring -> jsstring.
Variable F : Flavor.

Lemma popStack_Forall (P : nat * nat -> Prop) ind stk :
  Forall P stk -> Forall P (popStack ind stk).
Proof.
  induction 1 as [|[p i] stk HP Hstk IH]; simpl; [done|].
  case_bool_decide; [done|]. by constructor.
Qed.

(** The three outcomes of one line: nothing, a new root, a new child of
    the task on top of the stack. *)
Lemma scanLine_cases f st i ln :
  let st' := scanLine toLowerCase F f st i ln in
  st' = st
  ∨ (∃ ind t, extract toLowerCase F f i ln = Some (ind, t)
       ∧ limitReached F (tasks st) = false
       ∧ stack st' = (length (tasks st), ind) :: popStack ind (stack st)
       ∧ (tasks st' = tasks st ++ [t]
          ∨ ∃ p pi rest top,
              popStack ind (stack st) = (p, pi) :: rest
              ∧ tasks st !! p = Some top
              ∧ tasks st' = alter (push_child (length (tasks st))) p (tasks st)
                              ++ [set_parent (id top) (depth top + 1) t])).
Proof.
  unfold scanLine. destruct (limitReached F (tasks st)) eqn:El; [by left|].
  destruct (extract _ _ _ _ _) as [[ind t]|] eqn:E; [|by left].
  right. exists ind, t. split_and!; try done.
  - by repeat case_match.
  - destruct (popStack ind (stack st)) as [|[p pi] rest] eqn:Ep; [by left|].
    destruct (tasks st !! p) as [top|] eqn:Et; [|by left].
    right. by exists p, pi, rest, top.
Qed.

Lemma scanLine_inv f st i ln :
  ScanInv st -> ScanInv (scanLine toLowerCase F f st i ln).
Proof.
  intros [W HStk].
  destruct (scanLine_cases f st i ln) as [->|(ind & t & E & _ & Es & Et)]; [done|].
  apply extract_fields in E as (Hc & Hp & Hd & _ & _ & Hi).
  assert (∀ ts' : list Task, length ts' = S (length (tasks st)) ->
          Forall (fun e : nat * nat => (e.1 < length ts')%nat)
            ((length (tasks st), ind) :: popStack ind (stack st))) as HS.
  { intros ts' Hl. constructor; [simpl; lia|].
    apply popStack_Forall. eapply Forall_impl; [done|]. simpl. intros. lia. }
  split.
  - destruct Et as [->|(p & pi & rest & top & _ & Htop & ->)].
    + by apply wf_snoc_root.
    + by apply wf_snoc_child.
  - rewrite Es. apply HS.
    destruct Et as [->|(p & pi & rest & top & _ & Htop & ->)];
      rewrite length_app, ?length_alter; simpl; lia.
Qed.

Lemma scanLines_inv f i lns st :
  ScanInv st -> ScanInv (scanLines toLowerCase F f i lns st).
Proof.
  revert i st. induction lns as [|ln lns IH]; intros i st H; simpl; [done|].
  apply IH. by apply scanLine_inv.
Qed.

Lemma scanFiles_inv files st :
  ScanInv st -> ScanInv (scanFiles toLowerCase F files st).
Proof.
  revert st. induction files as [|f files IH]; intros st H; simpl; [done|].
  destruct (limitReached F (tasks st)); [done|].
  apply IH. apply scanLines_inv. destruct H as [W _]. by split.
Qed.

(** Every scan ends with a well-formed store. *)
Lemma scanVault_wf files : WfStore (tasks (scanVault toLowerCase F files)).
Proof. apply scanFiles_inv. split; [apply wf_nil|constructor]. Qed.

End ScanFacts.

Section ListFacts.
Context {A B : Type}.

Lemma elem_of_concat (x : A) (ls : list (list A)) :
  x ∈ concat ls <-> ∃ l, l ∈ ls ∧ x ∈ l.
Proof.
  induction ls as [|l ls IH]; simpl.
  - split; [by intros ?%elem_of_nil|by intros (? & ?%elem_of_nil & _)].
  - rewrite elem_of_app, IH. split.
    + intros [H|(l' & H1 & H2)]; [exists l|exists l']; split; try done;
        [apply list_elem_of_here|by apply list_elem_of_further].
    + intros (l' & [->|H1]%elem_of_cons & H2); [by left|right; by exists l'].
Qed.

Lemma mapM_elem_r (f : A -> option B) l k y :
  mapM f l = Some k -> y ∈ k -> ∃ x, x ∈ l ∧ f x = Some y.
Proof.
  intros H%mapM_Some_1. induction H as [|x y' l k Hxy _ IH].
  - by intros ?%elem_of_nil.
  - intros [->|Hy]%elem_of_cons.
    + exists x. split; [apply list_elem_of_here|done].
    + destruct (IH Hy) as (x' & ? & ?). exists x'. split; [by apply list_elem_of_further|done].
Qed.

Lemma mapM_elem_l (f : A -> option B) l k x :
  mapM f l = Some k -> x ∈ l -> ∃ y, y ∈ k ∧ f x = Some y.
Proof.
  intros H%mapM_Some_1. induction H as [|x' y l k Hxy _ IH].
  - by intros ?%elem_of_nil.
  - intros [->|Hx]%elem_of_cons.
    + exists y. split; [apply list_elem_of_here|done].
    + destruct (IH Hx) as (y' & ? & ?). exists y'. split; [by apply list_elem_of_further|done].
Qed.

Lemma mapM_total (f : A -> option B) l :
  (∀ x, x ∈ l -> is_Some (f x)) -> is_Some (mapM f l).
Proof. intros H. apply mapM_is_Some_2, Forall_forall. intros x Hx. by apply H. Qed.
End ListFacts.

Section Roots.

Lemma rootRefs_spec ts u :
  u ∈ rootRefs ts <-> ∃ t, ts !! u = Some t ∧ truthy (parent t) = false.
Proof.
  unfold rootRefs. rewrite list_elem_of_fmap. split.
  - intros ([u' t] & -> & [Hr Hin]%list_elem_of_filter).
    apply elem_of_lookup_imap in Hin as (i & x & [= -> ->] & Hx).
    exists x. split; [done|]. simpl in Hr. by destruct (truthy (parent x)).
  - intros (t & Ht & Hr). exists (u, t). split; [done|].
    apply list_elem_of_filter. split; [simpl; by rewrite Hr|].
    apply elem_of_lookup_imap. by exists u, t.
Qed.

(** Every stored task is reached from a root by following [children]. *)
Lemma reach_from_root ts q t :
  WfStore ts -> ts !! q = Some t ->
  ∃ r, r ∈ rootRefs ts ∧ rtc (childOf ts) r q.
Proof.
  intros W. revert t. induction (lt_wf q) as [q _ IH]. intros t Ht.
  destruct (parent t) as [pid|] eqn:Ep.
  - assert (parent t ≠ None) as Hne by (by rewrite Ep).
    destruct (wf_par _ W _ _ Ht Hne) as (p & Hpc).
    pose proof (wf_lt _ W _ _ Hpc) as Hlt.
    destruct Hpc as (tp & Hp & Hin).
    destruct (IH p ltac:(lia) tp Hp) as (r & Hr & Hreach).
    exists r. split; [done|]. eapply rtc_r; [done|]. by exists tp.
  - exists q. split; [|done]. apply rootRefs_spec. exists t. split; [done|].
    by rewrite Ep.
Qed.

End Roots.

Section SvgAssembler.
Import Svg.
Variable v : View.
Variable ts : list Task.

Lemma visit_inv rec t c g :
  visit rec v ts t c = Some g ->
  ∃ ct sub, ts !! c = Some ct ∧ rec c = Some sub
    ∧ g = (sub.1,
           (if linked v t ct
            then [{| source := id t; target := id ct; type := hierarchy |}]
            else []) ++ sub.2).
Proof.
  unfold visit. intros H.
  destruct (ts !! c) as [ct|]; [|done]. simpl in H.
  destruct (rec c) as [sub|]; [|done]. simpl in H.
  injection H as <-. by exists ct, sub.
Qed.

Lemma create_inv n u ns ls :
  create (S n) v ts u = Some (ns, ls) ->
  ∃ t subs, ts !! u = Some t
    ∧ mapM (visit (create n v ts) v ts t) (children t) = Some subs
    ∧ ns = (if shown v t then [toNode markers t] else []) ++ concat (subs.*1)
    ∧ ls = concat (subs.*2).
Proof.
  simpl. intros H.
  destruct (ts !! u) as [t|]; [|done]. simpl in H.
  destruct (mapM _ _) as [subs|] eqn:E; [|done]. simpl in H.
  injection H as <- <-. by exists t, subs.
Qed.

Lemma collect_inv n u ids :
  collect (S n) ts u = Some ids ->
  ∃ t sub, ts !! u = Some t
    ∧ mapM (collect n ts) (children t) = Some sub
    ∧ ids = id t :: concat sub.
Proof.
  simpl. intros H.
  destruct (ts !! u) as [t|]; [|done]. simpl in H.
  destruct (mapM _ _) as [sub|] eqn:E; [|done]. simpl in H.
  injection H as <-. by exists t, sub.
Qed.

(** Every id that [collect] adds is the id of a stored task. *)
Lemma collect_ids fuel u ids i :
  collect fuel ts u = Some ids -> i ∈ ids -> ∃ t, t ∈ ts ∧ id t = i.
Proof.
  revert u ids. induction fuel as [|n IH]; intros u ids; [done|].
  intros (t & sub & Ht & Hm & ->)%collect_inv [->|Hin]%elem_of_cons.
  - exists t. split; [by eapply list_elem_of_lookup_2|done].
  - apply elem_of_concat in Hin as (l & Hl & Hil).
    destruct (mapM_elem_r _ _ _ _ Hm Hl) as (c & _ & Hc). by eapply IH.
Qed.

(** Every node that [create] pushes is the copy of a stored task that
    passes the filter. *)
Lemma create_nodes_sound fuel u ns ls n :
  create fuel v ts u = Some (ns, ls) -> n ∈ ns ->
  ∃ t, t ∈ ts ∧ shown v t = true ∧ n = toNode markers t.
Proof.
  revert u ns ls. induction fuel as [|k IH]; intros u ns ls; [done|].
  intros (t & subs & Ht & Hm & -> & _)%create_inv [Hn|Hn]%elem_of_app.
  - destruct (shown v t) eqn:Es; [|by apply elem_of_nil in Hn].
    apply list_elem_of_singleton in Hn as ->.
    exists t. split; [by eapply list_elem_of_lookup_2|done].
  - apply elem_of_concat in Hn as (l & Hl & Hnl).
    apply list_elem_of_fmap in Hl as (g & -> & Hg).
    destruct (mapM_elem_r _ _ _ _ Hm Hg) as (c & _ & Hc).
    apply visit_inv in Hc as (ct & [sn sl] & _ & Hrec & ->). by eapply IH.
Qed.

(** [create] pushes the node of every task below its argument that passes
    the filter. *)
Lemma create_nodes_complete fuel u ns ls q t :
  create fuel v ts u = Some (ns, ls) ->
  rtc (childOf ts) u q -> ts !! q = Some t -> shown v t = true ->
  toNode markers t ∈ ns.
Proof.
  revert u ns ls. induction fuel as [|k IH]; intros u ns ls; [done|].
  intros (tu & subs & Htu & Hm & -> & _)%create_inv Hreach Hq Hs.
  apply elem_of_app. apply rtc_inv in Hreach as [->|(c & (tu' & Htu' & Hin) & Hreach)].
  - left. assert (tu = t) as -> by congruence. rewrite Hs. apply list_elem_of_here.
  - right. assert (tu' = tu) as -> by congruence.
    destruct (mapM_elem_l _ _ _ _ Hm Hin) as (g & Hg & Hc).
    apply visit_inv in Hc as (ct & [sn sl] & _ & Hrec & ->).
    apply elem_of_concat. exists sn. split.
    + apply list_elem_of_fmap. by exists (sn, (if linked v tu ct
          then [{| source := id tu; target := id ct; type := hierarchy |}]
          else []) ++ sl).
    + by eapply IH.
Qed.

(** Every link that [create] pushes is a hierarchy link between two
    stored tasks that pass the completed and blocked conditions; the node
    of each end is pushed too when that end passes the tag condition. *)
Lemma create_links fuel u ns ls l :
  create fuel v ts u = Some (ns, ls) -> l ∈ ls ->
  type l = hierarchy
  ∧ ∃ t c, t ∈ ts ∧ c ∈ ts ∧ linked v t c = true
      ∧ source l = id t ∧ target l = id c
      ∧ (tagOk v t = true -> toNode markers t ∈ ns)
      ∧ (tagOk v c = true -> toNode markers c ∈ ns).
Proof.
  revert u ns ls. induction fuel as [|k IH]; intros u ns ls; [done|].
  intros (t & subs & Ht & Hm & -> & ->)%create_inv Hl.
  apply elem_of_concat in Hl as (ll & Hll & Hl).
  apply list_elem_of_fmap in Hll as (g & -> & Hg).
  destruct (mapM_elem_r _ _ _ _ Hm Hg) as (c & Hcin & Hc).
  apply visit_inv in Hc as (ct & [sn sl] & Hct & Hrec & ->).
  assert (∀ n, n ∈ sn ->
            n ∈ (if shown v t then [toNode markers t] else []) ++ concat (subs.*1)) as Hsub.
  { intros n Hn. apply elem_of_app. right. apply elem_of_concat. exists sn.
    split; [|done]. apply list_elem_of_fmap. eexists. split; [|exact Hg]. done. }
  simpl in Hl. apply elem_of_app in Hl as [Hl|Hl].
  - destruct (linked v t ct) eqn:El; [|by apply elem_of_nil in Hl].
    apply list_elem_of_singleton in Hl as ->. split; [done|].
    exists t, ct. split_and!; try done; try (by eapply list_elem_of_lookup_2).
    + intros Htag. apply elem_of_app. left.
      assert (shown v t = true) as ->; [|apply list_elem_of_here].
      unfold shown, linked in *. rewrite Htag.
      destruct (showCompleted v), (showBlocked v), (completed t), (isBlocked t),
        (completed ct), (isBlocked ct); done.
    + intros Htag. apply Hsub.
      destruct k as [|k]; [done|].
      apply create_inv in Hrec as (ct' & subs' & Hct' & _ & -> & _).
      assert (ct' = ct) as -> by congruence.
      apply elem_of_app. left.
      assert (shown v ct = true) as ->; [|apply list_elem_of_here].
      unfold shown, linked in *. rewrite Htag.
      destruct (showCompleted v), (showBlocked v), (completed t), (isBlocked t),
        (completed ct), (isBlocked ct); done.
  - destruct (IH _ _ _ Hrec Hl) as (Hty & t1 & c1 & ? & ? & ? & ? & ? & H1 & H2).
    split; [done|]. exists t1, c1. split_and!; try done; intros; apply Hsub; auto.
Qed.

(** With children that come later in the store than their parent, the
    recursion of [create] and of [collect] ends within the fuel. *)
Lemma create_total fuel u :
  (∀ p c, childOf ts p c -> (p < c < length ts)%nat) ->
  (u < length ts)%nat -> (length ts ≤ fuel + u)%nat ->
  is_Some (create fuel v ts u).
Proof.
  intros Hlt. revert u. induction fuel as [|k IH]; intros u Hu Hf; [lia|].
  simpl. destruct (lookup_lt_is_Some_2 ts u Hu) as [t Ht]. rewrite Ht. simpl.
  destruct (mapM_total (visit (create k v ts) v ts t) (children t)) as [subs ->]; [|done].
  intros c Hc. assert (childOf ts u c) as Hco%Hlt by (by exists t).
  unfold visit.
  destruct (lookup_lt_is_Some_2 ts c ltac:(lia)) as [ct ->]. simpl.
  destruct (IH c ltac:(lia) ltac:(lia)) as [sub ->]. done.
Qed.

Lemma collect_total fuel u :
  (∀ p c, childOf ts p c -> (p < c < length ts)%nat) ->
  (u < length ts)%nat -> (length ts ≤ fuel + u)%nat ->
  is_Some (collect fuel ts u).
Proof.
  intros Hlt. revert u. induction fuel as [|k IH]; intros u Hu Hf; [lia|].
  simpl. destruct (lookup_lt_is_Some_2 ts u Hu) as [t Ht]. rewrite Ht. simpl.
  destruct (mapM_total (collect k ts) (children t)) as [subs ->]; [|done].
  intros c Hc. assert (childOf ts u c) as Hco%Hlt by (by exists t).
  apply IH; lia.
Qed.

End SvgAssembler.

Section SvgProcess.
Import Svg.

Lemma processTasks_inv ts v v' :
  processTasks ts v = Some v' ->
  ∃ ids made,
    mapM (collect (length ts) ts) (rootRefs ts) = Some ids
    ∧ mapM (create (length ts) v ts) (rootRefs ts) = Some made
    ∧ v' = set_data
             {| nodes := concat (made.*1);
                links := concat (made.*2)
                  ++ (ts ≫= dependencies v (list_to_set (concat ids))
                               (list_to_set (id <$> concat (made.*1)))) |} v.
Proof.
  unfold processTasks. intros H.
  destruct (mapM (collect _ _) _) as [ids|]; [|done]. simpl in H.
  destruct (mapM (create _ _ _) _) as [made|]; [|done]. simpl in H.
  injection H as <-. by exists ids, made.
Qed.

Lemma processTasks_total ts v :
  (∀ p c, childOf ts p c -> (p < c < length ts)%nat) ->
  is_Some (processTasks ts v).
Proof.
  intros Hlt. unfold processTasks.
  assert (∀ u, u ∈ rootRefs ts -> (u < length ts)%nat) as Hroot.
  { intros u (t & Ht & _)%rootRefs_spec. by eapply lookup_lt_Some. }
  destruct (mapM_total (collect (length ts) ts) (rootRefs ts)) as [ids ->].
  { intros u Hu%Hroot. apply collect_total; [done..|lia]. }
  destruct (mapM_total (create (length ts) v ts) (rootRefs ts)) as [made ->].
  { intros u Hu%Hroot. apply create_total; [done..|lia]. }
  done.
Qed.

Lemma dependencies_inv v allIds visible t l :
  l ∈ dependencies v allIds visible t ->
  ∃ b, b ∈ blockers t ∧ l = {| source := b; target := id t; type := dependency |}
       ∧ b ∈ allIds ∧ b ∈ visible ∧ id t ∈ visible.
Proof.
  unfold dependencies. case_match; [by intros ?%elem_of_nil|].
  intros (b & Hl & Hb)%list_elem_of_bind.
  destruct (bool_decide (b ∈ allIds)) eqn:E1; [|by apply elem_of_nil in Hl].
  destruct (bool_decide (b ∈ visible)) eqn:E2; [|by apply elem_of_nil in Hl].
  destruct (bool_decide (id t ∈ visible)) eqn:E3; [|by apply elem_of_nil in Hl].
  apply list_elem_of_singleton in Hl as ->.
  apply bool_decide_eq_true in E1, E2, E3. by exists b.
Qed.

(** The nodes of [processTasks] are copies of stored tasks that pass the
    filter. *)
Lemma processTasks_nodes_sound ts v v' n :
  processTasks ts v = Some v' -> n ∈ nodes (data v') ->
  ∃ t, t ∈ ts ∧ shown v t = true ∧ n = toNode markers t.
Proof.
  intros (ids & made & _ & Hm & ->)%processTasks_inv. simpl.
  intros (ns & Hns & Hn)%elem_of_concat.
  apply list_elem_of_fmap in Hns as ([ns' ls] & -> & Hg).
  destruct (mapM_elem_r _ _ _ _ Hm Hg) as (u & _ & Hc).
  by eapply create_nodes_sound.
Qed.

(** On a well-formed store the node of every task that passes the filter
    is pushed. *)
Lemma processTasks_nodes_complete ts v v' t :
  WfStore ts -> processTasks ts v = Some v' -> t ∈ ts -> shown v t = true ->
  toNode markers t ∈ nodes (data v').
Proof.
  intros W (ids & made & _ & Hm & ->)%processTasks_inv
    (q & Hq)%list_elem_of_lookup_1 Hs. simpl.
  destruct (reach_from_root _ _ _ W Hq) as (r & Hr & Hreach).
  destruct (mapM_elem_l _ _ _ _ Hm Hr) as ([ns ls] & Hg & Hc).
  apply elem_of_concat. exists ns. split.
  - apply list_elem_of_fmap. by exists (ns, ls).
  - by eapply create_nodes_complete.
Qed.

(** The links of [processTasks]: hierarchy links pushed by [create], then
    dependency links whose two ends are ids of nodes. *)
Lemma processTasks_links ts v v' l :
  processTasks ts v = Some v' -> l ∈ links (data v') ->
  (type l = hierarchy
   ∧ ∃ t c, t ∈ ts ∧ c ∈ ts ∧ linked v t c = true
       ∧ source l = id t ∧ target l = id c
       ∧ (tagOk v t = true -> toNode markers t ∈ nodes (data v'))
       ∧ (tagOk v c = true -> toNode markers c ∈ nodes (data v')))
  ∨ (type l = dependency
     ∧ source l ∈ (id <$> nodes (data v')) ∧ target l ∈ (id <$> nodes (data v'))
     ∧ ∃ t, t ∈ ts ∧ id t = source l).
Proof.
  intros (ids & made & Hi & Hm & ->)%processTasks_inv. simpl.
  intros [Hl|Hl]%elem_of_app.
  - left. apply elem_of_concat in Hl as (ls & Hls & Hl).
    apply list_elem_of_fmap in Hls as ([ns ls'] & -> & Hg).
    destruct (mapM_elem_r _ _ _ _ Hm Hg) as (u & _ & Hc).
    destruct (create_links _ _ _ _ _ _ _ Hc Hl)
      as (Hty & t & c & ? & ? & ? & ? & ? & H1 & H2).
    split; [done|]. exists t, c. split_and!; try done.
    all: intros Htag; apply elem_of_concat; exists ns;
      (split; [apply list_elem_of_fmap; by exists (ns, ls')|auto]).
  - right. apply list_elem_of_bind in Hl as (t & Hl & Ht).
    apply dependencies_inv in Hl as (b & _ & -> & Hall & Hb & Hid). simpl.
    apply elem_of_list_to_set in Hb, Hid. split_and!; try done.
    apply elem_of_list_to_set, elem_of_concat in Hall as (l' & Hl' & Hb').
    destruct (mapM_elem_r _ _ _ _ Hi Hl') as (u & _ & Hc).
    by eapply collect_ids.
Qed.

Lemma toNode_id M t : id (toNode M t) = id t.
Proof. done. Qed.

Lemma isBlocked_false t : isBlocked t = false <-> blockers t = [].
Proof.
  unfold isBlocked. rewrite bool_decide_eq_false.
  destruct (blockers t); simpl; split; try done; lia.
Qed.

Lemma tagOk_spec v t : tagOk v t = true <-> tagPredicate v t.
Proof.
  unfold tagOk, tagPredicate, hasTag, noTags.
  assert (size (selectedTags v) = 0%nat <-> selectedTags v = ∅) as Hsz.
  { rewrite size_empty_iff. apply leibniz_equiv_iff. }
  assert (existsb (fun tag => bool_decide (tag ∈ selectedTags v)) (tags t) = true
          <-> ∃ tag, tag ∈ tags t ∧ tag ∈ selectedTags v) as Hex.
  { rewrite existsb_exists. split; intros (tag & H1 & H2); exists tag.
    - apply bool_decide_eq_true in H2. by apply list_elem_of_In in H1.
    - split; [by apply list_elem_of_In|by apply bool_decide_eq_true]. }
  assert (bool_decide (length (tags t) = 0%nat) = true <-> tags t = []) as Hlen.
  { rewrite bool_decide_eq_true. by destruct (tags t). }
  destruct (showWithoutTags v) eqn:Esw; simpl.
  - rewrite (bool_decide_eq_false_2 (selectedTags v = ∅ ∧ true = false))
      by (intros [_ ?]; done).
    rewrite andb_false_r. simpl. rewrite orb_true_iff, andb_true_iff, Hex, Hlen.
    split.
    + intros [[_ H]|H]; [by left|by right].
    + intros [(tag & H1 & H2)|[_ H]]; [|by right]. left. split; [|by exists tag].
      apply bool_decide_eq_true. destruct (decide (size (selectedTags v) = 0%nat)) as [E|E];
        [|lia]. apply Hsz in E. rewrite E in H2. by apply not_elem_of_empty in H2.
  - rewrite andb_true_r, orb_false_r.
    destruct (decide (selectedTags v = ∅)) as [E|E].
    + rewrite (bool_decide_eq_true_2 (selectedTags v = ∅ ∧ false = false)) by done.
      rewrite (bool_decide_eq_true_2 (size (selectedTags v) = 0%nat)) by (by apply Hsz).
      done.
    + rewrite (bool_decide_eq_false_2 (selectedTags v = ∅ ∧ false = false))
        by (intros [? _]; done).
      rewrite (bool_decide_eq_false_2 (size (selectedTags v) = 0%nat)) by (by rewrite Hsz).
      simpl. rewrite andb_true_iff, Hex. split.
      * intros [_ H]. by left.
      * intros [(tag & H1 & H2)|[? _]]; [|done]. split; [|by exists tag].
        apply bool_decide_eq_true.
        destruct (decide (size (selectedTags v) = 0%nat)) as [E'|E']; [|lia].
        by apply Hsz in E'.
Qed.

(** The condition of [create] is the visibility rule of Policy A. *)
Lemma shown_spec v t : shown v t = true <-> visibleA v t.
Proof.
  unfold shown, visibleA.
  rewrite !andb_true_iff, !orb_true_iff, !negb_true_iff, tagOk_spec, isBlocked_false.
  tauto.
Qed.

End SvgProcess.

Section CanvasProcess.
Import Canvas.

Lemma linksOf_inv allIds visible t l :
  l ∈ linksOf allIds visible t ->
  source l ∈ visible ∧ target l = id t
  ∧ (type l = dependency -> source l ∈ allIds ∧ id t ∈ visible).
Proof.
  unfold linksOf. intros [Hl|Hl]%elem_of_app.
  - destruct (parent t) as [p|]; [|by apply elem_of_nil in Hl].
    destruct (truthy (Some p)); [|by apply elem_of_nil in Hl]. simpl in Hl.
    destruct (bool_decide (p ∈ visible)) eqn:E; [|by apply elem_of_nil in Hl].
    apply list_elem_of_singleton in Hl as ->. apply bool_decide_eq_true in E. done.
  - apply list_elem_of_bind in Hl as (b & Hl & Hb).
    destruct (bool_decide (b ∈ allIds)) eqn:E1; [|by apply elem_of_nil in Hl].
    destruct (bool_decide (b ∈ visible)) eqn:E2; [|by apply elem_of_nil in Hl].
    destruct (bool_decide (id t ∈ visible)) eqn:E3; [|by apply elem_of_nil in Hl].
    apply list_elem_of_singleton in Hl as ->.
    apply bool_decide_eq_true in E1, E2, E3. done.
Qed.

Lemma wantBlockIds_spec ts x :
  x ∈ wantBlockIds ts
  <-> ∃ w, w ∈ ts ∧ wantTag ∈ tags w ∧ blockId w = Some x ∧ x ≠ [].
Proof.
  unfold wantBlockIds. rewrite elem_of_list_to_set, list_elem_of_omap. split.
  - intros (w & [Hw Hin]%list_elem_of_filter & Hb). exists w.
    unfold wanted in Hw. apply bool_decide_unpack in Hw.
    destruct (blockId w) as [[|c s]|]; simpl in Hb; try done.
    injection Hb as <-. done.
  - intros (w & Hin & Hw & Hb & Hx). exists w. split.
    + apply list_elem_of_filter. split; [|done]. by apply bool_decide_pack.
    + rewrite Hb. by destruct x.
Qed.

Lemma linksToWanted_spec ts t :
  linksToWanted (wantBlockIds ts) t = true <-> refersToPinned sliceRefers ts t.
Proof.
  unfold linksToWanted, refersToPinned, sliceRefers. destruct (outlinks t) as [ls|].
  - rewrite existsb_exists. split.
    + intros (sp & Hin & Hsp). apply bool_decide_eq_true, wantBlockIds_spec in Hsp
        as (w & ? & ? & ? & ?).
      exists ls, sp, w, (JS.slice1 sp). split_and!; try done. by apply list_elem_of_In.
    + intros (ls' & sp & w & b & [= <-] & Hin & ? & ? & ? & ? & <-). exists sp. split.
      * by apply list_elem_of_In.
      * apply bool_decide_eq_true, wantBlockIds_spec. by exists w.
  - split; [done|]. by intros (ls' & sp & w & b & ? & _).
Qed.

(** The filter of [processTasks]: some task with the same id carries the
    pinned tag or links to a pinned task. *)
Lemma filtered_spec ts t :
  bool_decide (id t ∈ (list_to_set (id <$> filter wanted ts) : gset jsstring))
  || bool_decide (id t ∈ (list_to_set
        (id <$> filter (linksToWanted (wantBlockIds ts)) ts) : gset jsstring)) = true
  <-> ∃ u, u ∈ ts ∧ id u = id t ∧ includedBySpec sliceRefers ts u.
Proof.
  rewrite orb_true_iff, !bool_decide_eq_true, !elem_of_list_to_set, !list_elem_of_fmap.
  unfold includedBySpec. split.
  - intros [(u & Hid & [Hw Hin]%list_elem_of_filter)|(u & Hid & [Hw Hin]%list_elem_of_filter)];
      exists u; split_and!; try done.
    + left. by apply bool_decide_unpack in Hw.
    + right. apply linksToWanted_spec. by destruct (linksToWanted _ u).
  - intros (u & Hin & Hid & [Hw|Hr]); [left|right]; exists u; (split; [done|]);
      apply list_elem_of_filter; (split; [|done]).
    + by apply bool_decide_pack.
    + apply linksToWanted_spec in Hr. by rewrite Hr.
Qed.

Lemma canvas_nodes ts v :
  nodes (data (processTasks ts v))
  = toNode markers <$> filter (fun t =>
      bool_decide (id t ∈ (list_to_set (id <$> filter wanted ts) : gset jsstring))
      || bool_decide (id t ∈ (list_to_set
           (id <$> filter (linksToWanted (wantBlockIds ts)) ts) : gset jsstring))) ts.
Proof. done. Qed.

Lemma canvas_nodes_from_tasks ts v n :
  n ∈ nodes (data (processTasks ts v)) -> ∃ t, t ∈ ts ∧ n = toNode markers t.
Proof.
  rewrite canvas_nodes. intros (t & -> & [_ Hin]%list_elem_of_filter)%list_elem_of_fmap.
  by exists t.
Qed.

Lemma canvas_links ts v l :
  l ∈ links (data (processTasks ts v)) ->
  source l ∈ (id <$> nodes (data (processTasks ts v)))
  ∧ target l ∈ (id <$> nodes (data (processTasks ts v)))
  ∧ (type l = dependency -> ∃ t, t ∈ ts ∧ id t = source l).
Proof.
  rewrite canvas_nodes. unfold processTasks. simpl.
  intros (t & Hl & Ht)%list_elem_of_bind.
  apply linksOf_inv in Hl as (Hs & Htg & Hdep).
  apply elem_of_list_to_set in Hs. split_and!; [done| |].
  - rewrite Htg. apply list_elem_of_fmap. exists (toNode markers t). split; [done|].
    apply list_elem_of_fmap. by exists t.
  - intros [Hall _]%Hdep. apply elem_of_list_to_set, list_elem_of_fmap in Hall
      as (u & ? & ?). by exists u.
Qed.

End CanvasProcess.

Section DerivedIds.
Import JS.

Lemma split_at_last (x : N) a a' b b' :
  x ∉ b -> x ∉ b' -> a ++ x :: b = a' ++ x :: b' -> a = a' ∧ b = b'.
Proof.
  intros Hb Hb'. revert a'. induction a as [|y a IH]; intros [|y' a']; simpl.
  - by intros [= ->].
  - intros [= <- ->]. exfalso. apply Hb. apply elem_of_app. right. apply list_elem_of_here.
  - intros [= -> <-]. exfalso. apply Hb'. apply elem_of_app. right. apply list_elem_of_here.
  - intros [= -> H]. destruct (IH _ H) as [-> ->]. done.
Qed.

Lemma digits_no_dash d : 0x2D ∉ digits d.
Proof.
  induction d; simpl; [by intros ?%elem_of_nil|..];
    intros [?|?]%elem_of_cons; done.
Qed.

Lemma digits_inj d d' : digits d = digits d' -> d = d'.
Proof.
  revert d'. induction d; intros []; simpl; intros H; try done;
    injection H as H; f_equal; auto.
Qed.

(** Ids derived from distinct places are distinct. *)
Lemma derivedId_inj p i p' i' : derivedId p i = derivedId p' i' -> p = p' ∧ i = i'.
Proof.
  unfold derivedId. intros H%app_inv_head.
  change (utf16 "-") with [0x2D] in H. simpl in H.
  apply split_at_last in H as [-> H]; try apply digits_no_dash.
  split; [done|]. by apply Unsigned.to_uint_inj, digits_inj.
Qed.

End DerivedIds.

Section Places.
Variable toLowerCase : jsstring -> jsstring.
Variable F : Flavor.

Lemma locs_alter n p ts : locs (alter (push_child n) p ts) = locs ts.
Proof.
  unfold locs. revert p. induction ts as [|t ts IH]; intros [|p]; simpl; try done.
  f_equal. apply IH.
Qed.

Lemma scanLine_locs f st i ln :
  locs (tasks (scanLine toLowerCase F f st i ln)) = locs (tasks st)
  ∨ locs (tasks (scanLine toLowerCase F f st i ln)) = locs (tasks st) ++ [(path f, i)].
Proof.
  destruct (scanLine_cases toLowerCase F f st i ln) as [->|(ind & t & E & _ & _ & Et)];
    [by left|].
  right. apply extract_fields in E as (_ & _ & _ & Hf & Hl & _).
  destruct Et as [->|(p & pi & rest & top & _ & _ & ->)]; unfold locs in *;
    rewrite fmap_app; simpl; rewrite Hf, Hl; [done|].
  f_equal. apply locs_alter.
Qed.

Lemma scanLine_places (seen : list jsstring) f st i ln :
  path f ∉ seen ->
  PlaceInv seen (path f) i (tasks st) ->
  PlaceInv seen (path f) (S i) (tasks (scanLine toLowerCase F f st i ln)).
Proof.
  intros Hf [Hnd Hall].
  assert (Forall (fun l : jsstring * nat =>
                    l.1 ∈ seen ∨ (l.1 = path f ∧ (l.2 < S i)%nat)) (locs (tasks st))) as Hall'.
  { eapply Forall_impl; [done|]. intros l [?|[? ?]]; [by left|right; split; [done|lia]]. }
  unfold PlaceInv. destruct (scanLine_locs f st i ln) as [->| ->]; [by split|]. split.
  - apply NoDup_app. split_and!; [done| |apply NoDup_singleton].
    intros l Hl ->%list_elem_of_singleton.
    eapply Forall_forall in Hall; [|done]. simpl in Hall.
    destruct Hall as [?|[_ ?]]; [done|lia].
  - apply Forall_app. split; [done|]. constructor; [|done]. right. simpl. split; [done|lia].
Qed.

Lemma scanLines_places (seen : list jsstring) f i lns st :
  path f ∉ seen ->
  PlaceInv seen (path f) i (tasks st) ->
  PlaceInv seen (path f) (i + length lns) (tasks (scanLines toLowerCase F f i lns st)).
Proof.
  intros Hf. revert i st. induction lns as [|ln lns IH]; intros i st H; simpl.
  - by rewrite Nat.add_0_r.
  - replace (i + S (length lns))%nat with (S i + length lns)%nat by lia.
    apply IH. by apply scanLine_places.
Qed.

Lemma scanFiles_places (seen : list jsstring) files st :
  NoDup (path <$> files) ->
  (∀ f, f ∈ files -> path f ∉ seen) ->
  NoDup (locs (tasks st)) -> Forall (fun l => l.1 ∈ seen) (locs (tasks st)) ->
  NoDup (locs (tasks (scanFiles toLowerCase F files st))).
Proof.
  revert seen st. induction files as [|f files IH]; intros seen st Hnd Hnew H1 H2; simpl;
    [done|].
  destruct (limitReached F (tasks st)); [done|].
  apply NoDup_cons in Hnd as [Hf Hnd].
  assert (path f ∉ seen) as Hfs by (apply Hnew, list_elem_of_here).
  destruct (scanLines_places seen f 0 (JS.split 10 (content f))
              {| tasks := tasks st; seenTags := seenTags st; stack := [] |} Hfs)
    as [H1' H2'].
  { split; [done|]. eapply Forall_impl; [done|]. intros; by left. }
  apply (IH (path f :: seen)); try done.
  - intros f' Hf' [E|?]%elem_of_cons.
    + apply Hf. rewrite <- E. apply list_elem_of_fmap. by exists f'.
    + eapply Hnew; [|done]. by apply list_elem_of_further.
  - eapply Forall_impl; [done|]. intros l [?|[-> _]];
      [by apply list_elem_of_further|apply list_elem_of_here].
Qed.

(** Distinct tasks of a scan over files with distinct paths are at
    distinct places. *)
Lemma scanVault_places files :
  NoDup (path <$> files) -> NoDup (locs (tasks (scanVault toLowerCase F files))).
Proof.
  intros H. apply (scanFiles_places []); try done; try constructor.
  intros f _ ?%elem_of_nil. done.
Qed.

(** A line adds at most one task, and none once the limit is reached. *)
Lemma scanLine_length f st i ln :
  scanLine toLowerCase F f st i ln = st
  ∨ (limitReached F (tasks st) = false
     ∧ length (tasks (scanLine toLowerCase F f st i ln)) = S (length (tasks st))).
Proof.
  destruct (scanLine_cases toLowerCase F f st i ln) as [->|(ind & t & _ & El & _ & Et)];
    [by left|].
  right. split; [done|].
  destruct Et as [->|(p & pi & rest & top & _ & _ & ->)];
    rewrite length_app, ?length_alter; simpl; lia.
Qed.

Lemma limitReached_false l ts :
  limit F = Some l -> limitReached F ts = false -> (Z.of_nat (length ts) < l)%Z.
Proof.
  unfold limitReached. intros ->. rewrite bool_decide_eq_false. lia.
Qed.

Lemma scanLines_bound l f i lns st :
  limit F = Some l ->
  (Z.of_nat (length (tasks st)) ≤ Z.max 0 l)%Z ->
  (Z.of_nat (length (tasks (scanLines toLowerCase F f i lns st))) ≤ Z.max 0 l)%Z.
Proof.
  intros Hl. revert i st. induction lns as [|ln lns IH]; intros i st H; simpl; [done|].
  apply IH. destruct (scanLine_length f st i ln) as [->|[Hr ->]]; [done|].
  apply (limitReached_false l) in Hr; [lia|done].
Qed.

Lemma scanFiles_bound l files st :
  limit F = Some l ->
  (Z.of_nat (length (tasks st)) ≤ Z.max 0 l)%Z ->
  (Z.of_nat (length (tasks (scanFiles toLowerCase F files st))) ≤ Z.max 0 l)%Z.
Proof.
  intros Hl. revert st. induction files as [|f files IH]; intros st H; simpl; [done|].
  destruct (limitReached F (tasks st)); [done|].
  apply IH. by apply scanLines_bound.
Qed.

Lemma scanLines_stop f i lns st :
  limitReached F (tasks st) = true -> scanLines toLowerCase F f i lns st = st.
Proof.
  intros H. revert i. induction lns as [|ln lns IH]; intros i; simpl; [done|].
  unfold scanLine at 1. rewrite H. apply IH.
Qed.

End Places.

(** ** C1: referential integrity *)

Section ReferentialIntegrity.
Import JS Sample.

Lemma validLinks_integrity g :
  integrity {| nodes := nodes g; links := validLinks g |}.
Proof.
  intros l [Hl _]%list_elem_of_filter. simpl in *.
  apply Is_true_true, andb_true_iff in Hl as [H1 H2].
  apply existsb_exists in H1 as (n1 & Hn1 & E1), H2 as (n2 & Hn2 & E2).
  apply bool_decide_eq_true in E1, E2. apply list_elem_of_In in Hn1, Hn2.
  split; apply list_elem_of_fmap; eauto.
Qed.

(** The scan of the SVG view followed by its assembly always gives a view. *)
Lemma collectTasks_total (toLowerCase : jsstring -> jsstring) vault v :
  is_Some (Svg.collectTasks toLowerCase vault v).
Proof.
  unfold Svg.collectTasks. apply processTasks_total.
  apply (wf_lt _ (scanVault_wf toLowerCase Svg.flavor vault)).
Qed.

(** C1, as stated, fails for Policy A: with the tag [#x] selected, the
    SVG view pushes the hierarchy link from the tagged task to its untagged
    subtask, whose node is filtered out. *)
Lemma C1_policyA_dangling_link :
  ∃ v', Svg.collectTasks asciiLower [notes] viewX = Some v' ∧ ¬ integrity (data v').
Proof.
  destruct (collectTasks_total asciiLower [notes] viewX) as [v' Hv'].
  exists v'. split; [done|]. intros Hint.
  vm_compute in Hv'. injection Hv' as <-.
  destruct (Hint {| source := utf16 "task-notes.md-0"; target := utf16 "task-notes.md-1";
                    type := hierarchy |}) as [_ Ht].
  - apply list_elem_of_here.
  - simpl in Ht. apply list_elem_of_singleton in Ht. discriminate Ht.
Qed.

(** C1 (amended): referential integrity of the assembled graph.  Policy B
    (canvas view): every link pushed by [processTasks] joins two emitted
    nodes.  Policy A (SVG view): the same holds for the links that
    [renderGraph] keeps ([validLinks]), for every dependency link pushed by
    [processTasks], and for all links when no tag filter is active; and the
    assembly after a scan always gives a result. *)
Theorem C1_integrity_amended (ts : list Task) (v v' : View) :
  Svg.processTasks ts v = Some v' ->
  integrity (data (Canvas.processTasks ts v))
  ∧ integrity {| nodes := nodes (data v'); links := validLinks (data v') |}
  ∧ (∀ l, l ∈ links (data v') -> type l = dependency ->
       source l ∈ (id <$> nodes (data v')) ∧ target l ∈ (id <$> nodes (data v')))
  ∧ (selectedTags v = ∅ -> showWithoutTags v = false -> integrity (data v'))
  ∧ (∀ toLowerCase vault v0, is_Some (Svg.collectTasks toLowerCase vault v0)).
Proof.
  intros H. split_and!.
  - intros l Hl. destruct (canvas_links _ _ _ Hl) as (? & ? & _). done.
  - apply validLinks_integrity.
  - intros l Hl Hty.
    destruct (processTasks_links _ _ _ _ H Hl) as [[Hh _]|(_ & ? & ? & _)]; [|done].
    congruence.
  - intros Hsel Hsw l Hl.
    destruct (processTasks_links _ _ _ _ H Hl)
      as [(_ & t & c & _ & _ & _ & -> & -> & Ht & Hc)|(_ & ? & ? & _)]; [|done].
    assert (∀ u, Svg.tagOk v u = true) as Htag.
    { intros u. apply tagOk_spec. unfold tagPredicate.
      by rewrite bool_decide_eq_true_2. }
    split; apply list_elem_of_fmap;
      [exists (toNode Svg.markers t)|exists (toNode Svg.markers c)]; (split; [done|auto]).
  - apply collectTasks_total.
Qed.

Lemma C1_integrity_amended_witness :
  let ts := tasks (scanVault asciiLower Svg.flavor [notes]) in
  ∃ v', Svg.processTasks ts view0 = Some v'
    ∧ integrity (data (Canvas.processTasks ts view0))
    ∧ integrity {| nodes := nodes (data v'); links := validLinks (data v') |}
    ∧ selectedTags view0 = ∅ ∧ showWithoutTags view0 = false
    ∧ integrity (data v').
Proof.
  intros ts.
  assert (is_Some (Svg.processTasks ts view0)) as [v' H].
  { apply processTasks_total.
    apply (wf_lt _ (scanVault_wf asciiLower Svg.flavor [notes])). }
  destruct (C1_integrity_amended ts view0 v' H) as (H1 & H2 & _ & H4 & _).
  exists v'. split_and!; [exact H|exact H1|exact H2|reflexivity|reflexivity|].
  apply H4; reflexivity.
Defined.

End ReferentialIntegrity.

(** ** C2: visibility under Policy A *)

Section Visibility.
Import JS Sample.

(** C2: after a scan, the SVG view emits the node of a task exactly when
    the task is visible under Policy A: completed tasks need
    [showCompleted], blocked tasks need [showBlocked], and the tag predicate
    must hold. *)
Theorem C2_policyA_visibility (toLowerCase : jsstring -> jsstring)
    (vault : list File) (v : View) (t : Task) :
  t ∈ tasks (scanVault toLowerCase Svg.flavor vault) ->
  ∃ v', Svg.collectTasks toLowerCase vault v = Some v'
        ∧ (toNode Svg.markers t ∈ nodes (data v') <-> visibleA v t).
Proof.
  intros Ht. destruct (collectTasks_total toLowerCase vault v) as [v' H].
  exists v'. split; [done|].
  unfold Svg.collectTasks in H. set (v0 := set_allTags _ v) in H.
  assert (∀ u, Svg.shown v0 u = Svg.shown v u) as Hsh by done.
  rewrite <- shown_spec, <- Hsh. split.
  - intros (u & _ & Hs & E)%(processTasks_nodes_sound _ _ _ _ H).
    assert (completed t = completed u) as Ec by (by apply (f_equal completed) in E).
    assert (blockers t = blockers u) as Eb by (by apply (f_equal blockers) in E).
    assert (tags t = tags u) as Et by (by apply (f_equal tags) in E).
    unfold Svg.shown, Svg.isBlocked, Svg.tagOk, Svg.hasTag, Svg.noTags in *.
    by rewrite Ec, Eb, Et.
  - intros Hs. eapply processTasks_nodes_complete; try done. apply scanVault_wf.
Qed.

Lemma C2_policyA_visibility_witness :
  ∃ t v',
    tasks (scanVault asciiLower Svg.flavor [notes]) !! 1%nat = Some t
    ∧ Svg.collectTasks asciiLower [notes] viewX = Some v'
    ∧ (toNode Svg.markers t ∈ nodes (data v') <-> visibleA viewX t).
Proof.
  destruct (tasks (scanVault asciiLower Svg.flavor [notes]) !! 1%nat) as [t|] eqn:E;
    [|vm_compute in E; discriminate E].
  assert (t ∈ tasks (scanVault asciiLower Svg.flavor [notes])) as Ht.
  { eapply list_elem_of_lookup_2. exact E. }
  destruct (C2_policyA_visibility asciiLower [notes] viewX t Ht) as (v' & Hv' & Hiff).
  exists t, v'. split_and!; [reflexivity|exact Hv'|exact Hiff].
Defined.

End Visibility.

(** ** C3: the hierarchy is a forest *)

Section Hierarchy.
Import JS Sample.

Lemma descendant_later ts a b :
  WfStore ts -> tc (childOf ts) a b -> (a < b)%nat.
Proof.
  intros W. induction 1 as [a b H|a b c H _ IH].
  - apply (wf_lt _ W) in H. lia.
  - apply (wf_lt _ W) in H. lia.
Qed.

(** C3: in the store that a scan leaves, in either view, a task without
    [parent] has depth 0 and is in no [children] array; a task with a
    [parent] is in the [children] of exactly one task, stored before it,
    whose id is its [parent] and whose depth is one less; and no task is its
    own descendant. *)
Theorem C3_hierarchy_tree (toLowerCase : jsstring -> jsstring) (F : Flavor)
    (vault : list File) (c : nat) (tsk : Task) :
  let ts := tasks (scanVault toLowerCase F vault) in
  ts !! c = Some tsk ->
  match parent tsk with
  | None => depth tsk = 0%nat ∧ ∀ p, ¬ childOf ts p c
  | Some pid =>
    ∃ p tp, ts !! p = Some tp ∧ c ∈ children tp ∧ (p < c)%nat
            ∧ pid = id tp ∧ depth tsk = (depth tp + 1)%nat
            ∧ ∀ p', childOf ts p' c -> p' = p
  end
  ∧ ¬ tc (childOf ts) c c.
Proof.
  intros ts Hc. pose proof (scanVault_wf toLowerCase F vault) as W. fold ts in W.
  split.
  - destruct (parent tsk) as [pid|] eqn:Ep.
    + assert (parent tsk ≠ None) as Hne by (by rewrite Ep).
      destruct (wf_par _ W _ _ Hc Hne) as (p & Hpc).
      pose proof (wf_lt _ W _ _ Hpc) as Hlt.
      pose proof Hpc as (tp & Hp & Hin).
      destruct (wf_link _ W _ _ _ _ Hp Hin Hc) as [Hpar Hd].
      exists p, tp. split_and!; try done; try lia.
      * congruence.
      * intros p' Hp'. by eapply (wf_uniq _ W).
    + split; [by eapply (wf_root _ W)|].
      intros p (tp & Hp & Hin).
      destruct (wf_link _ W _ _ _ _ Hp Hin Hc) as [Hpar _]. congruence.
  - intros H%descendant_later; [lia|done].
Qed.

Lemma C3_hierarchy_tree_witness :
  let ts := tasks (scanVault asciiLower Svg.flavor [notes]) in
  ∃ tsk,
    ts !! 1%nat = Some tsk
    ∧ match parent tsk with
      | None => depth tsk = 0%nat ∧ ∀ p, ¬ childOf ts p 1%nat
      | Some pid =>
        ∃ p tp, ts !! p = Some tp ∧ 1%nat ∈ children tp ∧ (p < 1)%nat
                ∧ pid = id tp ∧ depth tsk = (depth tp + 1)%nat
                ∧ ∀ p', childOf ts p' 1%nat -> p' = p
      end
    ∧ ¬ tc (childOf ts) 1%nat 1%nat.
Proof.
  intros ts.
  destruct (ts !! 1%nat) as [tsk|] eqn:E; [|vm_compute in E; discriminate E].
  exists tsk. split; [reflexivity|].
  exact (C3_hierarchy_tree asciiLower Svg.flavor [notes] 1%nat tsk E).
Defined.

End Hierarchy.

(** ** C4: extraction on a sample line *)

Section Extraction.
Import JS.

(** C4: on the line [- [ ] Buy milk #errand 🆔 t1] the extractor of the
    canvas view gives an open task with text [Buy milk], the single tag
    [#errand] and the id [t1], whatever the file, the line number and the
    task limit, for every lower-casing that leaves [#errand] as it is. *)
Theorem C4_extract_buy_milk (toLowerCase : jsstring -> jsstring) (lim : Z) (f : File) (i : nat) :
  toLowerCase (utf16 "#errand") = utf16 "#errand" ->
  ∃ t, extract toLowerCase (Canvas.flavor lim) f i (utf16 "- [ ] Buy milk #errand 🆔 t1")
         = Some (0%nat, t)
       ∧ completed t = false
       ∧ text t = utf16 "Buy milk"
       ∧ tags t = [utf16 "#errand"]
       ∧ id t = utf16 "t1".
Proof.
  intros Hlow. vm_compute in Hlow.
  vm_compute. rewrite Hlow.
  eexists. split; [reflexivity|]. done.
Qed.

Lemma C4_extract_buy_milk_witness :
  asciiLower (utf16 "#errand") = utf16 "#errand"
  ∧ ∃ t, extract asciiLower (Canvas.flavor 500)
           {| path := utf16 "shopping.md"; content := []; cache := None |} 0
           (utf16 "- [ ] Buy milk #errand 🆔 t1") = Some (0%nat, t)
         ∧ completed t = false
         ∧ text t = utf16 "Buy milk"
         ∧ tags t = [utf16 "#errand"]
         ∧ id t = utf16 "t1".
Proof.
  split; [reflexivity|].
  apply (C4_extract_buy_milk asciiLower 500 _ 0%nat). reflexivity.
Defined.

End Extraction.

(** ** C6: dangling blocker references *)

Section Dangling.
Import JS Sample.

(** C6: a blocker id that no task has is the source of no link, in either
    view; the node of the blocked task still lists it; and the scan
    followed by the assembly always gives a result (in the canvas view the
    two are total functions; in the SVG view the recursion over [children]
    ends on every store that a scan builds). *)
Theorem C6_dangling_blocker (ts : list Task) (v v' : View) (t : Task) (b : jsstring) :
  t ∈ ts -> b ∈ blockers t -> (∀ u, u ∈ ts -> id u ≠ b) ->
  Svg.processTasks ts v = Some v' ->
  (∀ l, l ∈ links (data v') -> source l ≠ b)
  ∧ (∀ l, l ∈ links (data (Canvas.processTasks ts v)) -> source l ≠ b)
  ∧ b ∈ blockers (toNode Svg.markers t)
  ∧ b ∈ blockers (toNode Canvas.markers t)
  ∧ (∀ toLowerCase vault v0, is_Some (Svg.collectTasks toLowerCase vault v0)).
Proof.
  intros Ht Hb Hno H. split_and!; try done.
  - intros l Hl.
    destruct (processTasks_links _ _ _ _ H Hl)
      as [(_ & u & c & Hu & _ & _ & -> & _)|(_ & _ & _ & u & Hu & <-)]; by apply Hno.
  - intros l Hl. destruct (canvas_links _ _ _ Hl) as ((n & -> & Hn)%list_elem_of_fmap & _).
    apply canvas_nodes_from_tasks in Hn as (u & Hu & ->). exact (Hno u Hu).
  - apply collectTasks_total.
Qed.

Lemma C6_dangling_blocker_witness :
  let ts := tasks (scanVault asciiLower (Canvas.flavor 500) [blocked Canvas.markers]) in
  ∃ t v',
    ts !! 1%nat = Some t
    ∧ utf16 "ghost" ∈ blockers t
    ∧ Forall (fun u => id u ≠ utf16 "ghost") ts
    ∧ Svg.processTasks ts view0 = Some v'
    ∧ (∀ l, l ∈ links (data v') -> source l ≠ utf16 "ghost")
    ∧ (∀ l, l ∈ links (data (Canvas.processTasks ts view0)) -> source l ≠ utf16 "ghost")
    ∧ utf16 "ghost" ∈ blockers (toNode Canvas.markers t).
Proof.
  intros ts.
  destruct (ts !! 1%nat) as [t|] eqn:E; [|vm_compute in E; discriminate E].
  assert (is_Some (Svg.processTasks ts view0)) as [v' Hv'].
  { apply processTasks_total.
    apply (wf_lt _ (scanVault_wf asciiLower (Canvas.flavor 500) [blocked Canvas.markers])). }
  assert (t ∈ ts) as Ht by (eapply list_elem_of_lookup_2; exact E).
  assert (utf16 "ghost" ∈ blockers t) as Hb.
  { vm_compute in E. injection E as <-. apply list_elem_of_here. }
  assert (Forall (fun u => id u ≠ utf16 "ghost") ts) as Hall.
  { vm_compute. repeat constructor; discriminate. }
  destruct (C6_dangling_blocker ts view0 v' t (utf16 "ghost") Ht Hb
              (proj1 (Forall_forall _ _) Hall) Hv') as (H1 & H2 & _ & H4 & _).
  exists t, v'. split_and!; try done.
Defined.

End Dangling.

(** ** C7: the task limit *)

Section Limit.
Import JS Sample.

(** C7: the canvas view never collects more tasks than its limit (none
    when the limit is negative); a line, the rest of a file or a list of
    files scanned when the limit is reached leaves the scan as it is; and
    the scan changes nothing in the view but [data] and [allTags]: no error
    or warning is recorded. *)
Theorem C7_task_limit (toLowerCase : jsstring -> jsstring) (lim : Z)
    (vault files : list File) (v : View) (f : File) (st : Scan) (i : nat)
    (ln : jsstring) (lns : list jsstring) :
  (lim ≤ Z.of_nat (length (tasks st)))%Z ->
  (Z.of_nat (length (tasks (scanVault toLowerCase (Canvas.flavor lim) vault))) ≤ Z.max 0 lim)%Z
  ∧ scanLine toLowerCase (Canvas.flavor lim) f st i ln = st
  ∧ scanLines toLowerCase (Canvas.flavor lim) f i lns st = st
  ∧ scanFiles toLowerCase (Canvas.flavor lim) files st = st
  ∧ set_allTags (allTags v) (set_data (data v) (Canvas.collectTasks toLowerCase vault v)) = v.
Proof.
  intros Hst. split_and!.
  - apply (scanFiles_bound toLowerCase (Canvas.flavor lim) lim vault
             {| tasks := []; seenTags := ∅; stack := [] |} eq_refl).
    simpl. lia.
  - unfold scanLine, limitReached. simpl. by rewrite bool_decide_eq_true_2.
  - apply scanLines_stop. unfold limitReached. simpl. by rewrite bool_decide_eq_true_2.
  - destruct files as [|f' files]; [done|]. simpl. unfold limitReached. simpl.
    by rewrite bool_decide_eq_true_2.
  - by destruct v.
Qed.

Lemma C7_task_limit_witness :
  let st := scanVault asciiLower (Canvas.flavor 2) [notes] in
  (2 ≤ Z.of_nat (length (tasks st)))%Z
  ∧ (Z.of_nat (length (tasks st)) ≤ Z.max 0 2)%Z
  ∧ scanLine asciiLower (Canvas.flavor 2) notes st 7 (utf16 "- [ ] late") = st.
Proof.
  intros st.
  assert (2 ≤ Z.of_nat (length (tasks st)))%Z as H1 by (vm_compute; discriminate).
  destruct (C7_task_limit asciiLower 2 [notes] [] view0 notes st 7 (utf16 "- [ ] late") []
              H1) as (H2 & H3 & _).
  split_and!; [exact H1|exact H2|exact H3].
Defined.

End Limit.

(** ** C8: which button pans *)

Section Zoom.
Import Sample.

(** The filter of the SVG view lets the zoom behaviour react to wheel
    events and to presses of button 2 only. *)
Lemma svg_zoomFilter_spec e :
  Svg.zoomFilter e = true
  <-> ev_type e = "wheel"%string ∨ (ev_type e = "mousedown"%string ∧ button e = 2%Z).
Proof.
  unfold Svg.zoomFilter.
  destruct (String.eqb_spec (ev_type e) "wheel"); [by split; [left|]|].
  destruct (String.eqb_spec (ev_type e) "mousedown"); simpl.
  - case_bool_decide; split; try done; [by right|by intros [?|[_ ?]]].
  - split; [done|]. by intros [?|[? _]].
Qed.

(** C8 fails in the canvas view: its zoom behaviour has no filter of its
    own, so it reacts to a press of the primary button and not to a press
    of button 2; the SVG view rejects the primary button. *)
Theorem C8_canvas_pans_on_primary_button :
  Canvas.zoomFilter primaryDown = true
  ∧ Canvas.zoomFilter secondaryDown = false
  ∧ Svg.zoomFilter primaryDown = false
  ∧ Svg.zoomFilter secondaryDown = true.
Proof. done. Qed.

End Zoom.

(** ** C9: the SVG assembler is idempotent *)

Section Determinism.
Import Svg.

Lemma mapM_ext {A B} (f g : A -> option B) l :
  (∀ x, f x = g x) -> mapM f l = mapM g l.
Proof. intros H. induction l as [|x l IH]; simpl; [done|]. by rewrite H, IH. Qed.

Variables v1 v2 : View.
Hypothesis Hsc : showCompleted v1 = showCompleted v2.
Hypothesis Hsb : showBlocked v1 = showBlocked v2.
Hypothesis Hsw : showWithoutTags v1 = showWithoutTags v2.
Hypothesis Hsel : selectedTags v1 = selectedTags v2.

Lemma create_toggles fuel ts u : create fuel v1 ts u = create fuel v2 ts u.
Proof.
  revert u. induction fuel as [|n IH]; intros u; simpl; [done|].
  destruct (ts !! u) as [t|]; simpl; [|done].
  rewrite (mapM_ext (visit (create n v1 ts) v1 ts t) (visit (create n v2 ts) v2 ts t)).
  - unfold shown, tagOk, hasTag, noTags. by rewrite Hsc, Hsb, Hsw, Hsel.
  - intros c. unfold visit, linked. by rewrite IH, Hsc, Hsb.
Qed.

(** The graph that [processTasks] builds depends on the tasks and on the
    four filter settings only. *)
Lemma processTasks_toggles ts :
  processTasks ts v2 = (fun w => set_data (data w) v2) <$> processTasks ts v1.
Proof.
  unfold processTasks.
  destruct (mapM (collect _ _) _) as [ids|]; simpl; [|done].
  rewrite (mapM_ext (create (length ts) v1 ts) (create (length ts) v2 ts))
    by (intros; apply create_toggles).
  destruct (mapM (create _ _ _) _) as [made|]; simpl; [|done].
  unfold dependencies. by rewrite Hsb.
Qed.

End Determinism.

Section Idempotence.

(** C9: running the assembler of the SVG view again on the view it left
    gives the same view, and two views with the same [showCompleted],
    [showBlocked], [showWithoutTags] and [selectedTags] get the same nodes
    and links in the same order, whatever their other fields. *)
Theorem C9_policyA_idempotent (ts : list Task) (v : View)
    (g : Graph) (live dates : bool) (all : gset jsstring) (lim : Z) :
  Svg.processTasks ts v ≫= Svg.processTasks ts = Svg.processTasks ts v
  ∧ data <$> Svg.processTasks ts
               {| data := g; showCompleted := showCompleted v;
                  showBlocked := showBlocked v; liveUpdate := live;
                  showWithoutTags := showWithoutTags v; useDates := dates;
                  allTags := all; selectedTags := selectedTags v; taskLimit := lim |}
    = data <$> Svg.processTasks ts v.
Proof.
  split.
  - destruct (Svg.processTasks ts v) as [v'|] eqn:E; [|done]. simpl.
    rewrite (processTasks_toggles v v') by
      (apply processTasks_inv in E as (? & ? & _ & _ & ->); done).
    rewrite E. simpl. f_equal.
    apply processTasks_inv in E as (? & ? & _ & _ & ->). done.
  - rewrite (processTasks_toggles v) by done.
    by destruct (Svg.processTasks ts v).
Qed.

End Idempotence.

(** ** C10: the canvas assembler ignores the filter settings *)

Section PolicyB.
Import JS Sample.

(** The node of a stored task is emitted exactly when a task with its id
    is included. *)
Lemma canvas_node_by_id ts v t :
  t ∈ ts ->
  toNode Canvas.markers t ∈ nodes (data (Canvas.processTasks ts v))
  <-> ∃ u, u ∈ ts ∧ id u = id t ∧ includedBySpec sliceRefers ts u.
Proof.
  intros Ht. rewrite canvas_nodes, list_elem_of_fmap, <- filtered_spec. split.
  - intros (t' & E & [Hp _]%list_elem_of_filter).
    apply Is_true_true in Hp. by rewrite <- (toNode_id Canvas.markers t), E.
  - intros Hp. exists t. split; [done|]. apply list_elem_of_filter.
    split; [by apply Is_true_true|done].
Qed.

(** C10, as stated, fails: a task that neither carries [#want] nor has any
    outlink is emitted when it shares its id with a task that carries
    [#want], whatever "references" is read to mean. *)
Lemma C10_shared_id_included :
  let ts := tasks (scanVault asciiLower (Canvas.flavor 500) [pinnedTwin Canvas.markers]) in
  ∃ t, ts !! 1%nat = Some t
       ∧ (Canvas.wantTag ∉ tags t) ∧ outlinks t = None
       ∧ (∀ refers, ¬ includedBySpec refers ts t)
       ∧ toNode Canvas.markers t ∈ nodes (data (Canvas.processTasks ts view0)).
Proof.
  intros ts.
  destruct (ts !! 0%nat) as [u|] eqn:E0; [|vm_compute in E0; discriminate E0].
  destruct (ts !! 1%nat) as [t|] eqn:E1; [|vm_compute in E1; discriminate E1].
  assert (tags u = [Canvas.wantTag] ∧ id u = utf16 "t1") as [Hu Hidu].
  { vm_compute in E0. injection E0 as <-. by split. }
  assert (tags t = [] ∧ outlinks t = None ∧ id t = utf16 "t1") as (Htags & Hout & Hid).
  { vm_compute in E1. injection E1 as <-. by split_and!. }
  exists t. split_and!; [done| |done| |].
  - rewrite Htags. apply not_elem_of_nil.
  - intros refers [Hw|(ls & ? & ? & ? & Hls & _)].
    + rewrite Htags in Hw. by apply elem_of_nil in Hw.
    + congruence.
  - apply canvas_node_by_id; [by eapply list_elem_of_lookup_2|].
    exists u. split_and!; [by eapply list_elem_of_lookup_2|congruence|].
    left. rewrite Hu. apply list_elem_of_here.
Qed.

(** C10 (amended): the graph of the canvas view is the same for any two
    views, so no toggle or tag selection has an effect on it.  Inclusion is
    decided by id: the node of a task is emitted exactly when a task with
    its id carries [#want] or has an outlink that, without its first code
    unit, is the non-empty block id of a task that carries [#want].  When no
    two tasks share an id, that is the rule for the task itself. *)
Theorem C10_canvas_ignores_toggles (ts : list Task) (v1 v2 : View) (t : Task) :
  t ∈ ts ->
  data (Canvas.processTasks ts v1) = data (Canvas.processTasks ts v2)
  ∧ (toNode Canvas.markers t ∈ nodes (data (Canvas.processTasks ts v1))
     <-> ∃ u, u ∈ ts ∧ id u = id t ∧ includedBySpec sliceRefers ts u)
  ∧ (NoDup (id <$> ts) ->
     toNode Canvas.markers t ∈ nodes (data (Canvas.processTasks ts v1))
     <-> includedBySpec sliceRefers ts t).
Proof.
  intros Ht. split_and!; [done|by apply canvas_node_by_id|].
  intros Hnd. rewrite (canvas_node_by_id ts v1 t Ht). split.
  - intros (u & Hu & Hid & Hinc).
    apply list_elem_of_lookup in Hu as [i Hi]. apply list_elem_of_lookup in Ht as [j Hj].
    assert (i = j) as ->.
    { eapply NoDup_lookup; [exact Hnd| |]; rewrite list_lookup_fmap.
      - by rewrite Hi.
      - rewrite Hj. simpl. by rewrite Hid. }
    by assert (u = t) as -> by congruence.
  - intros Hinc. by exists t.
Qed.

Lemma C10_canvas_ignores_toggles_witness :
  let ts := tasks (scanVault asciiLower (Canvas.flavor 500) [blocked Canvas.markers]) in
  ∃ t,
    t ∈ ts
    ∧ data (Canvas.processTasks ts view0) = data (Canvas.processTasks ts viewX)
    ∧ (toNode Canvas.markers t ∈ nodes (data (Canvas.processTasks ts view0))
       <-> ∃ u, u ∈ ts ∧ id u = id t ∧ includedBySpec sliceRefers ts u)
    ∧ NoDup (id <$> ts)
    ∧ (toNode Canvas.markers t ∈ nodes (data (Canvas.processTasks ts view0))
       <-> includedBySpec sliceRefers ts t).
Proof.
  intros ts.
  destruct (ts !! 0%nat) as [t|] eqn:E; [|vm_compute in E; discriminate E].
  assert (t ∈ ts) as Ht by (eapply list_elem_of_lookup_2; exact E).
  assert (NoDup (id <$> ts)) as Hnd.
  { apply (bool_decide_unpack _). vm_compute. exact I. }
  destruct (C10_canvas_ignores_toggles ts view0 viewX t Ht) as (H1 & H2 & H3).
  exists t. split_and!; [exact Ht|exact H1|exact H2|exact Hnd|exact (H3 Hnd)].
Defined.

End PolicyB.

(** * Further properties of the code *)

Section RegexInversion.
Import JS Regex.
Context {A : Type}.

(** What a successful [p*] consumed. *)
Lemma star_split p (k : nat -> jsstring -> option A) i s a :
  star p k i s = Some a ->
  ∃ pre s', s = pre ++ s' ∧ Forall (fun c => p c = true) pre
            ∧ k (i + length pre)%nat s' = Some a.
Proof.
  revert i. induction s as [|c s IH]; intros i; simpl.
  - intros H. exists [], []. simpl. by rewrite Nat.add_0_r.
  - destruct (p c) eqn:Ep.
    + destruct (star p k (S i) s) eqn:E.
      * intros [= ->]. destruct (IH _ E) as (pre & s' & -> & Hall & Hk).
        exists (c :: pre), s'. split_and!; [done|by constructor|].
        simpl. by replace (i + S (length pre))%nat with (S i + length pre)%nat by lia.
      * intros H. exists [], (c :: s). simpl. by rewrite Nat.add_0_r.
    + intros H. exists [], (c :: s). simpl. by rewrite Nat.add_0_r.
Qed.

(** [p*] succeeds whenever the continuation accepts some split. *)
Lemma star_complete p (k : nat -> jsstring -> option A) i pre s' :
  Forall (fun c => p c = true) pre ->
  is_Some (k (i + length pre)%nat s') ->
  is_Some (star p k i (pre ++ s')).
Proof.
  intros Hall. revert i. induction Hall as [|c pre Hc _ IH]; intros i; simpl.
  - rewrite Nat.add_0_r. intros Hk. destruct s' as [|c s']; simpl; [done|].
    destruct (p c); [|done]. by destruct (star p k (S i) s').
  - intros Hk. rewrite Hc.
    destruct (IH (S i)) as [a ->]; [|done].
    by replace (S i + length pre)%nat with (i + S (length pre))%nat by lia.
Qed.

Lemma lits_split m i s caps (k : nat -> jsstring -> list jsstring -> option A) a :
  run (lits m) i s caps k = Some a ->
  ∃ s', s = m ++ s' ∧ k (i + length m)%nat s' caps = Some a.
Proof.
  revert i s. induction m as [|c m IH]; intros i s; simpl.
  - intros H. exists s. by rewrite Nat.add_0_r.
  - destruct s as [|x s]; [done|]. destruct (N.eqb_spec x c) as [->|]; [|done].
    intros H. apply IH in H as (s' & -> & H). exists s'. split; [done|].
    by replace (i + S (length m))%nat with (S i + length m)%nat by lia.
Qed.

End RegexInversion.

Section ScanInversion.
Import JS Regex.

Lemma search_at r i s m :
  search r i s = Some m -> ∃ j s', exec_at r j s' = Some m.
Proof.
  revert i. induction s as [|c s IH]; intros i; simpl.
  - destruct (exec_at r i []) eqn:E; [|done]. intros [= ->]. eauto.
  - destruct (exec_at r i (c :: s)) eqn:E; [intros [= ->]; eauto|]. apply IH.
Qed.

(** Every match of a global scan is a match at some position. *)
Lemma scan_at r i s skip m :
  m ∈ scan r i s skip -> ∃ j s', exec_at r j s' = Some m.
Proof.
  revert i skip. induction s as [|c s IH]; intros i [|n]; simpl.
  - destruct (exec_at r i []) eqn:E; [|by intros ?%elem_of_nil].
    intros ->%list_elem_of_singleton. eauto.
  - by intros ?%elem_of_nil.
  - destruct (exec_at r i (c :: s)) eqn:E.
    + intros [->|H]%elem_of_cons; [eauto|by eapply IH].
    + apply IH.
  - apply IH.
Qed.

(** A match of [<mark>\s*(\S+)]: its payload is not empty and holds no white
    space. *)
Lemma refRe_exec mark i s m :
  exec_at (refRe mark) i s = Some m ->
  group 0 m ≠ [] ∧ Forall (fun c => isSpace c = false) (group 0 m).
Proof.
  unfold exec_at, refRe. simpl. intros H.
  apply lits_split in H as (s1 & -> & H).
  apply star_split in H as (ws & s2 & -> & _ & H).
  destruct s2 as [|x s2]; [done|]. destruct (isNonSpace x) eqn:Ex; [|done].
  apply star_split in H as (pre & s3 & -> & Hpre & H).
  injection H as <-. unfold group. simpl.
  repeat match goal with
  | |- context [take ?n (x :: _)] =>
    lazymatch n with S (length pre) => fail | _ => replace n with (S (length pre)) by lia end
  end.
  simpl. rewrite take_app_length. split; [done|].
  constructor.
  - unfold isNonSpace in Ex. by apply negb_true_iff in Ex.
  - eapply Forall_impl; [done|]. intros c Hc. unfold isNonSpace in Hc.
    by apply negb_true_iff in Hc.
Qed.

(** A match of [#\S+]: a hash sign followed by at least one unit, none of
    them white space. *)
Lemma tagRe_exec i s m :
  exec_at tagRe i s = Some m ->
  ∃ w, whole m = 0x23 :: w ∧ w ≠ [] ∧ Forall (fun c => isSpace c = false) w.
Proof.
  unfold exec_at, tagRe. simpl.
  destruct s as [|h s]; [done|]. destruct (N.eqb_spec h 0x23) as [->|]; [|done].
  destruct s as [|x s]; [done|]. destruct (isNonSpace x) eqn:Ex; [|done].
  intros H. apply star_split in H as (pre & s3 & -> & Hpre & H).
  injection H as <-. simpl.
  repeat match goal with
  | |- context [take ?n (_ :: x :: _)] =>
    lazymatch n with
    | S (S (length pre)) => fail
    | _ => replace n with (S (S (length pre))) by lia
    end
  end.
  simpl. rewrite take_app_length. exists (x :: pre). split_and!; [done..|].
  constructor.
  - unfold isNonSpace in Ex. by apply negb_true_iff in Ex.
  - eapply Forall_impl; [done|]. intros c Hc. unfold isNonSpace in Hc.
    by apply negb_true_iff in Hc.
Qed.

Lemma checklistRe_later i s : search checklistRe (S i) s = None.
Proof. revert i. induction s as [|c s IH]; intros i; cbn; [done|]. apply IH. Qed.

Lemma checklistRe_match1 s : match1 checklistRe s = exec_at checklistRe 0%nat s.
Proof.
  unfold match1. destruct s as [|c s]; cbn [search].
  - by destruct (exec_at checklistRe 0 []).
  - destruct (exec_at checklistRe 0 (c :: s)); [done|]. apply checklistRe_later.
Qed.

(** A match of the checklist pattern: the line has the checklist shape and
    the groups are the status character and the content. *)
Lemma checklistRe_exec s m :
  match1 checklistRe s = Some m ->
  ∃ c ws body,
    s = [0x2D; 0x20; 0x5B; c; 0x5D] ++ ws ++ body
    ∧ isLineTerminator c = false
    ∧ Forall (fun x => isSpace x = true) ws
    ∧ body ≠ []
    ∧ Forall (fun x => isLineTerminator x = false) body
    ∧ groups m = [[c]; body].
Proof.
  rewrite checklistRe_match1. unfold exec_at, checklistRe. simpl.
  destruct s as [|c0 s]; [done|]. destruct (N.eqb_spec c0 0x2D) as [->|]; [|done].
  destruct s as [|c1 s]; [done|]. destruct (N.eqb_spec c1 0x20) as [->|]; [|done].
  destruct s as [|c2 s]; [done|]. destruct (N.eqb_spec c2 0x5B) as [->|]; [|done].
  destruct s as [|c s]; [done|]. destruct (isDot c) eqn:Ec; [|done].
  destruct s as [|c4 s]; [done|]. destruct (N.eqb_spec c4 0x5D) as [->|]; [|done].
  intros H. apply star_split in H as (ws & s2 & -> & Hws & H).
  destruct s2 as [|x s2]; [done|]. destruct (isDot x) eqn:Ex; [|done].
  apply star_split in H as (pre & s3 & -> & Hpre & H).
  destruct s3 as [|? ?]; [|done]. injection H as <-. simpl.
  exists c, ws, (x :: pre). rewrite app_nil_r.
  assert (∀ y, isDot y = true -> isLineTerminator y = false) as Hdot.
  { intros y Hy. unfold isDot in Hy. by apply negb_true_iff in Hy. }
  split_and!; try done; auto.
  - constructor; [auto|]. eapply Forall_impl; [done|]. auto.
  - repeat match goal with
    | |- context [take ?n (x :: _)] =>
      lazymatch n with S (length pre) => fail | _ => replace n with (S (length pre)) by lia end
    end.
    simpl. by rewrite firstn_all.
Qed.

(** Every line of the checklist shape matches the checklist pattern. *)
Lemma checklistRe_complete s :
  ChecklistShape s -> is_Some (match1 checklistRe s).
Proof.
  intros (c & ws & body & -> & Hc & Hws & Hb & Hbody).
  rewrite checklistRe_match1. unfold exec_at, checklistRe. simpl.
  unfold isDot at 1. rewrite Hc. simpl.
  apply star_complete; [done|].
  destruct body as [|x body]; [done|]. apply Forall_cons in Hbody as [Hx Hbody].
  unfold isDot at 1. rewrite Hx. simpl.
  rewrite <- (app_nil_r body). apply star_complete; [|done].
  eapply Forall_impl; [done|]. intros y Hy. unfold isDot. by rewrite Hy.
Qed.

End ScanInversion.

Section TrimFacts.
Import JS.

Lemma trimStart_split s :
  ∃ pad, s = pad ++ trimStart s ∧ Forall (fun c => isSpace c = true) pad.
Proof.
  induction s as [|c s (pad & E & Hpad)]; simpl; [by exists []|].
  destruct (isSpace c) eqn:Ec.
  - exists (c :: pad). split; [by rewrite E at 1|by constructor].
  - by exists [].
Qed.

Lemma trimStart_head s c : head (trimStart s) = Some c -> isSpace c = false.
Proof.
  induction s as [|x s IH]; simpl; [done|].
  destruct (isSpace x) eqn:Ex; [done|]. simpl. by intros [= <-].
Qed.

Lemma trimStart_snoc s c :
  isSpace c = false -> trimStart (s ++ [c]) = trimStart s ++ [c].
Proof.
  intros Hc. induction s as [|x s IH]; simpl; [by rewrite Hc|].
  by destruct (isSpace x).
Qed.

Lemma trimEnd_cons c s : isSpace c = false -> trimEnd (c :: s) = c :: trimEnd s.
Proof.
  intros Hc. unfold trimEnd. change (rev (c :: s)) with (rev s ++ [c]).
  by rewrite trimStart_snoc, rev_unit.
Qed.

Lemma last_rev (l : jsstring) : last (rev l) = head l.
Proof. destruct l as [|x l]; [done|]. simpl. apply last_snoc. Qed.

Lemma trimEnd_last s c : last (trimEnd s) = Some c -> isSpace c = false.
Proof. unfold trimEnd. rewrite last_rev. apply trimStart_head. Qed.

(** [trim] leaves no white space at either end. *)
Lemma trim_ends s :
  (∀ c, head (trim s) = Some c -> isSpace c = false)
  ∧ (∀ c, last (trim s) = Some c -> isSpace c = false).
Proof.
  unfold trim. split; intros c; [|apply trimEnd_last].
  destruct (trimStart s) as [|x r] eqn:E; [done|].
  assert (isSpace x = false) as Hx by (apply (trimStart_head s); by rewrite E).
  rewrite trimEnd_cons by done. simpl. by intros [= <-].
Qed.

End TrimFacts.

Section UniqFacts.
Import JS.

Lemma uniqAcc_spec seen xs x :
  x ∈ uniqAcc seen xs <-> x ∈ xs ∧ x ∉ seen.
Proof.
  revert seen. induction xs as [|y xs IH]; intros seen; simpl.
  - split; [by intros ?%elem_of_nil|by intros [?%elem_of_nil _]].
  - case_bool_decide as Hy.
    + rewrite IH, elem_of_cons. split; [tauto|]. intros [[->|?] ?]; done.
    + rewrite !elem_of_cons, IH, elem_of_cons.
      destruct (decide (x = y)) as [->|]; tauto.
Qed.

Lemma uniqAcc_NoDup seen xs : NoDup (uniqAcc seen xs).
Proof.
  revert seen. induction xs as [|y xs IH]; intros seen; simpl; [constructor|].
  case_bool_decide; [apply IH|]. constructor; [|apply IH].
  rewrite uniqAcc_spec, elem_of_cons. tauto.
Qed.

End UniqFacts.

Section ExtractProperties.
Import JS Regex.
Variable toLowerCase : jsstring -> jsstring.
Variable F : Flavor.

Lemma extract_inv f i ln ind t :
  extract toLowerCase F f i ln = Some (ind, t) ->
  ∃ m, match1 checklistRe (trimStart ln) = Some m
       ∧ ind = (length ln - length (trimStart ln))%nat
       ∧ completed t = bool_decide (group 0 m ≠ [0x20])
       ∧ tags t = uniq (toLowerCase <$> (whole <$> matchAll tagRe (group 1 m)))
       ∧ (∃ s, text t = trim s)
       ∧ (id t = derivedId (path f) i
          ∨ ∃ s im, match1 (refRe (idMark (marks F))) s = Some im ∧ id t = group 0 im)
       ∧ (∃ s, blockers t = group 0 <$> matchAll (refRe (blockerMark (marks F))) s).
Proof.
  unfold extract. destruct (match1 checklistRe _) as [m|] eqn:E; [|done].
  intros [= <- <-]. exists m. simpl. split_and!; try done; eauto.
  destruct (match1 (refRe _) _) as [im|] eqn:Ei; [right; eauto|by left].
Qed.

End ExtractProperties.

Section ExtractionExtras.
Import JS Regex.

(** A line is a task exactly when, after its indentation, it has the
    checklist shape: [- [c]], white space, and a non-empty content without
    line terminator. *)
Theorem extract_iff_checklist_shape (toLowerCase : jsstring -> jsstring) (F : Flavor)
    (f : File) (i : nat) (ln : jsstring) :
  is_Some (extract toLowerCase F f i ln) <-> ChecklistShape (trimStart ln).
Proof.
  split.
  - intros [[ind t] (m & Hm & _)%extract_inv].
    apply checklistRe_exec in Hm as (c & ws & body & ? & ? & ? & ? & ? & _).
    by exists c, ws, body.
  - intros [m Hm]%checklistRe_complete. unfold extract. rewrite Hm. done.
Qed.

(** The indentation of a task is the number of white-space units before the
    dash, and the task is open exactly when the status character is a
    space. *)
Theorem extract_indent_and_status (toLowerCase : jsstring -> jsstring) (F : Flavor)
    (f : File) (i : nat) (ln : jsstring) (ind : nat) (t : Task) :
  extract toLowerCase F f i ln = Some (ind, t) ->
  ∃ pad c rest,
    ln = pad ++ [0x2D; 0x20; 0x5B; c; 0x5D] ++ rest
    ∧ Forall (fun x => isSpace x = true) pad
    ∧ ind = length pad
    ∧ (completed t = false <-> c = 0x20).
Proof.
  intros (m & Hm & -> & Hc & _)%extract_inv.
  apply checklistRe_exec in Hm as (c & ws & body & E & _ & _ & _ & _ & Hg).
  destruct (trimStart_split ln) as (pad & Hln & Hpad).
  exists pad, c, (ws ++ body). split_and!; try done.
  - by rewrite Hln at 1; rewrite E.
  - rewrite Hln at 1. rewrite length_app. lia.
  - rewrite Hc. unfold group. rewrite Hg. simpl. rewrite bool_decide_eq_false.
    split; [intros H; destruct (decide (c = 0x20)) as [|Hne]; [done|]|by intros ->; auto].
    exfalso. apply H. congruence.
Qed.

Lemma extract_indent_and_status_witness :
  ∃ t pad c rest,
    extract asciiLower Svg.flavor Sample.notes 1 (utf16 "  - [ ] detail") = Some (2%nat, t)
    ∧ utf16 "  - [ ] detail" = pad ++ [0x2D; 0x20; 0x5B; c; 0x5D] ++ rest
    ∧ 2%nat = length pad
    ∧ (completed t = false <-> c = 0x20).
Proof.
  destruct (extract asciiLower Svg.flavor Sample.notes 1 (utf16 "  - [ ] detail"))
    as [[ind t]|] eqn:E; [|vm_compute in E; discriminate E].
  assert (ind = 2%nat) as -> by (vm_compute in E; by injection E as <- _).
  destruct (extract_indent_and_status asciiLower Svg.flavor Sample.notes 1
              (utf16 "  - [ ] detail") 2 t E) as (pad & c & rest & H1 & _ & H3 & H4).
  by exists t, pad, c, rest.
Defined.

(** A line that ends with a line terminator (a carriage return of a CRLF
    file, for one) is never a task. *)
Theorem extract_none_before_line_terminator (toLowerCase : jsstring -> jsstring)
    (F : Flavor) (f : File) (i : nat) (ln : jsstring) (c : N) :
  last ln = Some c -> isLineTerminator c = true ->
  extract toLowerCase F f i ln = None.
Proof.
  intros Hlast Hc.
  destruct (extract toLowerCase F f i ln) as [[ind t]|] eqn:E; [|done].
  apply extract_inv in E as (m & Hm & _).
  apply checklistRe_exec in Hm as (c' & ws & body & E & _ & _ & Hb & Hbody & _).
  destruct (trimStart_split ln) as (pad & Hln & _).
  rewrite Hln, E in Hlast.
  destruct (exists_last Hb) as (body' & z & ->).
  rewrite !app_assoc, last_snoc in Hlast. injection Hlast as ->.
  apply Forall_app in Hbody as [_ Hz]. apply Forall_cons in Hz as [Hz _]. congruence.
Qed.

Lemma extract_none_before_line_terminator_witness :
  last (utf16 "- [ ] plan" ++ [0x0D]) = Some 0x0D
  ∧ isLineTerminator 0x0D = true
  ∧ extract asciiLower Svg.flavor Sample.notes 0 (utf16 "- [ ] plan" ++ [0x0D]) = None.
Proof.
  split_and!; [reflexivity|reflexivity|].
  apply (extract_none_before_line_terminator _ _ _ _ _ 0x0D); reflexivity.
Defined.

(** The tags of a task are pairwise distinct, and each is the lower-cased
    form of a token [#...] of at least two units without white space. *)
Theorem extract_tags (toLowerCase : jsstring -> jsstring) (F : Flavor)
    (f : File) (i : nat) (ln : jsstring) (ind : nat) (t : Task) :
  extract toLowerCase F f i ln = Some (ind, t) ->
  NoDup (tags t)
  ∧ ∀ tag, tag ∈ tags t ->
      ∃ w, tag = toLowerCase (0x23 :: w) ∧ w ≠ []
           ∧ Forall (fun c => isSpace c = false) w.
Proof.
  intros (m & _ & _ & _ & -> & _)%extract_inv. split; [apply uniqAcc_NoDup|].
  intros tag [Hin _]%uniqAcc_spec.
  apply list_elem_of_fmap in Hin as (tok & -> & Htok).
  apply list_elem_of_fmap in Htok as (tm & -> & Htm).
  apply scan_at in Htm as (j & s' & Hex).
  apply tagRe_exec in Hex as (w & -> & ? & ?). by exists w.
Qed.

Lemma extract_tags_witness :
  ∃ t, extract asciiLower Svg.flavor Sample.notes 0 (utf16 "- [ ] go #A #b #a") = Some (0%nat, t)
       ∧ NoDup (tags t)
       ∧ tags t = [utf16 "#a"; utf16 "#b"].
Proof.
  destruct (extract asciiLower Svg.flavor Sample.notes 0 (utf16 "- [ ] go #A #b #a"))
    as [[ind t]|] eqn:E; [|vm_compute in E; discriminate E].
  assert (ind = 0%nat) as -> by (vm_compute in E; by injection E as <- _).
  destruct (extract_tags asciiLower Svg.flavor Sample.notes 0 _ 0 t E) as [H1 _].
  exists t. split_and!; [reflexivity|exact H1|].
  vm_compute in E. by injection E as <-.
Defined.

(** The display text of a task neither begins nor ends with white space. *)
Theorem extract_text_trimmed (toLowerCase : jsstring -> jsstring) (F : Flavor)
    (f : File) (i : nat) (ln : jsstring) (ind : nat) (t : Task) :
  extract toLowerCase F f i ln = Some (ind, t) ->
  (∀ c, head (text t) = Some c -> isSpace c = false)
  ∧ (∀ c, last (text t) = Some c -> isSpace c = false).
Proof.
  intros (m & _ & _ & _ & _ & (s & ->) & _)%extract_inv. apply trim_ends.
Qed.

Lemma extract_text_trimmed_witness :
  ∃ t, extract asciiLower (Canvas.flavor 500) Sample.notes 0
         (utf16 "- [x]   Pack bags ⛔ t1 ⏳ 2024-05-01  ") = Some (0%nat, t)
       ∧ text t = utf16 "Pack bags"
       ∧ (∀ c, head (text t) = Some c -> isSpace c = false)
       ∧ (∀ c, last (text t) = Some c -> isSpace c = false).
Proof.
  destruct (extract asciiLower (Canvas.flavor 500) Sample.notes 0
              (utf16 "- [x]   Pack bags ⛔ t1 ⏳ 2024-05-01  "))
    as [[ind t]|] eqn:E; [|vm_compute in E; discriminate E].
  assert (ind = 0%nat) as -> by (vm_compute in E; by injection E as <- _).
  destruct (extract_text_trimmed asciiLower (Canvas.flavor 500) Sample.notes 0 _ 0 t E)
    as [H1 H2].
  exists t. split_and!; [reflexivity| |exact H1|exact H2].
  vm_compute in E. by injection E as <-.
Defined.

(** The id of a task is never empty; it is derived from the place of the
    task or holds no white space; and every blocker id is non-empty and
    holds no white space. *)
Theorem extract_ids_wellformed (toLowerCase : jsstring -> jsstring) (F : Flavor)
    (f : File) (i : nat) (ln : jsstring) (ind : nat) (t : Task) :
  extract toLowerCase F f i ln = Some (ind, t) ->
  id t ≠ []
  ∧ (id t = derivedId (path f) i ∨ Forall (fun c => isSpace c = false) (id t))
  ∧ ∀ b, b ∈ blockers t -> b ≠ [] ∧ Forall (fun c => isSpace c = false) b.
Proof.
  intros E. pose proof E as (_ & _ & _ & _ & _ & Hid)%extract_fields.
  apply extract_inv in E as (m & _ & _ & _ & _ & _ & Hi & (s & ->)).
  split_and!; [done| |].
  - destruct Hi as [?|(s' & im & (j & s'' & Hex)%search_at & ->)]; [by left|right].
    by apply refRe_exec in Hex as [_ ?].
  - intros b (bm & -> & (j & s' & Hex)%scan_at)%list_elem_of_fmap.
    by apply refRe_exec in Hex.
Qed.

Lemma extract_ids_wellformed_witness :
  ∃ t, extract asciiLower (Canvas.flavor 500) Sample.notes 0
         (utf16 "- [ ] second ⛔ ghost ⛔t1 🆔 t2") = Some (0%nat, t)
       ∧ id t = utf16 "t2"
       ∧ blockers t = [utf16 "ghost"; utf16 "t1"]
       ∧ ∀ b, b ∈ blockers t -> b ≠ [] ∧ Forall (fun c => isSpace c = false) b.
Proof.
  destruct (extract asciiLower (Canvas.flavor 500) Sample.notes 0
              (utf16 "- [ ] second ⛔ ghost ⛔t1 🆔 t2"))
    as [[ind t]|] eqn:E; [|vm_compute in E; discriminate E].
  assert (ind = 0%nat) as -> by (vm_compute in E; by injection E as <- _).
  destruct (extract_ids_wellformed asciiLower (Canvas.flavor 500) Sample.notes 0 _ 0 t E)
    as (_ & _ & H3).
  exists t. split_and!; [reflexivity| | |exact H3];
    vm_compute in E; by injection E as <-.
Defined.

End ExtractionExtras.

Section ScanShape.
Variable toLowerCase : jsstring -> jsstring.
Variable F : Flavor.

Lemma fmap_alter_push_child {B} (g : Task -> B) n (p : nat) (ts : list Task) :
  (∀ t, g (push_child n t) = g t) ->
  g <$> alter (push_child n) p ts = g <$> ts.
Proof.
  intros Hg. revert p. induction ts as [|t ts IH]; intros [|p]; simpl; try done.
  - by rewrite Hg.
  - f_equal. apply IH.
Qed.

Lemma bare_extract f i ln ind t :
  extract toLowerCase F f i ln = Some (ind, t) -> bare t = t.
Proof.
  intros (Hc & Hp & Hd & _)%extract_fields. destruct t. simpl in *. by subst.
Qed.

(** One line adds its task, if it has one and the limit is not reached. *)
Lemma scanLine_bare f st i ln :
  bare <$> tasks (scanLine toLowerCase F f st i ln)
  = if limitReached F (tasks st) then bare <$> tasks st
    else (bare <$> tasks st) ++ option_list (snd <$> extract toLowerCase F f i ln).
Proof.
  unfold scanLine. destruct (limitReached F (tasks st)); [done|].
  destruct (extract toLowerCase F f i ln) as [[ind t]|] eqn:E; simpl;
    [|by rewrite app_nil_r].
  pose proof (bare_extract _ _ _ _ _ E) as Hb.
  destruct (popStack ind (stack st)) as [|[p pi] rest]; simpl.
  - rewrite fmap_app. simpl. by rewrite Hb.
  - destruct (tasks st !! p) as [top|]; simpl.
    + rewrite fmap_app, fmap_alter_push_child by done. simpl. f_equal.
      change (bare (set_parent (id top) (depth top + 1) t)) with (bare t).
      by rewrite Hb.
    + rewrite fmap_app. simpl. by rewrite Hb.
Qed.

Lemma limitReached_length ts ts' :
  length ts = length ts' -> limitReached F ts = limitReached F ts'.
Proof. unfold limitReached. by intros ->. Qed.

Lemma capped_reached (ts P X : list Task) :
  length ts = length (capped F P) -> limitReached F ts = true ->
  capped F (P ++ X) = capped F P.
Proof.
  unfold capped, limitReached. destruct (limit F) as [l|]; [|done].
  intros Hlen Hr%bool_decide_eq_true. rewrite length_take in Hlen.
  apply take_app_le. lia.
Qed.

Lemma capped_open (ts P X : list Task) :
  length ts = length (capped F P) -> limitReached F ts = false ->
  (length X ≤ 1)%nat ->
  capped F (P ++ X) = capped F P ++ X.
Proof.
  unfold capped, limitReached. destruct (limit F) as [l|]; [|done].
  intros Hlen Hr%bool_decide_eq_false HX. rewrite length_take in Hlen.
  rewrite !take_ge; [done|lia|rewrite length_app; lia].
Qed.

Lemma scanLines_bare f i lns st P :
  bare <$> tasks st = capped F P ->
  bare <$> tasks (scanLines toLowerCase F f i lns st)
  = capped F (P ++ extracts toLowerCase F f i lns).
Proof.
  revert i st P. induction lns as [|ln lns IH]; intros i st P H; simpl.
  - by rewrite app_nil_r.
  - rewrite app_assoc. apply IH. rewrite scanLine_bare.
    assert (length (tasks st) = length (capped F P)) as Hlen.
    { by rewrite <- H, length_fmap. }
    destruct (limitReached F (tasks st)) eqn:Er.
    + by rewrite (capped_reached (tasks st)).
    + rewrite (capped_open (tasks st)), H; try done.
      destruct (extract toLowerCase F f i ln) as [[? ?]|]; simpl; lia.
Qed.

Lemma scanFiles_bare files st P :
  bare <$> tasks st = capped F P ->
  bare <$> tasks (scanFiles toLowerCase F files st)
  = capped F (P ++ vaultTasks toLowerCase F files).
Proof.
  revert st P. induction files as [|f files IH]; intros st P H.
  - simpl. by rewrite app_nil_r.
  - change (vaultTasks toLowerCase F (f :: files))
      with (extracts toLowerCase F f 0 (JS.split 0x0A (content f))
            ++ vaultTasks toLowerCase F files).
    cbn [scanFiles].
    assert (length (tasks st) = length (capped F P)) as Hlen.
    { by rewrite <- H, length_fmap. }
    destruct (limitReached F (tasks st)) eqn:Er.
    + by rewrite (capped_reached (tasks st)).
    + rewrite app_assoc. apply IH.
      unfold scanFile. by apply scanLines_bare.
Qed.

Lemma scanLine_tags f st i ln :
  TagsInv st -> TagsInv (scanLine toLowerCase F f st i ln).
Proof.
  intros Hinv.
  destruct (scanLine_cases toLowerCase F f st i ln) as [->|(ind & t & E & El & _ & Et)];
    [done|].
  assert (seenTags (scanLine toLowerCase F f st i ln) = list_to_set (tags t) ∪ seenTags st
          ∧ tags <$> tasks (scanLine toLowerCase F f st i ln) = (tags <$> tasks st) ++ [tags t])
    as [Hs Ht].
  { split.
    - unfold scanLine. rewrite El, E. by repeat case_match.
    - destruct Et as [->|(p & pi & rest & top & _ & _ & ->)]; rewrite fmap_app; [done|].
      by rewrite fmap_alter_push_child. }
  intros tag. rewrite Hs, Ht, elem_of_union, elem_of_list_to_set, (Hinv tag). split.
  - intros [H|(tg & H1 & H2)].
    + exists (tags t). split; [|done]. apply elem_of_app. right. apply list_elem_of_here.
    + exists tg. split; [|done]. apply elem_of_app. by left.
  - intros (tg & [H1|H1]%elem_of_app & H2); [right; eauto|].
    apply list_elem_of_singleton in H1 as ->. by left.
Qed.

Lemma scanLines_tags f i lns st :
  TagsInv st -> TagsInv (scanLines toLowerCase F f i lns st).
Proof.
  revert i st. induction lns as [|ln lns IH]; intros i st H; simpl; [done|].
  apply IH. by apply scanLine_tags.
Qed.

Lemma scanFiles_tags files st :
  TagsInv st -> TagsInv (scanFiles toLowerCase F files st).
Proof.
  revert st. induction files as [|f files IH]; intros st H; simpl; [done|].
  destruct (limitReached F (tasks st)); [done|].
  apply IH. apply scanLines_tags. done.
Qed.

Lemma scanVault_tags files tag :
  tag ∈ seenTags (scanVault toLowerCase F files)
  <-> ∃ t, t ∈ tasks (scanVault toLowerCase F files) ∧ tag ∈ tags t.
Proof.
  assert (TagsInv (scanVault toLowerCase F files)) as H.
  { apply scanFiles_tags. intros tg. simpl. split; [by intros ?%not_elem_of_empty|].
    by intros (? & ?%elem_of_nil & _). }
  rewrite (H tag). split.
  - intros (tg & (t & -> & Ht)%list_elem_of_fmap & Htag). by exists t.
  - intros (t & Ht & Htag). exists (tags t). split; [|done].
    apply list_elem_of_fmap. by exists t.
Qed.

End ScanShape.

Section ScanExtras.
Import JS.

(** The tasks of a scan are, up to [children], [parent] and [depth], the
    tasks of the checklist lines of the vault in document order, cut after
    the first [taskLimit] of them in the canvas view. *)
Theorem scan_is_capped_extraction (toLowerCase : jsstring -> jsstring) (F : Flavor)
    (vault : list File) :
  bare <$> tasks (scanVault toLowerCase F vault)
  = capped F (vaultTasks toLowerCase F vault).
Proof.
  unfold scanVault. rewrite (scanFiles_bare toLowerCase F vault _ []); [done|].
  simpl. unfold capped. destruct (limit F); [by rewrite take_nil|done].
Qed.

(** The tags offered by the tag panel are exactly the tags of the collected
    tasks, in both views. *)
Theorem allTags_are_task_tags (toLowerCase : jsstring -> jsstring) (vault : list File)
    (v v' : View) (tag : jsstring) :
  Svg.collectTasks toLowerCase vault v = Some v' ->
  (tag ∈ allTags v'
   <-> ∃ t, t ∈ tasks (scanVault toLowerCase Svg.flavor vault) ∧ tag ∈ tags t)
  ∧ (tag ∈ allTags (Canvas.collectTasks toLowerCase vault v)
     <-> ∃ t, t ∈ tasks (scanVault toLowerCase (Canvas.flavor (taskLimit v)) vault)
              ∧ tag ∈ tags t).
Proof.
  intros H. split; [|apply scanVault_tags].
  unfold Svg.collectTasks in H.
  apply processTasks_inv in H as (? & ? & _ & _ & ->). simpl. apply scanVault_tags.
Qed.

Lemma allTags_are_task_tags_witness :
  ∃ v',
    Svg.collectTasks asciiLower [Sample.notes] Sample.view0 = Some v'
    ∧ (utf16 "#x" ∈ allTags v'
       <-> ∃ t, t ∈ tasks (scanVault asciiLower Svg.flavor [Sample.notes])
                ∧ utf16 "#x" ∈ tags t).
Proof.
  destruct (collectTasks_total asciiLower [Sample.notes] Sample.view0) as [v' Hv'].
  exists v'. split; [exact Hv'|].
  exact (proj1 (allTags_are_task_tags asciiLower [Sample.notes] Sample.view0 v'
                  (utf16 "#x") Hv')).
Defined.

End ScanExtras.

Section AssemblerExtras.
Import JS.

Lemma filter_all {A} (P : A -> Prop) `{∀ x, Decision (P x)} (l : list A) :
  (∀ x, x ∈ l -> P x) -> filter P l = l.
Proof.
  induction l as [|x l IH]; intros H'; [done|].
  rewrite filter_cons_True by (apply H', list_elem_of_here).
  f_equal. apply IH. intros y Hy. by apply H', list_elem_of_further.
Qed.

Lemma validLinks_keeps g l :
  l ∈ links g ->
  source l ∈ (id <$> nodes g) -> target l ∈ (id <$> nodes g) ->
  Is_true (existsb (fun n => bool_decide (id n = source l)) (nodes g)
           && existsb (fun n => bool_decide (id n = target l)) (nodes g)).
Proof.
  intros _ (n1 & E1 & H1)%list_elem_of_fmap (n2 & E2 & H2)%list_elem_of_fmap.
  apply Is_true_true, andb_true_iff. split; apply existsb_exists.
  - exists n1. split; [by apply list_elem_of_In|by apply bool_decide_eq_true].
  - exists n2. split; [by apply list_elem_of_In|by apply bool_decide_eq_true].
Qed.

Lemma integrity_validLinks g : integrity g -> validLinks g = links g.
Proof.
  intros Hint. apply filter_all. intros l Hl. destruct (Hint l Hl).
  by apply validLinks_keeps.
Qed.

(** The link filter of [renderGraph] drops nothing exactly when every link
    joins two nodes; it drops nothing from the graph of the canvas
    assembler. *)
Theorem validLinks_identity (g : Graph) (ts : list Task) (v : View) :
  (validLinks g = links g <-> integrity g)
  ∧ validLinks (data (Canvas.processTasks ts v)) = links (data (Canvas.processTasks ts v)).
Proof.
  split; [split|].
  - intros E l Hl. rewrite <- E in Hl. by apply (validLinks_integrity g).
  - apply integrity_validLinks.
  - apply integrity_validLinks. intros l Hl.
    destruct (canvas_links _ _ _ Hl) as (? & ? & _). done.
Qed.

(** The SVG assembler keeps referential integrity whenever the tag filter
    lets every task pass. *)
Lemma svg_integrity_tags_pass ts v v' :
  Svg.processTasks ts v = Some v' -> (∀ u, Svg.tagOk v u = true) -> integrity (data v').
Proof.
  intros H Htag l Hl.
  destruct (processTasks_links _ _ _ _ H Hl)
    as [(_ & t & c & _ & _ & _ & -> & -> & Ht & Hc)|(_ & ? & ? & _)]; [|done].
  split; apply list_elem_of_fmap;
    [exists (toNode Svg.markers t)|exists (toNode Svg.markers c)]; (split; [done|auto]).
Qed.

Lemma created_links_hierarchy fuel v ts (roots : list nat) made l :
  mapM (Svg.create fuel v ts) roots = Some made -> l ∈ concat (made.*2) ->
  type l = hierarchy.
Proof.
  intros Hm (ls & Hls & Hl)%elem_of_concat.
  apply list_elem_of_fmap in Hls as ([ns ls'] & -> & Hg).
  destruct (mapM_elem_r _ _ _ _ Hm Hg) as (u & _ & Hc).
  by destruct (create_links _ _ _ _ _ _ _ Hc Hl).
Qed.

(** With "Show blocked" off, the SVG graph has no node with blockers and no
    dependency link. *)
Theorem svg_hides_blocked (ts : list Task) (v v' : View) :
  Svg.processTasks ts v = Some v' -> showBlocked v = false ->
  (∀ n, n ∈ nodes (data v') -> blockers n = [])
  ∧ (∀ l, l ∈ links (data v') -> type l = hierarchy).
Proof.
  intros H Hsb. split.
  - intros n (t & _ & Hs & ->)%(processTasks_nodes_sound _ _ _ _ H).
    unfold Svg.shown in Hs. rewrite Hsb in Hs. simpl in Hs.
    apply andb_true_iff in Hs as [[_ Hb]%andb_true_iff _].
    apply negb_true_iff, isBlocked_false in Hb. done.
  - intros l Hl. apply processTasks_inv in H as (ids & made & _ & Hm & ->).
    simpl in Hl. apply elem_of_app in Hl as [Hl|Hl].
    + by eapply created_links_hierarchy.
    + apply list_elem_of_bind in Hl as (t & Hl & _). unfold Svg.dependencies in Hl.
      rewrite Hsb in Hl. simpl in Hl.
      destruct (blockers t); simpl in Hl; by apply elem_of_nil in Hl.
Qed.

Lemma svg_hides_blocked_witness :
  let ts := tasks (scanVault asciiLower Svg.flavor [Sample.blocked Svg.markers]) in
  ∃ v',
    Svg.processTasks ts (MoreSamples.hideBlocked) = Some v'
    ∧ showBlocked MoreSamples.hideBlocked = false
    ∧ (∀ n, n ∈ nodes (data v') -> blockers n = [])
    ∧ (∀ l, l ∈ links (data v') -> type l = hierarchy).
Proof.
  intros ts.
  assert (is_Some (Svg.processTasks ts MoreSamples.hideBlocked)) as [v' H].
  { apply processTasks_total.
    apply (wf_lt _ (scanVault_wf asciiLower Svg.flavor [Sample.blocked Svg.markers])). }
  destruct (svg_hides_blocked ts MoreSamples.hideBlocked v' H eq_refl) as [H1 H2].
  exists v'. split_and!; [exact H|reflexivity|exact H1|exact H2].
Defined.

(** The canvas graph has no node exactly when no task carries the [#want]
    tag, and then it has no link either. *)
Theorem canvas_empty_iff_no_want (ts : list Task) (v : View) :
  (nodes (data (Canvas.processTasks ts v)) = []
   <-> ∀ t, t ∈ ts -> Canvas.wantTag ∉ tags t)
  ∧ (nodes (data (Canvas.processTasks ts v)) = [] ->
     links (data (Canvas.processTasks ts v)) = []).
Proof.
  assert (nodes (data (Canvas.processTasks ts v)) = []
          <-> ∀ t, t ∈ ts -> ¬ ∃ u, u ∈ ts ∧ id u = id t ∧ includedBySpec sliceRefers ts u)
    as Hn.
  { rewrite canvas_nodes. split.
    - intros E%fmap_nil_inv t Ht Hu. apply filtered_spec in Hu.
      assert (t ∉ ts) as Hn'; [|done].
      eapply filter_nil_not_elem_of; [exact E|]. by apply Is_true_true.
    - intros Hno. destruct (filter _ ts) as [|t l] eqn:E; [done|].
      assert (t ∈ filter (fun t => bool_decide (id t ∈ (list_to_set
                 (id <$> filter Canvas.wanted ts) : gset jsstring))
               || bool_decide (id t ∈ (list_to_set (id <$> filter
                    (Canvas.linksToWanted (Canvas.wantBlockIds ts)) ts) : gset jsstring))) ts)
        as [Hp Ht]%list_elem_of_filter by (rewrite E; apply list_elem_of_here).
      exfalso. apply (Hno t Ht). apply filtered_spec. by apply Is_true_true. }
  split.
  - rewrite Hn. split.
    + intros Hno t Ht Hw. apply (Hno t Ht). exists t. split_and!; [done..|]. by left.
    + intros Hno t Ht (u & Hu & _ & [Hw|(ls & sp & w & b & _ & _ & Hw & Hwt & _)]).
      * by apply (Hno u).
      * by apply (Hno w).
  - intros E. unfold Canvas.processTasks in *. simpl in *.
    apply fmap_nil_inv in E. by rewrite E.
Qed.

End AssemblerExtras.

Section ControlsExtras.
Import JS.

Lemma clearAll_tagOk v s u : Svg.tagOk (set_allTags s (clearAll v)) u = true.
Proof. apply tagOk_spec. unfold tagPredicate. by rewrite bool_decide_eq_true_2. Qed.

(** After "Clear All" the SVG graph shows every task that passes the
    completed and blocked settings, all its links join two nodes, and the
    link filter of [renderGraph] drops none of them. *)
Theorem clearAll_removes_tag_filter (toLowerCase : jsstring -> jsstring)
    (vault : list File) (v : View) (t : Task) :
  t ∈ tasks (scanVault toLowerCase Svg.flavor vault) ->
  ∃ v', Svg.collectTasks toLowerCase vault (clearAll v) = Some v'
        ∧ integrity (data v')
        ∧ validLinks (data v') = links (data v')
        ∧ (toNode Svg.markers t ∈ nodes (data v')
           <-> (showCompleted v = true ∨ completed t = false)
               ∧ (showBlocked v = true ∨ blockers t = [])).
Proof.
  intros Ht. destruct (collectTasks_total toLowerCase vault (clearAll v)) as [v' H].
  exists v'. split; [done|]. unfold Svg.collectTasks in H.
  set (v0 := set_allTags _ (clearAll v)) in H.
  assert (integrity (data v')) as Hint.
  { eapply svg_integrity_tags_pass; [done|]. intros u. apply clearAll_tagOk. }
  split_and!; [done|by apply integrity_validLinks|].
  assert (∀ u, Svg.shown v0 u = true
               <-> (showCompleted v = true ∨ completed u = false)
                   ∧ (showBlocked v = true ∨ blockers u = [])) as Hsh.
  { intros u. unfold Svg.shown, v0. rewrite clearAll_tagOk, andb_true_r. simpl.
    rewrite andb_true_iff, !orb_true_iff, !negb_true_iff, isBlocked_false. done. }
  rewrite <- Hsh. split.
  - intros (u & _ & Hs & E)%(processTasks_nodes_sound _ _ _ _ H).
    apply Hsh in Hs. apply Hsh.
    assert (completed t = completed u) as -> by (by apply (f_equal completed) in E).
    assert (blockers t = blockers u) as -> by (by apply (f_equal blockers) in E).
    done.
  - intros Hs. eapply processTasks_nodes_complete; try done. apply scanVault_wf.
Qed.

Lemma clearAll_removes_tag_filter_witness :
  ∃ t v',
    tasks (scanVault asciiLower Svg.flavor [Sample.notes]) !! 1%nat = Some t
    ∧ Svg.collectTasks asciiLower [Sample.notes] (clearAll Sample.viewX) = Some v'
    ∧ integrity (data v')
    ∧ toNode Svg.markers t ∈ nodes (data v').
Proof.
  destruct (tasks (scanVault asciiLower Svg.flavor [Sample.notes]) !! 1%nat) as [t|] eqn:E;
    [|vm_compute in E; discriminate E].
  assert (t ∈ tasks (scanVault asciiLower Svg.flavor [Sample.notes])) as Ht.
  { eapply list_elem_of_lookup_2. exact E. }
  destruct (clearAll_removes_tag_filter asciiLower [Sample.notes] Sample.viewX t Ht)
    as (v' & Hv' & Hint & _ & Hiff).
  exists t, v'. split_and!; [reflexivity|exact Hv'|exact Hint|].
  apply Hiff. split; left; reflexivity.
Defined.

(** A fixed store and two views that treat every stored task alike. *)
Lemma create_same_filter v1 v2 ts fuel u :
  (∀ t, t ∈ ts -> Svg.shown v1 t = Svg.shown v2 t) ->
  (∀ t c, Svg.linked v1 t c = Svg.linked v2 t c) ->
  Svg.create fuel v1 ts u = Svg.create fuel v2 ts u.
Proof.
  intros Hs Hl. revert u. induction fuel as [|n IH]; intros u; simpl; [done|].
  destruct (ts !! u) as [t|] eqn:Et; simpl; [|done].
  rewrite (mapM_ext (Svg.visit (Svg.create n v1 ts) v1 ts t)
             (Svg.visit (Svg.create n v2 ts) v2 ts t)).
  - rewrite Hs; [done|]. by eapply list_elem_of_lookup_2.
  - intros c. unfold Svg.visit. rewrite IH.
    destruct (ts !! c) as [ct|]; simpl; [|done].
    destruct (Svg.create n v2 ts c); simpl; [|done]. by rewrite Hl.
Qed.

(** Ticking "without tags" and every tag that a task carries filters nothing:
    the SVG graph is the one "Clear All" gives. *)
Theorem all_tags_selected_is_no_filter (ts : list Task) (v : View) :
  showWithoutTags v = true ->
  (∀ t tag, t ∈ ts -> tag ∈ tags t -> tag ∈ selectedTags v) ->
  data <$> Svg.processTasks ts v = data <$> Svg.processTasks ts (clearAll v).
Proof.
  intros Hsw Hall.
  assert (∀ t, t ∈ ts -> Svg.shown v t = Svg.shown (clearAll v) t) as Hs.
  { intros t Ht. unfold Svg.shown. f_equal.
    change (Svg.tagOk (clearAll v) t) with (Svg.tagOk (set_allTags (allTags v) (clearAll v)) t).
    rewrite clearAll_tagOk. apply tagOk_spec. unfold tagPredicate.
    rewrite bool_decide_eq_false_2 by (rewrite Hsw; intros [_ ?]; done).
    destruct (tags t) as [|tag tgs] eqn:Etags; [by right|left].
    exists tag. split; [apply list_elem_of_here|].
    apply (Hall t); [done|]. rewrite Etags. apply list_elem_of_here. }
  unfold Svg.processTasks.
  destruct (mapM (Svg.collect _ _) _) as [ids|]; simpl; [|done].
  rewrite (mapM_ext (Svg.create (length ts) v ts) (Svg.create (length ts) (clearAll v) ts))
    by (intros; by apply create_same_filter).
  by destruct (mapM (Svg.create _ _ _) _).
Qed.

Lemma all_tags_selected_is_no_filter_witness :
  let ts := tasks (scanVault asciiLower Svg.flavor [Sample.notes]) in
  showWithoutTags MoreSamples.everyTag = true
  ∧ Forall (fun t => Forall (fun tag => tag ∈ selectedTags MoreSamples.everyTag) (tags t)) ts
  ∧ data <$> Svg.processTasks ts MoreSamples.everyTag
    = data <$> Svg.processTasks ts (clearAll MoreSamples.everyTag).
Proof.
  intros ts.
  assert (Forall (fun t => Forall (fun tag => tag ∈ selectedTags MoreSamples.everyTag)
                             (tags t)) ts) as Hall.
  { vm_compute. repeat constructor. }
  split_and!; [reflexivity|exact Hall|].
  apply all_tags_selected_is_no_filter; [reflexivity|].
  intros t tag Ht Htag.
  eapply Forall_forall in Hall; [|exact Ht]. eapply Forall_forall in Hall; [|exact Htag].
  exact Hall.
Defined.

(** A node label is never longer than 20 units: short texts are shown as
    they are, longer ones as their first 17 units and an ellipsis. *)
Theorem label_bounded (s : jsstring) :
  (length (label SvgGestures.ellipsis s) ≤ 20)%nat
  ∧ (length (label CanvasLabels.ellipsis s) ≤ 20)%nat
  ∧ ((length s ≤ 20)%nat -> ∀ e, label e s = s)
  ∧ ((20 < length s)%nat -> ∀ e, take 17 (label e s) = take 17 s).
Proof.
  unfold label. split_and!.
  - case_bool_decide; [|lia]. rewrite length_app, length_take.
    change (length SvgGestures.ellipsis) with 3%nat. lia.
  - case_bool_decide; [|lia]. rewrite length_app, length_take.
    change (length CanvasLabels.ellipsis) with 1%nat. lia.
  - intros H e. by rewrite bool_decide_eq_false_2 by lia.
  - intros H e. rewrite bool_decide_eq_true_2 by done.
    rewrite take_app_le by (rewrite length_take; lia). rewrite take_take. f_equal.
Qed.

Lemma label_bounded_witness :
  (20 < length (utf16 "Write the quarterly report"))%nat
  ∧ label CanvasLabels.ellipsis (utf16 "Write the quarterly report")
    = utf16 "Write the quarter…"
  ∧ take 17 (label CanvasLabels.ellipsis (utf16 "Write the quarterly report"))
    = take 17 (utf16 "Write the quarterly report").
Proof.
  assert (20 < length (utf16 "Write the quarterly report"))%nat as H by (vm_compute; lia).
  split_and!; [exact H|reflexivity|].
  exact (proj2 (proj2 (proj2 (label_bounded (utf16 "Write the quarterly report")))) H
           CanvasLabels.ellipsis).
Defined.

(** In the SVG view a press of a mouse button starts at most one gesture:
    the zoom behaviour takes button 2 only, the drag behaviour button 0 only,
    and the listener that opens a task in a new tab button 1 only. *)
Theorem svg_mousedown_one_gesture (e : Event) :
  ev_type e = "mousedown"%string ->
  (Svg.zoomFilter e = true <-> button e = 2%Z)
  ∧ (SvgGestures.dragFilter e = true <-> button e = 0%Z)
  ∧ (SvgGestures.opensNewTab e = true <-> button e = 1%Z)
  ∧ ¬ (Svg.zoomFilter e = true ∧ SvgGestures.dragFilter e = true)
  ∧ ¬ (Svg.zoomFilter e = true ∧ SvgGestures.opensNewTab e = true)
  ∧ ¬ (SvgGestures.dragFilter e = true ∧ SvgGestures.opensNewTab e = true).
Proof.
  intros Ht.
  assert (Svg.zoomFilter e = true <-> button e = 2%Z) as Hz.
  { rewrite svg_zoomFilter_spec, Ht. split; [by intros [?|[_ ?]]|by right]. }
  unfold SvgGestures.dragFilter, SvgGestures.opensNewTab in *.
  rewrite !bool_decide_eq_true, Hz. lia.
Qed.

Lemma svg_mousedown_one_gesture_witness :
  ev_type Sample.secondaryDown = "mousedown"%string
  ∧ Svg.zoomFilter Sample.secondaryDown = true
  ∧ SvgGestures.dragFilter Sample.secondaryDown = false.
Proof.
  destruct (svg_mousedown_one_gesture Sample.secondaryDown eq_refl)
    as (Hz & Hd & _).
  split_and!; [reflexivity|by apply Hz|reflexivity].
Defined.

End ControlsExtras.

Section WatchExtras.

Lemma setupFileWatch_inv w : WatchInv w -> WatchInv (setupFileWatch w).
Proof.
  intros Hw. pose proof Hw as [H1 H2]. unfold setupFileWatch.
  assert (WatchInv (match fileEventRef w with Some r => offref r w | None => w end)
          ∧ listening (match fileEventRef w with Some r => offref r w | None => w end) = ∅)
    as [[H1' H2'] He].
  { destruct (fileEventRef w) as [r|] eqn:E.
    - split; [split|]; simpl.
      + intros r' [Hr ?]%elem_of_difference. by rewrite <- (H1 r' Hr), E.
      + intros r' Hr. apply H2. by rewrite <- Hr.
      + apply set_eq. intros r'. rewrite elem_of_difference, elem_of_singleton.
        split; [|by intros ?%not_elem_of_empty]. intros [Hr Hne].
        apply H1 in Hr. congruence.
    - split; [exact Hw|]. apply set_eq. intros r'.
      split; [|by intros ?%not_elem_of_empty]. intros Hr%H1. congruence. }
  destruct (watchLive _); [|exact (conj H1' H2')]. split; simpl.
  - rewrite He. intros r [->%elem_of_singleton|?%not_elem_of_empty]%elem_of_union; done.
  - intros r [= <-]. lia.
Qed.

Lemma onClose_inv w : WatchInv w -> WatchInv (onClose w).
Proof.
  intros Hw. pose proof Hw as [H1 H2]. unfold onClose.
  destruct (fileEventRef w) as [r|] eqn:E; [|exact Hw].
  split; simpl; [|done].
  intros r' [Hr Hne]%elem_of_difference. apply H1 in Hr.
  injection Hr as ->. exfalso. by apply Hne, elem_of_singleton.
Qed.

Lemma watch_steps_inv w : rtc WatchStep freshWatch w -> WatchInv w.
Proof.
  intros H. pattern w. revert w H. apply rtc_ind_r.
  - split; simpl; [by intros r ?%not_elem_of_empty|done].
  - intros w w' _ Hstep IH.
    destruct Hstep; [by apply setupFileWatch_inv| |by apply onClose_inv].
    apply setupFileWatch_inv. destruct IH as [H1 H2]. by split.
Qed.

(** Whatever the view does with its watch, it never holds more than one
    listener at the vault; right after [setupFileWatch] it holds one exactly
    when live update is on, and after [onClose] none. *)
Theorem file_watch_never_leaks (w : Watch) :
  rtc WatchStep freshWatch w ->
  (size (listening w) ≤ 1)%nat
  ∧ (listening (setupFileWatch w) ≠ ∅ <-> watchLive w = true)
  ∧ listening (onClose w) = ∅.
Proof.
  intros Hw%watch_steps_inv. split_and!.
  - destruct Hw as [H1 _]. destruct (fileEventRef w) as [r|] eqn:E.
    + assert (listening w ⊆ {[ r ]}) as Hsub.
      { intros r' Hr%H1. apply elem_of_singleton. congruence. }
      apply subseteq_size in Hsub. by rewrite size_singleton in Hsub.
    + assert (listening w = ∅) as ->; [|rewrite size_empty; lia].
      apply set_eq. intros r. split; [|by intros ?%not_elem_of_empty].
      intros Hr%H1. congruence.
  - pose proof (setupFileWatch_inv w Hw) as [H1 _]. revert H1. unfold setupFileWatch.
    assert (watchLive (match fileEventRef w with Some r => offref r w | None => w end)
            = watchLive w) as -> by (by destruct (fileEventRef w)).
    destruct (watchLive w); simpl.
    + intros _. split; [done|]. intros _ He.
      assert (nextRef (match fileEventRef w with Some r => offref r w | None => w end)
              ∈ (∅ : gset nat)) as ?%not_elem_of_empty; [|done].
      rewrite <- He. apply elem_of_union. left. by apply elem_of_singleton.
    + intros H1. split; [|done]. intros Hne. exfalso. apply Hne.
      apply set_eq. intros r. split; [|by intros ?%not_elem_of_empty].
      intros Hr. pose proof (H1 r Hr) as Hf.
      destruct Hw as [Hw1 _]. destruct (fileEventRef w) as [r0|] eqn:E; simpl in *.
      * apply elem_of_difference in Hr as [Hr Hne']. apply Hw1 in Hr.
        injection Hr as ->. exfalso. by apply Hne', elem_of_singleton.
      * apply Hw1 in Hr. congruence.
  - pose proof (onClose_inv w Hw) as [H1 _]. apply set_eq. intros r.
    split; [|by intros ?%not_elem_of_empty]. intros Hr. pose proof (H1 r Hr) as Hf.
    unfold onClose in *. destruct (fileEventRef w) as [r0|] eqn:E; simpl in *; [done|].
    congruence.
Qed.

Lemma file_watch_never_leaks_witness :
  rtc WatchStep freshWatch (liveToggled false (setupFileWatch freshWatch))
  ∧ (size (listening (liveToggled false (setupFileWatch freshWatch))) ≤ 1)%nat
  ∧ listening (onClose (liveToggled false (setupFileWatch freshWatch))) = ∅.
Proof.
  assert (rtc WatchStep freshWatch (liveToggled false (setupFileWatch freshWatch))) as H.
  { eapply rtc_l; [apply step_setup|]. eapply rtc_l; [apply (step_toggle false)|].
    apply rtc_refl. }
  destruct (file_watch_never_leaks _ H) as (H1 & _ & H3).
  split_and!; [exact H|exact H1|exact H3].
Defined.

End WatchExtras.

Section NearestShallower.
Variable toLowerCase : jsstring -> jsstring.
Variable F : Flavor.

Lemma popStack_popStack d d0 stk :
  (d ≤ d0)%nat -> popStack d (popStack d0 stk) = popStack d stk.
Proof.
  intros Hd. induction stk as [|[p ind] rest IH]; simpl; [done|].
  case_bool_decide as H0.
  - rewrite IH. by rewrite bool_decide_eq_true_2 by lia.
  - done.
Qed.

Lemma Chain_app R X fi n d stk :
  (n ≤ length R)%nat -> Chain R fi n d stk -> Chain (R ++ X) fi n d stk.
Proof.
  revert n d. induction stk as [|[p dp] rest IH]; intros n d Hn; simpl.
  - intros H j dj Hj. rewrite lookup_app_l by lia. by apply H.
  - intros (Hp & Hl & Hd & Hb & Hc). split_and!; [done| |done| |].
    + by rewrite lookup_app_l by lia.
    + intros j dj Hj. rewrite lookup_app_l by lia. by apply Hb.
    + apply IH; [lia|done].
Qed.

Lemma Chain_snoc R fi d d0 stk :
  (d ≤ d0)%nat -> Chain R fi (length R) d stk ->
  Chain (R ++ [(fi, d0)]) fi (S (length R)) d stk.
Proof.
  intros Hd. destruct stk as [|[p dp] rest]; simpl.
  - intros H j dj Hj. destruct (decide (j = length R)) as [->|Hne].
    + rewrite list_lookup_middle by done. intros [= <-]. done.
    + rewrite lookup_app_l by lia. apply H. lia.
  - intros (Hp & Hl & Hdp & Hb & Hc). split_and!; [lia| |done| |].
    + by rewrite lookup_app_l by lia.
    + intros j dj Hj. destruct (decide (j = length R)) as [->|Hne].
      * rewrite list_lookup_middle by done. intros [= <-]. done.
      * rewrite lookup_app_l by lia. apply Hb. lia.
    + apply Chain_app; [lia|done].
Qed.

Lemma nearestShallower_lt R p k : nearestShallower R p k -> (p < k < length R)%nat.
Proof.
  intros (f & dp & dk & _ & Hk & Hlt & _). apply lookup_lt_Some in Hk. lia.
Qed.

Lemma nearestShallower_app R X p k :
  (k < length R)%nat -> nearestShallower (R ++ X) p k <-> nearestShallower R p k.
Proof.
  intros Hk. unfold nearestShallower. split.
  - intros (f & dp & dk & Hp & Hk' & Hlt & Hd & Hb).
    rewrite lookup_app_l in Hp by lia. rewrite lookup_app_l in Hk' by lia.
    exists f, dp, dk. split_and!; try done.
    intros j dj Hj Hl. apply (Hb j dj Hj). by rewrite lookup_app_l by lia.
  - intros (f & dp & dk & Hp & Hk' & Hlt & Hd & Hb).
    exists f, dp, dk. split_and!; try done.
    + by rewrite lookup_app_l by lia.
    + by rewrite lookup_app_l by lia.
    + intros j dj Hj Hl. rewrite lookup_app_l in Hl by lia. by apply (Hb j dj).
Qed.

Lemma nearestShallower_uniq R p p' k :
  nearestShallower R p k -> nearestShallower R p' k -> p = p'.
Proof.
  intros (f & dp & dk & Hp & Hk & Hlt & Hd & Hb)
         (f' & dp' & dk' & Hp' & Hk' & Hlt' & Hd' & Hb').
  rewrite Hk in Hk'. injection Hk' as <- <-.
  destruct (lt_eq_lt_dec p p') as [[H|H]|H]; [|done|].
  - pose proof (Hb p' dp' (conj H Hlt') Hp'). lia.
  - pose proof (Hb' p dp (conj H Hlt) Hp). lia.
Qed.

(** The new row and the stack popped for it. *)
Lemma nearestShallower_new R fi d0 stk p :
  Chain R fi (length R) d0 stk ->
  nearestShallower (R ++ [(fi, d0)]) p (length R)
  <-> ∃ dp rest, stk = (p, dp) :: rest.
Proof.
  intros Hc. split.
  - intros (f & dp & dk & Hp & Hk & Hlt & Hd & Hb).
    rewrite list_lookup_middle in Hk by done. injection Hk as <- <-.
    rewrite lookup_app_l in Hp by lia.
    destruct stk as [|[q dq] rest]; simpl in Hc.
    + pose proof (Hc p dp Hlt Hp). lia.
    + destruct Hc as (Hq & Hlq & Hdq & Hbq & _).
      destruct (lt_eq_lt_dec p q) as [[H|H]|H].
      * assert ((R ++ [(fi, d0)]) !! q = Some (fi, dq)) as Hq'
          by (by rewrite lookup_app_l by lia).
        pose proof (Hb q dq (conj H Hq) Hq'). lia.
      * subst q. rewrite Hp in Hlq. injection Hlq as <-. eauto.
      * pose proof (Hbq p dp (conj H Hlt) Hp). lia.
  - intros (dp & rest & ->). simpl in Hc. destruct Hc as (Hq & Hlq & Hdq & Hbq & _).
    exists fi, dp, d0. split_and!; [|by rewrite list_lookup_middle|done|done|].
    + by rewrite lookup_app_l by lia.
    + intros j dj Hj Hl. rewrite lookup_app_l in Hl by lia. by apply (Hbq j dj).
Qed.

Lemma HierInv_push fi st R n d0 ts' seen :
  HierInv fi st R -> n = length (tasks st) ->
  (∀ p k, childOf ts' p k
          <-> childOf (tasks st) p k
              ∨ (k = n ∧ ∃ dp rest, popStack d0 (stack st) = (p, dp) :: rest)) ->
  length ts' = S n ->
  (∀ k t, ts' !! k = Some t ->
          (∃ old, tasks st !! k = Some old ∧ depth t = depth old)
          ∨ (k = n ∧ (depth t ≤ d0)%nat)) ->
  HierInv fi {| tasks := ts'; seenTags := seen; stack := (n, d0) :: popStack d0 (stack st) |}
          (R ++ [(fi, d0)]).
Proof.
  intros (Hlen & Hch & Hpar & Hfi & Hdep) -> Hco Hl' Hd'. split_and!; simpl.
  - rewrite length_app. simpl. lia.
  - intros d. rewrite length_app. simpl. rewrite Nat.add_1_r.
    case_bool_decide as Hd.
    + rewrite popStack_popStack by done.
      apply Chain_snoc; [done|apply Hch].
    + simpl. rewrite <- Hlen. split_and!; [lia|by rewrite list_lookup_middle|lia| |].
      * intros j dj Hj. lia.
      * apply Chain_app; [lia|apply Hch].
  - intros p k. rewrite Hco, Hpar. split.
    + intros [H|[-> H]].
      * apply nearestShallower_app; [|done]. apply nearestShallower_lt in H. lia.
      * rewrite <- Hlen. eapply nearestShallower_new; [apply Hch|done].
    + intros H. pose proof (nearestShallower_lt _ _ _ H) as Hk.
      rewrite length_app in Hk. simpl in Hk.
      destruct (decide (k = length R)) as [->|Hne].
      * right. split; [done|]. eapply nearestShallower_new; [apply Hch|done].
      * left. apply nearestShallower_app in H; [done|lia].
  - apply Forall_app. split; [done|]. by apply Forall_singleton.
  - intros k t f d Ht Hr. destruct (Hd' k t Ht) as [(old & Ho & ->)|[-> Hle]].
    + apply lookup_lt_Some in Ho as Hk. rewrite lookup_app_l in Hr by lia.
      by apply (Hdep k old f d).
    + rewrite <- Hlen, list_lookup_middle in Hr by done. by injection Hr as <- <-.
Qed.

Lemma scanLine_hier f fi st i ln R Full :
  HierInv fi st R -> Track F st R Full ->
  ∃ R', HierInv fi (scanLine toLowerCase F f st i ln) R'
        ∧ Track F (scanLine toLowerCase F f st i ln) R'
            (Full ++ (pair fi <$> option_list (fst <$> extract toLowerCase F f i ln))).
Proof.
  intros Hinv [Hpre Hfull]. unfold scanLine.
  destruct (limitReached F (tasks st)) eqn:El.
  { exists R. split; [done|]. split; [by apply prefix_app_r|]. intros; congruence. }
  specialize (Hfull eq_refl). subst Full.
  destruct (extract toLowerCase F f i ln) as [[d0 t]|] eqn:E; simpl.
  2:{ exists R. split; [done|]. rewrite app_nil_r. split; [done|]. done. }
  pose proof E as (Hc & _ & Hd0 & _)%extract_fields.
  exists (R ++ [(fi, d0)]). split; [|split; [done|done]].
  pose proof Hinv as (Hlen & Hch & Hpar & _ & Hdep).
  pose proof (HierInv_push fi st R (length (tasks st)) d0) as Hpush.
  pose proof (Hch d0) as Hc0.
  destruct (popStack d0 (stack st)) as [|[p dp] rest] eqn:Ep.
  - apply Hpush; [done|done| |by rewrite length_app; simpl; lia|].
    + intros p k. rewrite childOf_snoc_leaf by done. split; [by left|].
      intros [?|(_ & ? & ? & ?)]; done.
    + intros k u [Hu|[Hk Hu]]%lookup_app_Some; [left; by exists u|right].
      apply list_lookup_singleton_Some in Hu as [Hk' <-]. split; lia.
  - simpl in Hc0. destruct Hc0 as (Hp & Hrow & Hdp & _). rewrite Hlen in Hp.
    destruct (lookup_lt_is_Some_2 _ _ Hp) as [top Htop]. rewrite Htop.
    apply Hpush; [done|done| | |].
    + intros q k. rewrite (childOf_grow _ _ top) by done. split.
      * intros [?|[-> ->]]; [by left|right; eauto].
      * intros [?|(-> & ? & ? & [= -> _ _])]; [by left|by right].
    + rewrite length_app, length_alter. simpl. lia.
    + intros k u Hu.
      destruct (lookup_grow _ _ _ _ _ _ Htop Hu) as [[-> ->]|(old & Ho & _ & _ & Hd & _)].
      * right. split; [done|]. simpl. pose proof (Hdep p top fi dp Htop Hrow). lia.
      * left. by exists old.
Qed.

Lemma scanLines_hier f fi i lns st R Full :
  HierInv fi st R -> Track F st R Full ->
  ∃ R', HierInv fi (scanLines toLowerCase F f i lns st) R'
        ∧ Track F (scanLines toLowerCase F f i lns st) R'
            (Full ++ (pair fi <$> indents toLowerCase F f i lns)).
Proof.
  revert i st R Full. induction lns as [|ln lns IH]; intros i st R Full Hinv Htr; simpl.
  - exists R. by rewrite app_nil_r.
  - destruct (scanLine_hier f fi st i ln R Full Hinv Htr) as (R1 & H1 & T1).
    destruct (IH (S i) _ R1 _ H1 T1) as (R2 & H2 & T2).
    exists R2. split; [done|]. by rewrite fmap_app, app_assoc.
Qed.

(** Between two files only the store and its rows matter. *)
Lemma scanFiles_hier files k st R Full :
  length R = length (tasks st) ->
  (∀ p c, childOf (tasks st) p c <-> nearestShallower R p c) ->
  Forall (fun r => (r.1 < k)%nat) R ->
  DepthInv (tasks st) R ->
  Track F st R Full ->
  ∃ R', length R' = length (tasks (scanFiles toLowerCase F files st))
        ∧ (∀ p c, childOf (tasks (scanFiles toLowerCase F files st)) p c
                  <-> nearestShallower R' p c)
        ∧ DepthInv (tasks (scanFiles toLowerCase F files st)) R'
        ∧ R' `prefix_of` (Full ++ rowsFrom toLowerCase F k files).
Proof.
  revert k st R Full.
  induction files as [|f files IH]; intros k st R Full Hlen Hpar Hk Hdep Htr.
  - exists R. simpl. rewrite app_nil_r. by destruct Htr.
  - cbn [scanFiles rowsFrom]. destruct (limitReached F (tasks st)) eqn:El.
    { exists R. split_and!; [done..|]. destruct Htr as [Hp _]. by apply prefix_app_r. }
    assert (HierInv k {| tasks := tasks st; seenTags := seenTags st; stack := [] |} R) as H0.
    { split_and!; simpl; [done| |done| |done].
      - intros d j dj Hj Hl. eapply Forall_lookup_1 in Hk; [|exact Hl]. simpl in Hk. lia.
      - eapply Forall_impl; [exact Hk|]. simpl. intros; lia. }
    destruct (scanLines_hier f k 0 (JS.split 0x0A (content f)) _ R Full H0 Htr)
      as (R1 & (Hl1 & _ & Hp1 & Hk1 & Hd1) & T1).
    rewrite app_assoc. apply (IH (S k) _ R1); [done|done| |done|done].
    eapply Forall_impl; [exact Hk1|]. simpl. intros; lia.
Qed.

(** The rows of the stored tasks are the first rows of the vault. *)
Lemma scanVault_rows vault :
  ∃ R X, vaultRows toLowerCase F vault = R ++ X
         ∧ length R = length (tasks (scanVault toLowerCase F vault))
         ∧ (∀ p c, childOf (tasks (scanVault toLowerCase F vault)) p c
                   <-> nearestShallower R p c)
         ∧ DepthInv (tasks (scanVault toLowerCase F vault)) R.
Proof.
  unfold scanVault, vaultRows.
  destruct (scanFiles_hier vault 0 {| tasks := []; seenTags := ∅; stack := [] |} [] [])
    as (R & Hlen & Hpar & Hdep & [X HX]); simpl; try done.
  - intros p' c. split.
    + intros (t & Hl & _). by rewrite lookup_nil in Hl.
    + intros (? & ? & ? & Hl & _). by rewrite lookup_nil in Hl.
  - by exists R, X.
Qed.

Lemma scanVault_hier vault p k :
  (k < length (tasks (scanVault toLowerCase F vault)))%nat ->
  childOf (tasks (scanVault toLowerCase F vault)) p k
  <-> nearestShallower (vaultRows toLowerCase F vault) p k.
Proof.
  intros Hk. destruct (scanVault_rows vault) as (R & X & -> & Hlen & Hpar & _).
  rewrite Hpar. symmetry. apply nearestShallower_app. by rewrite Hlen.
Qed.

Lemma scanVault_depth vault k t :
  tasks (scanVault toLowerCase F vault) !! k = Some t ->
  ∃ f d, vaultRows toLowerCase F vault !! k = Some (f, d) ∧ (depth t ≤ d)%nat.
Proof.
  intros Ht. destruct (scanVault_rows vault) as (R & X & -> & Hlen & _ & Hdep).
  pose proof (lookup_lt_Some _ _ _ Ht) as Hk. rewrite <- Hlen in Hk.
  destruct (lookup_lt_is_Some_2 _ _ Hk) as [[f d] Hr].
  exists f, d. split; [by rewrite lookup_app_l|]. by apply (Hdep k t f d).
Qed.

End NearestShallower.

Section HierarchyExtras.
Import JS.

(** The parent of a stored task is the nearest task before it in the same
    file whose line is indented less; a task is a root exactly when its file
    has no such line before it. *)
Theorem parent_is_nearest_shallower (toLowerCase : jsstring -> jsstring) (F : Flavor)
    (vault : list File) (k : nat) (t : Task) :
  tasks (scanVault toLowerCase F vault) !! k = Some t ->
  (∀ p, childOf (tasks (scanVault toLowerCase F vault)) p k
        <-> nearestShallower (vaultRows toLowerCase F vault) p k)
  ∧ (parent t = None <-> ∀ p, ¬ nearestShallower (vaultRows toLowerCase F vault) p k).
Proof.
  intros Ht. pose proof (lookup_lt_Some _ _ _ Ht) as Hk.
  pose proof (scanVault_wf toLowerCase F vault) as Hwf.
  split; [intros p; by apply scanVault_hier|]. split.
  - intros Hn p Hp%scanVault_hier; [|done]. destruct Hp as (tp & Htp & Hc).
    destruct (wf_link _ Hwf p k tp t Htp Hc Ht) as [Hpar _]. congruence.
  - intros Hno. destruct (parent t) as [pid|] eqn:Ep; [|done].
    destruct (wf_par _ Hwf k t Ht) as [p Hp]; [congruence|].
    apply scanVault_hier in Hp; [|done]. by destruct (Hno p).
Qed.

Lemma parent_is_nearest_shallower_witness :
  ∃ t, tasks (scanVault asciiLower Svg.flavor [Sample.notes]) !! 1%nat = Some t
       ∧ ∀ p, childOf (tasks (scanVault asciiLower Svg.flavor [Sample.notes])) p 1
              <-> nearestShallower (vaultRows asciiLower Svg.flavor [Sample.notes]) p 1.
Proof.
  destruct (tasks (scanVault asciiLower Svg.flavor [Sample.notes]) !! 1%nat)
    as [t|] eqn:E; [|by vm_compute in E].
  exists t. split; [reflexivity|].
  exact (proj1 (parent_is_nearest_shallower asciiLower Svg.flavor [Sample.notes] 1 t E)).
Defined.

End HierarchyExtras.

Section Tiling.
Context {T : nat -> nat -> Prop}.

Lemma TilesBy_le s cs e : TilesBy T s cs e -> (s ≤ e)%nat.
Proof. induction 1; lia. Qed.

Lemma TilesBy_impl (T' : nat -> nat -> Prop) s cs e :
  TilesBy T s cs e ->
  (∀ c m, (s ≤ c)%nat -> (c < m)%nat -> (m ≤ e)%nat -> T c m -> T' c m) ->
  TilesBy T' s cs e.
Proof.
  induction 1 as [s|c m cs e Hlt Ht Hrest IH]; intros Himp; [apply tiles_nil|].
  pose proof (TilesBy_le _ _ _ Hrest) as Hle.
  apply (tiles_cons _ c m); [done|apply Himp; (done || lia)|].
  apply IH. intros c' m' ? ? ?. apply Himp; lia.
Qed.

Lemma TilesBy_snoc s cs m e :
  TilesBy T s cs m -> (m < e)%nat -> T m e -> TilesBy T s (cs ++ [m]) e.
Proof.
  induction 1 as [s|c m' cs m Hlt Ht Hrest IH]; intros Hme Hm; simpl.
  - apply (tiles_cons _ s e); [done|done|apply tiles_nil].
  - apply (tiles_cons _ c m'); [done|done|by apply IH].
Qed.

Lemma TilesBy_snoc_inv s cs c e :
  TilesBy T s (cs ++ [c]) e -> TilesBy T s cs c ∧ (c < e)%nat ∧ T c e.
Proof.
  revert s. induction cs as [|c' cs IH]; intros s H; simpl in H.
  - inversion H as [|? m ? ? Hlt Ht Hrest]; subst. inversion Hrest; subst.
    split_and!; [apply tiles_nil|done|done].
  - inversion H as [|? m ? ? Hlt Ht Hrest]; subst.
    destruct (IH _ Hrest) as (H1 & H2 & H3). split_and!; [|done|done].
    by apply (tiles_cons _ _ m).
Qed.

End Tiling.

Section Order.
Variable toLowerCase : jsstring -> jsstring.
Variable F : Flavor.

Lemma Tree_lt ts c e : Tree ts c e -> (c < e)%nat.
Proof. intros H. inversion H as [? t ? Hl Ht]; subst. apply TilesBy_le in Ht. lia. Qed.

(** A subtree only depends on the positions it takes. *)
Lemma Tree_frame ts ts' n c e :
  (e - c ≤ n)%nat -> Tree ts c e ->
  (∀ j, (c ≤ j < e)%nat -> ts' !! j = ts !! j) -> Tree ts' c e.
Proof.
  revert c e. induction n as [|n IH]; intros c e Hn H Hsame.
  - apply Tree_lt in H. lia.
  - pose proof (Tree_lt _ _ _ H) as Hlt.
    inversion H as [? t ? Hl Ht]; subst.
    apply (tree_node _ _ t); [rewrite Hsame; [done|lia]|].
    eapply TilesBy_impl; [exact Ht|]. intros c' m' ? ? ? Hc'.
    apply IH; [lia|done|]. intros j Hj. apply Hsame. lia.
Qed.

Lemma TilesBy_frame ts ts' s cs e :
  TilesBy (Tree ts) s cs e ->
  (∀ j, (s ≤ j < e)%nat -> ts' !! j = ts !! j) ->
  TilesBy (Tree ts') s cs e.
Proof.
  intros H Hsame. eapply TilesBy_impl; [exact H|]. intros c m ? ? ? Hc.
  apply (Tree_frame ts ts' (m - c)); [lia|done|]. intros j Hj. apply Hsame. lia.
Qed.

Lemma rootRefs_snoc ts t :
  rootRefs (ts ++ [t])
  = rootRefs ts ++ (if truthy (parent t) then [] else [length ts]).
Proof.
  unfold rootRefs. rewrite imap_app, filter_app, fmap_app. f_equal. simpl.
  rewrite filter_cons, filter_nil. simpl. rewrite Nat.add_0_r.
  by destruct (truthy (parent t)).
Qed.

Lemma rootRefs_parents_gen (h : nat -> nat) (ts ts' : list Task) :
  parent <$> ts = parent <$> ts' ->
  (filter (fun it : nat * Task => negb (truthy (parent it.2)))
          (imap (fun i t => (h i, t)) ts)).*1
  = (filter (fun it : nat * Task => negb (truthy (parent it.2)))
            (imap (fun i t => (h i, t)) ts')).*1.
Proof.
  revert h ts'. induction ts as [|t ts IH]; intros h [|t' ts'] E; try done.
  simpl in E. injection E as Ep E. simpl.
  rewrite !filter_cons. simpl. rewrite Ep.
  pose proof (IH (fun x => h (S x)) ts' E) as IH'.
  case_decide; simpl; [f_equal|]; exact IH'.
Qed.

Lemma rootRefs_alter n p ts : rootRefs (alter (push_child n) p ts) = rootRefs ts.
Proof.
  unfold rootRefs. apply (rootRefs_parents_gen (fun i => i)).
  by apply fmap_alter_push_child.
Qed.

Lemma Spine_popStack ts d stk : Spine ts stk.*1 -> Spine ts (popStack d stk).*1.
Proof.
  induction stk as [|[p ind] rest IH]; simpl; [done|].
  intros H. case_bool_decide; [|done]. apply IH. by destruct H.
Qed.

Lemma Spine_lt ts c rest :
  WfStore ts -> Spine ts (c :: rest) -> Forall (fun q => (q < c)%nat) rest.
Proof.
  intros Hwf. revert c. induction rest as [|q rest IH]; intros c H; [constructor|].
  destruct H as [(t & Hq & Hlast) Hrest].
  assert (q < c)%nat as Hqc.
  { apply (wf_lt _ Hwf q c). exists t. split; [done|].
    apply last_Some in Hlast as [l' ->]. apply elem_of_app. right. apply list_elem_of_here. }
  constructor; [done|]. eapply Forall_impl; [by apply IH|]. simpl. intros; lia.
Qed.

Lemma Spine_frame ts ts' stk :
  Spine ts stk -> last (rootRefs ts') = last (rootRefs ts) ->
  (∀ q, q ∈ tail stk -> ts' !! q = ts !! q) -> Spine ts' stk.
Proof.
  intros H Hr. induction stk as [|c rest IH]; intros Hsame; [done|].
  destruct H as [H1 H2]. split.
  - destruct rest as [|p rest']; [by rewrite Hr|].
    destruct H1 as (t & Hp & Hl). exists t. split; [|done].
    rewrite Hsame; [done|]. apply list_elem_of_here.
  - apply IH; [done|]. intros q Hq. apply Hsame. simpl.
    destruct rest; [by apply elem_of_nil in Hq|]. simpl in Hq. by apply list_elem_of_further.
Qed.

Section Grow.
Variables (ts : list Task) (p : nat) (top t' : Task).
Hypothesis Hwf : WfStore ts.
Hypothesis Htop : ts !! p = Some top.
Hypothesis Hleaf : children t' = [].

Let n := length ts.
Let ts' := alter (push_child n) p ts ++ [t'].

Lemma grow_lookup_ne j : j ≠ p -> (j < n)%nat -> ts' !! j = ts !! j.
Proof.
  intros Hne Hj. unfold ts'. rewrite lookup_app_l by (rewrite length_alter; done).
  by rewrite list_lookup_alter_ne.
Qed.

Lemma grow_lookup_p : ts' !! p = Some (push_child n top).
Proof.
  pose proof (lookup_lt_Some _ _ _ Htop) as Hp.
  unfold ts'. rewrite lookup_app_l by (rewrite length_alter; done).
  rewrite list_lookup_alter, Htop. by case_decide.
Qed.

Lemma grow_lookup_n : ts' !! n = Some t'.
Proof.
  unfold ts', n. rewrite lookup_app_r by (rewrite length_alter; done).
  by rewrite length_alter, Nat.sub_diag.
Qed.

Lemma grow_new : Tree ts' n (S n).
Proof. apply (tree_node _ _ t'); [apply grow_lookup_n|]. rewrite Hleaf. apply tiles_nil. Qed.

Lemma grow_top : Tree ts p n -> Tree ts' p (S n).
Proof.
  intros H. inversion H as [? t ? Hl Ht]; subst. rewrite Htop in Hl. injection Hl as <-.
  apply (tree_node _ _ (push_child n top)); [apply grow_lookup_p|]. simpl.
  pose proof (lookup_lt_Some _ _ _ Htop) as Hp.
  apply TilesBy_snoc; [|lia|apply grow_new].
  eapply TilesBy_frame; [exact Ht|]. intros j Hj. apply grow_lookup_ne; lia.
Qed.

Lemma grow_step q tq c :
  ts !! q = Some tq -> last (children tq) = Some c -> (c ≤ p)%nat ->
  (Tree ts c n -> Tree ts' c (S n)) ->
  Tree ts q n -> Tree ts' q (S n).
Proof.
  intros Hq Hlast Hcp Hc H.
  assert (q < c)%nat as Hqc.
  { apply (wf_lt _ Hwf q c). exists tq. split; [done|].
    apply last_Some in Hlast as [l' ->]. apply elem_of_app. right. apply list_elem_of_here. }
  inversion H as [? t ? Hl Ht]; subst. rewrite Hq in Hl. injection Hl as <-.
  apply last_Some in Hlast as [cs Hcs]. rewrite Hcs in Ht.
  apply TilesBy_snoc_inv in Ht as (Ht1 & Hcn & Ht2).
  apply (tree_node _ _ tq); [rewrite grow_lookup_ne; [done|lia|lia]|].
  rewrite Hcs. apply TilesBy_snoc; [|lia|by apply Hc].
  eapply TilesBy_frame; [exact Ht1|]. intros j Hj. apply grow_lookup_ne; lia.
Qed.

Lemma grow_spine h rest :
  Spine ts (h :: rest) -> (h ≤ p)%nat -> (Tree ts h n -> Tree ts' h (S n)) ->
  ∃ b, last (rootRefs ts) = Some b ∧ (b ≤ p)%nat ∧ (Tree ts b n -> Tree ts' b (S n)).
Proof.
  revert h. induction rest as [|q rest IH]; intros h [H1 H2] Hh Hgrow.
  - by exists h.
  - destruct H1 as (tq & Hq & Hlast).
    assert (q < h)%nat as Hqh.
    { apply (wf_lt _ Hwf q h). exists tq. split; [done|].
      apply last_Some in Hlast as [l' ->]. apply elem_of_app. right. apply list_elem_of_here. }
    apply (IH q H2); [lia|]. by apply (grow_step q tq h).
Qed.

Lemma grow_forest rest :
  Spine ts (p :: rest) -> truthy (parent t') = true ->
  TilesBy (Tree ts) 0 (rootRefs ts) n ->
  TilesBy (Tree ts') 0 (rootRefs ts') (S n).
Proof.
  intros Hsp Hpar Hf.
  assert (rootRefs ts' = rootRefs ts) as ->.
  { unfold ts'. rewrite rootRefs_snoc, Hpar, app_nil_r. apply rootRefs_alter. }
  destruct (grow_spine p rest Hsp (le_n _) grow_top) as (b & Hb & Hbp & Hgrow).
  apply last_Some in Hb as [roots Hroots]. rewrite Hroots in *.
  apply TilesBy_snoc_inv in Hf as (Hf1 & Hbn & Hf2).
  apply TilesBy_snoc; [|lia|by apply Hgrow].
  eapply TilesBy_frame; [exact Hf1|]. intros j Hj. apply grow_lookup_ne; lia.
Qed.

End Grow.

Lemma scanLine_order f st i ln :
  ScanInv st -> OrderInv st -> OrderInv (scanLine toLowerCase F f st i ln).
Proof.
  intros [Hwf Hstk] [Hf Hsp]. unfold scanLine.
  destruct (limitReached F (tasks st)); [done|].
  destruct (extract toLowerCase F f i ln) as [[d0 t]|] eqn:E; [|done].
  pose proof E as (Hc & Hp & _ & _ & _ & Hid)%extract_fields.
  pose proof (Spine_popStack _ d0 _ Hsp) as Hsp'.
  pose proof (popStack_Forall _ d0 _ Hstk) as Hstk'.
  destruct (popStack d0 (stack st)) as [|[p dp] rest] eqn:Ep.
  - split; simpl.
    + rewrite rootRefs_snoc, Hp, length_app. simpl. rewrite Nat.add_1_r.
      apply TilesBy_snoc; [|lia|].
      * eapply TilesBy_frame; [exact Hf|]. intros j Hj. by rewrite lookup_app_l by lia.
      * apply (tree_node _ _ t); [by rewrite list_lookup_middle|]. rewrite Hc. apply tiles_nil.
    + split; [|done]. rewrite rootRefs_snoc, Hp. simpl. by rewrite last_snoc.
  - apply Forall_cons in Hstk' as [Hpn _]. simpl in Hpn.
    destruct (lookup_lt_is_Some_2 _ _ Hpn) as [top Htop]. rewrite Htop.
    assert (id top ≠ []) as Hidtop by (by eapply wf_ids).
    rewrite fmap_cons in Hsp'. cbn [fst] in Hsp'.
    split; cbn [tasks stack].
    + rewrite length_app, length_alter. cbn [length].
      replace (length (tasks st) + 1)%nat with (S (length (tasks st))) by lia.
      apply (grow_forest _ p top _ Hwf Htop) with (rest := rest.*1); try done.
      simpl. by destruct (id top).
    + rewrite !fmap_cons. cbn [fst]. split.
      * eexists. split; [by apply grow_lookup_p|]. simpl. by rewrite last_snoc.
      * pose proof (Spine_lt _ _ _ Hwf Hsp') as Hlt.
        apply (Spine_frame (tasks st)); [done| |].
        -- rewrite rootRefs_snoc. simpl. destruct (id top); [done|].
           simpl. by rewrite app_nil_r, rootRefs_alter.
        -- cbn [tail]. intros q Hq. eapply Forall_forall in Hlt; [|exact Hq].
           apply grow_lookup_ne; [lia|lia].
Qed.

Lemma scanLines_order f i lns st :
  ScanInv st -> OrderInv st -> OrderInv (scanLines toLowerCase F f i lns st).
Proof.
  revert i st. induction lns as [|ln lns IH]; intros i st H1 H2; simpl; [done|].
  apply IH; [by apply scanLine_inv|by apply scanLine_order].
Qed.

Lemma scanFiles_order files st :
  ScanInv st -> OrderInv st -> OrderInv (scanFiles toLowerCase F files st).
Proof.
  revert st. induction files as [|f files IH]; intros st H1 H2; simpl; [done|].
  destruct (limitReached F (tasks st)); [done|].
  assert (ScanInv {| tasks := tasks st; seenTags := seenTags st; stack := [] |}) as H0.
  { destruct H1. split; [done|constructor]. }
  apply IH.
  - by apply scanLines_inv.
  - apply scanLines_order; [done|]. destruct H2. by split.
Qed.

Lemma scanVault_order files :
  TilesBy (Tree (tasks (scanVault toLowerCase F files))) 0
    (rootRefs (tasks (scanVault toLowerCase F files)))
    (length (tasks (scanVault toLowerCase F files))).
Proof.
  apply scanFiles_order.
  - split; [apply wf_nil|constructor].
  - split; simpl; [apply tiles_nil|done].
Qed.

End Order.

Section Segments.

Lemma take_add {A} (a b : nat) (l : list A) :
  take (a + b) l = take a l ++ take b (drop a l).
Proof.
  revert l. induction a as [|a IH]; intros [|x l]; simpl; try done.
  - by rewrite take_nil.
  - by rewrite IH.
Qed.

Lemma seg_split c m e ts :
  (c ≤ m)%nat -> (m ≤ e)%nat -> seg c e ts = seg c m ts ++ seg m e ts.
Proof.
  intros H1 H2. unfold seg.
  replace (e - c)%nat with ((m - c) + (e - m))%nat by lia.
  rewrite take_add, drop_drop. do 3 f_equal. lia.
Qed.

Lemma seg_cons c e ts t :
  ts !! c = Some t -> (c < e)%nat -> seg c e ts = t :: seg (S c) e ts.
Proof.
  intros Hc Hlt. unfold seg. rewrite (drop_S _ _ _ Hc).
  replace (e - c)%nat with (S (e - S c)) by lia. done.
Qed.

Lemma seg_nil c ts : seg c c ts = [].
Proof. unfold seg. by rewrite Nat.sub_diag. Qed.

Lemma seg_all ts : seg 0 (length ts) ts = ts.
Proof. unfold seg. rewrite drop_0, Nat.sub_0_r. by apply take_ge. Qed.

End Segments.

Section Preorder.
Import Svg.
Variable v : View.
Variable ts : list Task.

(** [create] on a subtree pushes the nodes of the shown tasks of its
    positions, in the order of the positions. *)
Lemma create_tree fuel c e :
  Tree ts c e -> (e - c ≤ fuel)%nat ->
  ∃ ls, create fuel v ts c = Some (toNode markers <$> filter (shown v) (seg c e ts), ls).
Proof.
  revert c e. induction fuel as [|n IH]; intros c e H Hn.
  - apply Tree_lt in H. lia.
  - pose proof (Tree_lt _ _ _ H) as Hlt.
    inversion H as [? t ? Hl Ht]; subst.
    assert (∀ s cs e', TilesBy (Tree ts) s cs e' -> (c < s)%nat -> (e' - c ≤ S n)%nat ->
              ∃ subs, mapM (visit (create n v ts) v ts t) cs = Some subs
                      ∧ concat (subs.*1) = toNode markers <$> filter (shown v) (seg s e' ts))
      as Hsubs.
    { clear -IH. intros s cs e' Ht.
      induction Ht as [s|c' m cs e' Hcm Hc' Hrest IHt]; intros Hs He.
      - exists []. split; [done|]. by rewrite seg_nil.
      - pose proof (TilesBy_le _ _ _ Hrest) as Hme.
        destruct (IH c' m Hc') as [ls Hcr]; [lia|].
        destruct IHt as (subs & Hm & Hcat); [lia|lia|].
        inversion Hc' as [? ct ? Hlc _]; subst.
        assert (∃ ls', visit (create n v ts) v ts t c'
                       = Some (toNode markers <$> filter (shown v) (seg c' m ts), ls'))
          as [ls' Hv].
        { unfold visit. rewrite Hlc, Hcr. cbn. eauto. }
        eexists. split.
        + cbn [mapM]. rewrite Hv. cbn. rewrite Hm. cbn. reflexivity.
        + cbn. rewrite Hcat, (seg_split c' m e') by lia.
          by rewrite filter_app, fmap_app. }
    destruct (Hsubs (S c) (children t) e Ht) as (subs & Hm & Hcat); [lia|lia|].
    eexists. cbn [create]. rewrite Hl. cbn. rewrite Hm. cbn.
    rewrite Hcat, (seg_cons c e ts t) by done. rewrite filter_cons.
    destruct (shown v t); simpl; reflexivity.
Qed.

Lemma create_forest fuel s cs e :
  TilesBy (Tree ts) s cs e -> (e - s ≤ fuel)%nat ->
  ∃ made, mapM (create fuel v ts) cs = Some made
          ∧ concat (made.*1) = toNode markers <$> filter (shown v) (seg s e ts).
Proof.
  induction 1 as [s|c m cs e Hcm Hc Hrest IHt]; intros Hn.
  - exists []. split; [done|]. by rewrite seg_nil.
  - pose proof (TilesBy_le _ _ _ Hrest) as Hme.
    destruct (create_tree fuel c m Hc) as [ls Hcr]; [lia|].
    destruct IHt as (made & Hm & Hcat); [lia|].
    eexists. split.
    + cbn [mapM]. rewrite Hcr. cbn. rewrite Hm. cbn. reflexivity.
    + cbn. rewrite Hcat, (seg_split c m e) by lia. by rewrite filter_app, fmap_app.
Qed.

End Preorder.

Section OrderedNodes.
Import Svg.

Lemma processTasks_nodes_ordered ts v v' :
  TilesBy (Tree ts) 0 (rootRefs ts) (length ts) ->
  processTasks ts v = Some v' ->
  nodes (data v') = toNode markers <$> filter (shown v) ts.
Proof.
  intros Ht H. apply processTasks_inv in H as (ids & made & _ & Hm & ->). simpl.
  destruct (create_forest v ts _ _ _ _ Ht (Nat.le_sub_l _ _)) as (made' & Hm' & Hcat).
  rewrite Hm in Hm'. injection Hm' as <-. by rewrite Hcat, seg_all.
Qed.

Lemma filter_sublist_mono {A} (P Q : A -> Prop)
    `{∀ x, Decision (P x)} `{∀ x, Decision (Q x)} (l : list A) :
  (∀ x, P x -> Q x) -> filter P l `sublist_of` filter Q l.
Proof.
  intros HPQ. induction l as [|x l IH]; [done|]. rewrite !filter_cons.
  destruct (decide (P x)) as [HP|HP], (decide (Q x)) as [HQ|HQ].
  - by apply sublist_skip.
  - by destruct HQ; apply HPQ.
  - by apply sublist_cons.
  - done.
Qed.

Lemma shown_tick v tag t :
  selectedTags v ≠ ∅ ∨ showWithoutTags v = true ->
  shown v t = true -> shown (tagChanged tag true v) t = true.
Proof.
  intros Hsel. rewrite !shown_spec. unfold visibleA, tagPredicate. simpl.
  intros (H1 & H2 & H3). split_and!; [done|done|].
  rewrite bool_decide_eq_false_2 in H3 by (intros [? ?]; destruct Hsel; congruence).
  rewrite bool_decide_eq_false_2.
  - destruct H3 as [(tg & ? & ?)|?]; [left|by right].
    exists tg. split; [done|]. apply elem_of_union. by right.
  - intros [He _]. assert (tag ∈ ({[tag]} ∪ selectedTags v)) as Hin.
    { apply elem_of_union. left. by apply elem_of_singleton. }
    rewrite He in Hin. by apply not_elem_of_empty in Hin.
Qed.

End OrderedNodes.

Section OrderExtras.
Import JS.

(** The nodes of the SVG graph are the shown tasks in document order: file
    by file and line by line, whatever the nesting. *)
Theorem svg_nodes_in_document_order (toLowerCase : jsstring -> jsstring)
    (vault : list File) (v v' : View) :
  Svg.collectTasks toLowerCase vault v = Some v' ->
  nodes (data v')
  = toNode Svg.markers <$> filter (Svg.shown v) (tasks (scanVault toLowerCase Svg.flavor vault)).
Proof.
  unfold Svg.collectTasks. intros H.
  apply processTasks_nodes_ordered in H; [|apply scanVault_order].
  exact H.
Qed.

Lemma svg_nodes_in_document_order_witness :
  ∃ v', Svg.collectTasks asciiLower [Sample.notes] Sample.view0 = Some v'
        ∧ nodes (data v')
          = toNode Svg.markers
              <$> filter (Svg.shown Sample.view0)
                    (tasks (scanVault asciiLower Svg.flavor [Sample.notes])).
Proof.
  destruct (collectTasks_total asciiLower [Sample.notes] Sample.view0) as [v' H].
  exists v'. split; [exact H|].
  exact (svg_nodes_in_document_order asciiLower [Sample.notes] Sample.view0 v' H).
Defined.

(** With a tag filter in force, ticking one more tag never takes a node
    away: the nodes of the SVG graph before are a sublist of those after. *)
Theorem ticking_a_tag_adds_nodes (toLowerCase : jsstring -> jsstring)
    (vault : list File) (v v1 v2 : View) (tag : jsstring) :
  selectedTags v ≠ ∅ ∨ showWithoutTags v = true ->
  Svg.collectTasks toLowerCase vault v = Some v1 ->
  Svg.collectTasks toLowerCase vault (tagChanged tag true v) = Some v2 ->
  nodes (data v1) `sublist_of` nodes (data v2).
Proof.
  unfold Svg.collectTasks. intros Hsel H1 H2.
  apply processTasks_nodes_ordered in H1; [|apply scanVault_order].
  apply processTasks_nodes_ordered in H2; [|apply scanVault_order].
  rewrite H1, H2. apply fmap_sublist, filter_sublist_mono.
  intros t Ht. apply Is_true_true. apply Is_true_true in Ht.
  by apply (shown_tick v tag t Hsel).
Qed.

Lemma ticking_a_tag_adds_nodes_witness :
  ∃ v1 v2,
    Svg.collectTasks asciiLower [Sample.notes] Sample.viewX = Some v1
    ∧ Svg.collectTasks asciiLower [Sample.notes]
        (tagChanged (utf16 "#y") true Sample.viewX) = Some v2
    ∧ nodes (data v1) `sublist_of` nodes (data v2).
Proof.
  destruct (collectTasks_total asciiLower [Sample.notes] Sample.viewX) as [v1 H1].
  destruct (collectTasks_total asciiLower [Sample.notes]
              (tagChanged (utf16 "#y") true Sample.viewX)) as [v2 H2].
  exists v1, v2. split_and!; [exact H1|exact H2|].
  apply (ticking_a_tag_adds_nodes asciiLower [Sample.notes] Sample.viewX v1 v2 (utf16 "#y"));
    [|exact H1|exact H2].
  left. intros He. apply (not_elem_of_empty (C:=gset jsstring) (utf16 "#x")).
  rewrite <- He. change (utf16 "#x" ∈ ({[utf16 "#x"]} : gset jsstring)).
  apply elem_of_singleton. reflexivity.
Defined.

End OrderExtras.

Section LayoutExtras.
Import JS.

(** Every node of the SVG graph is drawn with opacity 1: the branch of
    [renderGraph] that hides a completed node is never taken, since
    [processTasks] emits no completed task when "Show completed" is off. *)
Theorem svg_nodes_never_transparent (ts : list Task) (v v' : View) (n : TaskNode) :
  Svg.processTasks ts v = Some v' -> n ∈ nodes (data v') ->
  Layout.opacity v' n = 1%Z.
Proof.
  intros H Hn.
  destruct (processTasks_nodes_sound _ _ _ _ H Hn) as (t & _ & Hs & ->).
  apply processTasks_inv in H as (? & ? & _ & _ & ->).
  unfold Layout.opacity, Svg.shown in *. simpl.
  apply andb_true_iff in Hs as [[Hc _]%andb_true_iff _].
  by destruct (completed t), (showCompleted v).
Qed.

Lemma svg_nodes_never_transparent_witness :
  let ts := tasks (scanVault asciiLower Svg.flavor [Sample.notes]) in
  ∃ v', Svg.processTasks ts MoreViews.hideCompleted = Some v'
        ∧ nodes (data v') ≠ []
        ∧ ∀ n, n ∈ nodes (data v') -> Layout.opacity v' n = 1%Z.
Proof.
  intros ts.
  destruct (Svg.processTasks ts MoreViews.hideCompleted) as [v'|] eqn:H;
    [|by vm_compute in H].
  exists v'. split_and!; [reflexivity| |].
  - vm_compute in H. injection H as <-. discriminate.
  - intros n. exact (svg_nodes_never_transparent ts MoreViews.hideCompleted v' n H).
Defined.

(** The nodes that the SVG view places on the circle are the shown tasks
    without a parent. *)
Theorem svg_circle_holds_parentless (toLowerCase : jsstring -> jsstring)
    (vault : list File) (v v' : View) (n : TaskNode) :
  Svg.collectTasks toLowerCase vault v = Some v' ->
  n ∈ Layout.circleRoots (data v')
  <-> ∃ t, t ∈ tasks (scanVault toLowerCase Svg.flavor vault)
           ∧ Svg.shown v t = true ∧ parent t = None ∧ n = toNode Svg.markers t.
Proof.
  unfold Svg.collectTasks. intros H.
  pose proof (scanVault_wf toLowerCase Svg.flavor vault) as Hwf.
  assert (∀ t, t ∈ tasks (scanVault toLowerCase Svg.flavor vault) ->
               depth t = 0%nat <-> parent t = None) as Hroot.
  { intros t [c Hc]%list_elem_of_lookup. split.
    - intros Hd. destruct (parent t) as [pid|] eqn:Ep; [|done].
      destruct (wf_par _ Hwf c t Hc) as [p (tp & Hp & Hin)]; [congruence|].
      destruct (wf_link _ Hwf p c tp t Hp Hin Hc) as [_ Hd']. lia.
    - by apply (wf_root _ Hwf c). }
  unfold Layout.circleRoots. rewrite list_elem_of_filter, bool_decide_spec. split.
  - intros [Hd (t & Ht & Hs & ->)%(processTasks_nodes_sound _ _ _ _ H)].
    exists t. split_and!; [done|done| |done]. exact (proj1 (Hroot t Ht) Hd).
  - intros (t & Ht & Hs & Hp & ->). split; [exact (proj2 (Hroot t Ht) Hp)|].
    by eapply processTasks_nodes_complete.
Qed.

Lemma svg_circle_holds_parentless_witness :
  ∃ v' t,
    Svg.collectTasks asciiLower [Sample.notes] Sample.view0 = Some v'
    ∧ tasks (scanVault asciiLower Svg.flavor [Sample.notes]) !! 0%nat = Some t
    ∧ toNode Svg.markers t ∈ Layout.circleRoots (data v').
Proof.
  destruct (collectTasks_total asciiLower [Sample.notes] Sample.view0) as [v' H].
  destruct (tasks (scanVault asciiLower Svg.flavor [Sample.notes]) !! 0%nat)
    as [t|] eqn:E; [|by vm_compute in E].
  exists v', t. split_and!; [exact H|reflexivity|].
  apply (svg_circle_holds_parentless asciiLower [Sample.notes] Sample.view0 v' _ H).
  exists t. split_and!; [by eapply list_elem_of_lookup_2| | |reflexivity].
  - vm_compute in E. by injection E as <-.
  - vm_compute in E. by injection E as <-.
Defined.

(** A task limit of zero or less is accepted by the limit input, and the
    canvas view then collects nothing: no node, no link, no tag. *)
Theorem nonpositive_limit_empties_canvas (toLowerCase : jsstring -> jsstring)
    (vault : list File) (v : View) (l : Z) :
  (l ≤ 0)%Z ->
  taskLimit (limitChanged (Some l) v) = l
  ∧ data (Canvas.collectTasks toLowerCase vault (limitChanged (Some l) v))
    = {| nodes := []; links := [] |}
  ∧ allTags (Canvas.collectTasks toLowerCase vault (limitChanged (Some l) v)) = ∅.
Proof.
  intros Hl.
  assert (scanVault toLowerCase (Canvas.flavor l) vault
          = {| tasks := []; seenTags := ∅; stack := [] |}) as Hscan.
  { unfold scanVault. destruct vault as [|f files]; [done|]. cbn [scanFiles].
    unfold limitReached. simpl. by rewrite bool_decide_eq_true_2 by lia. }
  unfold Canvas.collectTasks. simpl. rewrite Hscan. done.
Qed.

Lemma nonpositive_limit_empties_canvas_witness :
  (0 ≤ 0)%Z
  ∧ data (Canvas.collectTasks asciiLower [Sample.notes] (limitChanged (Some 0%Z) Sample.view0))
    = {| nodes := []; links := [] |}.
Proof.
  split; [lia|].
  exact (proj1 (proj2 (nonpositive_limit_empties_canvas asciiLower [Sample.notes]
                         Sample.view0 0 (Z.le_refl 0)))).
Defined.

(** No task is nested deeper than its line is indented; so the circle of a
    task on a line indented by at most 8 units has a positive radius. *)
Theorem depth_at_most_indentation (toLowerCase : jsstring -> jsstring) (F : Flavor)
    (vault : list File) (k : nat) (t : Task) :
  tasks (scanVault toLowerCase F vault) !! k = Some t ->
  ∃ f d, vaultRows toLowerCase F vault !! k = Some (f, d)
         ∧ (depth t ≤ d)%nat
         ∧ ((d ≤ 8)%nat -> (0 < Layout.radius (toNode (marks F) t))%Z).
Proof.
  intros Ht. destruct (scanVault_depth toLowerCase F vault k t Ht) as (f & d & Hr & Hd).
  exists f, d. split_and!; [done|done|].
  intros H8. unfold Layout.radius. simpl. lia.
Qed.

Lemma depth_at_most_indentation_witness :
  ∃ t f d,
    tasks (scanVault asciiLower Svg.flavor [Sample.notes]) !! 1%nat = Some t
    ∧ vaultRows asciiLower Svg.flavor [Sample.notes] !! 1%nat = Some (f, d)
    ∧ (depth t ≤ d)%nat.
Proof.
  destruct (tasks (scanVault asciiLower Svg.flavor [Sample.notes]) !! 1%nat)
    as [t|] eqn:E; [|by vm_compute in E].
  destruct (depth_at_most_indentation asciiLower Svg.flavor [Sample.notes] 1 t E)
    as (f & d & Hr & Hd & _).
  exists t, f, d. split_and!; [reflexivity|exact Hr|exact Hd].
Defined.

End LayoutExtras.

Section SvgLinks.
Import Svg.
Variable v : View.
Variable ts : list Task.

(** Every link that [create] pushes joins a stored task to one of its
    children. *)
Lemma create_links_from_children fuel u ns ls l :
  create fuel v ts u = Some (ns, ls) -> l ∈ ls ->
  ∃ p c tp tc, ts !! p = Some tp ∧ c ∈ children tp ∧ ts !! c = Some tc
    ∧ linked v tp tc = true
    ∧ l = {| source := id tp; target := id tc; type := hierarchy |}.
Proof.
  revert u ns ls. induction fuel as [|k IH]; intros u ns ls; [done|].
  intros (t & subs & Ht & Hm & -> & ->)%create_inv Hl.
  apply elem_of_concat in Hl as (ll & Hll & Hl).
  apply list_elem_of_fmap in Hll as (g & -> & Hg).
  destruct (mapM_elem_r _ _ _ _ Hm Hg) as (c & Hcin & Hc).
  apply visit_inv in Hc as (ct & [sn sl] & Hct & Hrec & ->).
  simpl in Hl. apply elem_of_app in Hl as [Hl|Hl].
  - destruct (linked v t ct) eqn:El; [|by apply elem_of_nil in Hl].
    apply list_elem_of_singleton in Hl as ->. by exists u, c, t, ct.
  - by eapply IH.
Qed.

(** [create] pushes the link to every child below its argument that passes
    the link condition. *)
Lemma create_links_complete fuel u ns ls p c tp tc :
  create fuel v ts u = Some (ns, ls) ->
  rtc (childOf ts) u p -> ts !! p = Some tp -> c ∈ children tp -> ts !! c = Some tc ->
  linked v tp tc = true ->
  {| source := id tp; target := id tc; type := hierarchy |} ∈ ls.
Proof.
  revert u ns ls. induction fuel as [|k IH]; intros u ns ls; [done|].
  intros (tu & subs & Htu & Hm & -> & ->)%create_inv Hreach Hp Hc Htc Hl.
  apply elem_of_concat.
  apply rtc_inv in Hreach as [->|(c' & (tu' & Htu' & Hin) & Hreach)].
  - assert (tu = tp) as -> by congruence.
    destruct (mapM_elem_l _ _ _ _ Hm Hc) as (g & Hg & Hv).
    apply visit_inv in Hv as (ct & sub & Hct & _ & ->).
    assert (ct = tc) as -> by congruence.
    eexists. split; [apply list_elem_of_fmap; eexists; split; [|exact Hg]; done|].
    simpl. rewrite Hl. apply elem_of_app. left. apply list_elem_of_here.
  - assert (tu' = tu) as -> by congruence.
    destruct (mapM_elem_l _ _ _ _ Hm Hin) as (g & Hg & Hv).
    apply visit_inv in Hv as (ct & [sn sl] & _ & Hrec & ->).
    eexists. split; [apply list_elem_of_fmap; eexists; split; [|exact Hg]; done|].
    simpl. apply elem_of_app. right. by eapply IH.
Qed.

(** [collect] adds the id of every task below its argument. *)
Lemma collect_complete fuel u ids q t :
  collect fuel ts u = Some ids -> rtc (childOf ts) u q -> ts !! q = Some t ->
  id t ∈ ids.
Proof.
  revert u ids. induction fuel as [|k IH]; intros u ids; [done|].
  intros (tu & sub & Htu & Hm & ->)%collect_inv Hreach Hq.
  apply rtc_inv in Hreach as [->|(c & (tu' & Htu' & Hin) & Hreach)].
  - assert (tu = t) as -> by congruence. apply list_elem_of_here.
  - assert (tu' = tu) as -> by congruence. apply list_elem_of_further.
    destruct (mapM_elem_l _ _ _ _ Hm Hin) as (g & Hg & Hc).
    apply elem_of_concat. exists g. split; [done|]. by eapply IH.
Qed.

Lemma dependencies_spec (allIds visible : gset jsstring) t l :
  l ∈ dependencies v allIds visible t
  <-> ∃ b, b ∈ blockers t ∧ showBlocked v = true
           ∧ b ∈ allIds ∧ b ∈ visible ∧ id t ∈ visible
           ∧ l = {| source := b; target := id t; type := dependency |}.
Proof.
  unfold dependencies. split.
  - destruct (negb (showBlocked v) && _) eqn:Eg; [by intros ?%elem_of_nil|].
    intros (b & Hl & Hb)%list_elem_of_bind.
    destruct (bool_decide (b ∈ allIds)) eqn:E1; [|by apply elem_of_nil in Hl].
    destruct (bool_decide (b ∈ visible)) eqn:E2; [|by apply elem_of_nil in Hl].
    destruct (bool_decide (id t ∈ visible)) eqn:E3; [|by apply elem_of_nil in Hl].
    apply list_elem_of_singleton in Hl as ->.
    apply bool_decide_eq_true in E1, E2, E3.
    exists b. split_and!; try done.
    destruct (showBlocked v); [done|]. simpl in Eg.
    apply bool_decide_eq_false in Eg. destruct Eg. intros Hlen.
    destruct (blockers t); [by apply elem_of_nil in Hb|done].
  - intros (b & Hb & Hsb & H1 & H2 & H3 & ->). rewrite Hsb. simpl.
    apply list_elem_of_bind. exists b. split; [|done].
    rewrite !bool_decide_eq_true_2 by done. apply list_elem_of_here.
Qed.

End SvgLinks.

Section LinksExtras.
Import JS.

(** The links of the SVG graph, exactly: a hierarchy link from a task to
    each of its children for which both pass the completed and blocked
    settings of the link, and, with "Show blocked" on, a dependency link from
    each blocker id to the task for which both ids are ids of nodes.  The
    test against [allIds] never decides. *)
Theorem svg_links_exact (toLowerCase : jsstring -> jsstring)
    (vault : list File) (v v' : View) (l : TaskLink) :
  Svg.collectTasks toLowerCase vault v = Some v' ->
  l ∈ links (data v')
  <-> (∃ p c tp tc,
         tasks (scanVault toLowerCase Svg.flavor vault) !! p = Some tp
         ∧ c ∈ children tp
         ∧ tasks (scanVault toLowerCase Svg.flavor vault) !! c = Some tc
         ∧ Svg.linked v tp tc = true
         ∧ l = {| source := id tp; target := id tc; type := hierarchy |})
      ∨ (∃ t b,
           t ∈ tasks (scanVault toLowerCase Svg.flavor vault) ∧ b ∈ blockers t
           ∧ showBlocked v = true
           ∧ b ∈ id <$> nodes (data v') ∧ id t ∈ id <$> nodes (data v')
           ∧ l = {| source := b; target := id t; type := dependency |}).
Proof.
  unfold Svg.collectTasks. set (ts := tasks (scanVault toLowerCase Svg.flavor vault)).
  set (v0 := set_allTags _ v). intros H.
  pose proof (scanVault_wf toLowerCase Svg.flavor vault) as Hwf. fold ts in Hwf.
  pose proof H as (ids & made & Hids & Hm & Hv')%processTasks_inv.
  assert (∀ b, b ∈ id <$> nodes (data v') ->
               b ∈ (list_to_set (concat ids) : gset jsstring)) as Hall.
  { intros b (n & -> & Hn)%list_elem_of_fmap.
    destruct (processTasks_nodes_sound _ _ _ _ H Hn) as (t & Ht & _ & ->).
    apply list_elem_of_lookup in Ht as [q Hq].
    destruct (reach_from_root ts q t Hwf Hq) as (r & Hr & Hreach).
    destruct (mapM_elem_l _ _ _ _ Hids Hr) as (g & Hg & Hc).
    apply elem_of_list_to_set, elem_of_concat. exists g. split; [done|].
    change (id (toNode Svg.markers t)) with (id t).
    exact (collect_complete ts _ r g q t Hc Hreach Hq). }
  rewrite Hv' in *. cbn [data links nodes set_data] in *.
  rewrite elem_of_app. split.
  - intros [Hl|Hl]; [left|right].
    + apply elem_of_concat in Hl as (ls & Hls & Hl).
      apply list_elem_of_fmap in Hls as ([ns ls'] & -> & Hg).
      destruct (mapM_elem_r _ _ _ _ Hm Hg) as (u & _ & Hc).
      destruct (create_links_from_children v0 ts _ _ _ _ _ Hc Hl)
        as (p & c & tp & tc & ? & ? & ? & ? & ?).
      by exists p, c, tp, tc.
    + apply list_elem_of_bind in Hl as (t & Hl & Ht).
      apply dependencies_spec in Hl as (b & Hb & Hsb & _ & H2 & H3 & ->).
      apply elem_of_list_to_set in H2, H3. by exists t, b.
  - intros [(p & c & tp & tc & Hp & Hc & Htc & Hl & ->)
           |(t & b & Ht & Hb & Hsb & H2 & H3 & ->)]; [left|right].
    + destruct (reach_from_root ts p tp Hwf Hp) as (r & Hr & Hreach).
      destruct (mapM_elem_l _ _ _ _ Hm Hr) as ([ns ls] & Hg & Hcr).
      apply elem_of_concat. exists ls. split.
      * apply list_elem_of_fmap. by exists (ns, ls).
      * exact (create_links_complete v0 ts _ r ns ls p c tp tc Hcr Hreach Hp Hc Htc Hl).
    + apply list_elem_of_bind. exists t. split; [|done].
      apply dependencies_spec. exists b. split_and!; try done.
      * by apply Hall.
      * by apply elem_of_list_to_set.
      * by apply elem_of_list_to_set.
Qed.

Lemma svg_links_exact_witness :
  ∃ v', Svg.collectTasks asciiLower [Sample.notes] Sample.view0 = Some v'
        ∧ {| source := utf16 "task-notes.md-0"; target := utf16 "task-notes.md-1";
             type := hierarchy |} ∈ links (data v').
Proof.
  destruct (collectTasks_total asciiLower [Sample.notes] Sample.view0) as [v' H].
  exists v'. split; [exact H|].
  apply (svg_links_exact asciiLower [Sample.notes] Sample.view0 v' _ H).
  left.
  destruct (tasks (scanVault asciiLower Svg.flavor [Sample.notes]) !! 0%nat)
    as [tp|] eqn:Ep; [|by vm_compute in Ep].
  destruct (tasks (scanVault asciiLower Svg.flavor [Sample.notes]) !! 1%nat)
    as [tc|] eqn:Ec; [|by vm_compute in Ec].
  exists 0%nat, 1%nat, tp, tc.
  vm_compute in Ep. injection Ep as <-. vm_compute in Ec. injection Ec as <-.
  split_and!; [reflexivity| |reflexivity|reflexivity|reflexivity].
  apply list_elem_of_here.
Defined.

(** The links of the canvas graph, exactly: for every task whose id is the
    id of a node, a hierarchy link from its parent id if that is the id of a
    node, and a dependency link from each blocker id that is the id of a
    node.  The test against [allIds] never decides. *)
Theorem canvas_links_exact (ts : list Task) (v : View) (l : TaskLink) :
  let g := data (Canvas.processTasks ts v) in
  l ∈ links g
  <-> ∃ t, t ∈ ts ∧ id t ∈ id <$> nodes g
           ∧ ((∃ p, parent t = Some p ∧ p ≠ [] ∧ p ∈ id <$> nodes g
                    ∧ l = {| source := p; target := id t; type := hierarchy |})
              ∨ (∃ b, b ∈ blockers t ∧ b ∈ id <$> nodes g
                      ∧ l = {| source := b; target := id t; type := dependency |})).
Proof.
  intros g.
  assert (∀ n, n ∈ nodes g -> ∃ t, t ∈ ts ∧ n = toNode Canvas.markers t) as Hnodes.
  { intros n. apply canvas_nodes_from_tasks. }
  set (P := fun t : Task =>
    bool_decide (id t ∈ (list_to_set (id <$> filter Canvas.wanted ts) : gset jsstring))
    || bool_decide (id t ∈ (list_to_set
         (id <$> filter (Canvas.linksToWanted (Canvas.wantBlockIds ts)) ts) : gset jsstring))).
  assert (nodes g = toNode Canvas.markers <$> filter P ts) as Hn by done.
  assert (∀ t, t ∈ filter P ts <-> t ∈ ts ∧ id t ∈ id <$> nodes g) as Hfil.
  { intros t. rewrite list_elem_of_filter, Hn. split.
    - intros [HP Ht]. split; [done|]. apply list_elem_of_fmap.
      exists (toNode Canvas.markers t). split; [done|].
      apply list_elem_of_fmap. exists t. split; [done|]. by apply list_elem_of_filter.
    - intros [Ht (n & Hid & (u & -> & [HP Hu]%list_elem_of_filter)%list_elem_of_fmap)
                %list_elem_of_fmap].
      split; [|done]. unfold P in *. change (id (toNode Canvas.markers u)) with (id u) in Hid.
      by rewrite Hid. }
  set (visible := (list_to_set (id <$> nodes g) : gset jsstring)).
  set (allIds := (list_to_set (id <$> ts) : gset jsstring)).
  assert (links g = filter P ts ≫= Canvas.linksOf allIds visible) as -> by done.
  assert (∀ x, x ∈ visible <-> x ∈ id <$> nodes g) as Hvis.
  { intros x. apply elem_of_list_to_set. }
  assert (∀ x, x ∈ id <$> nodes g -> x ∈ allIds) as Hall.
  { intros x (n & -> & (t & Ht & ->)%Hnodes)%list_elem_of_fmap.
    apply elem_of_list_to_set, list_elem_of_fmap. by exists t. }
  rewrite list_elem_of_bind. split.
  - intros (t & Hl & [Ht Hid]%Hfil). exists t. split_and!; [done|done|].
    unfold Canvas.linksOf in Hl. apply elem_of_app in Hl as [Hl|Hl]; [left|right].
    + destruct (parent t) as [p|] eqn:Ep; [|by apply elem_of_nil in Hl].
      destruct (truthy (Some p)) eqn:Et; [|by apply elem_of_nil in Hl]. simpl in Hl.
      case_bool_decide as Hp; [|by apply elem_of_nil in Hl].
      apply list_elem_of_singleton in Hl as ->. exists p. split_and!; try done.
      * intros ->. done.
      * by apply Hvis.
    + apply list_elem_of_bind in Hl as (b & Hl & Hb).
      destruct (bool_decide (b ∈ allIds)) eqn:E1; [|by apply elem_of_nil in Hl].
      destruct (bool_decide (b ∈ visible)) eqn:E2; [|by apply elem_of_nil in Hl].
      destruct (bool_decide (id t ∈ visible)) eqn:E3; [|by apply elem_of_nil in Hl].
      apply list_elem_of_singleton in Hl as ->. apply bool_decide_eq_true in E2.
      exists b. split_and!; [done| |done]. by apply Hvis.
  - intros (t & Ht & Hid & Hcase). exists t. split; [|by apply Hfil].
    unfold Canvas.linksOf. apply elem_of_app.
    destruct Hcase as [(p & Hp & Hne & Hpv & ->)|(b & Hb & Hbv & ->)]; [left|right].
    + rewrite Hp. assert (truthy (Some p) = true) as -> by (by destruct p).
      simpl. rewrite bool_decide_eq_true_2 by (by apply Hvis). apply list_elem_of_here.
    + apply list_elem_of_bind. exists b. split; [|done].
      rewrite !bool_decide_eq_true_2; [apply list_elem_of_here|by apply Hvis..|by apply Hall].
Qed.

End LinksExtras.

Section Dates.
Import JS Regex.

(** A match of [<mark>\s*(\d{4}-\d{2}-\d{2})]: its group is date-shaped. *)
Lemma dateMarkRe_exec mark i s m :
  exec_at (dateMarkRe mark) i s = Some m -> DateShape (group 0 m).
Proof.
  unfold exec_at, dateMarkRe. simpl. intros H.
  apply lits_split in H as (s1 & -> & H).
  apply star_split in H as (ws & s2 & -> & _ & H).
  destruct s2 as [|y1 s2]; [done|]. simpl in H. destruct (isDigit y1) eqn:E1; [|done].
  destruct s2 as [|y2 s2]; [done|]. simpl in H. destruct (isDigit y2) eqn:E2; [|done].
  destruct s2 as [|y3 s2]; [done|]. simpl in H. destruct (isDigit y3) eqn:E3; [|done].
  destruct s2 as [|y4 s2]; [done|]. simpl in H. destruct (isDigit y4) eqn:E4; [|done].
  destruct s2 as [|c1 s2]; [done|]. simpl in H. destruct (N.eqb_spec c1 0x2D) as [->|]; [|done].
  destruct s2 as [|m1 s2]; [done|]. simpl in H. destruct (isDigit m1) eqn:E5; [|done].
  destruct s2 as [|m2 s2]; [done|]. simpl in H. destruct (isDigit m2) eqn:E6; [|done].
  destruct s2 as [|c2 s2]; [done|]. simpl in H. destruct (N.eqb_spec c2 0x2D) as [->|]; [|done].
  destruct s2 as [|d1 s2]; [done|]. simpl in H. destruct (isDigit d1) eqn:E7; [|done].
  destruct s2 as [|d2 s2]; [done|]. simpl in H. destruct (isDigit d2) eqn:E8; [|done].
  injection H as <-. unfold group. simpl.
  match goal with
  | |- context [take ?n _] => replace n with 10%nat by lia
  end.
  simpl. unfold DateShape. do 8 eexists. split; [reflexivity|].
  by repeat constructor.
Qed.

Lemma extract_dates toLowerCase F f i ln ind t :
  extract toLowerCase F f i ln = Some (ind, t) ->
  (∃ s, scheduled t = group 0 <$> match1 (dateMarkRe (schedMark (marks F))) s)
  ∧ (∃ s, start t = group 0 <$> match1 (dateMarkRe (startMark (marks F))) s).
Proof.
  unfold extract. destruct (match1 checklistRe _) as [m|] eqn:E; [|done].
  intros [= <- <-]. simpl. eauto.
Qed.

(** The scheduled and the start date of a task, when present, are ten units
    of the shape [dddd-dd-dd]; month and day are not checked further. *)
Theorem extract_dates_shape (toLowerCase : jsstring -> jsstring) (F : Flavor)
    (f : File) (i : nat) (ln : jsstring) (ind : nat) (t : Task) (s : jsstring) :
  extract toLowerCase F f i ln = Some (ind, t) ->
  scheduled t = Some s ∨ start t = Some s ->
  DateShape s.
Proof.
  intros [[s1 H1] [s2 H2]]%extract_dates [Hs|Hs].
  - rewrite Hs in H1. destruct (match1 _ s1) as [m|] eqn:Em; [|done].
    injection H1 as ->. apply search_at in Em as (j & s' & Hex).
    by eapply dateMarkRe_exec.
  - rewrite Hs in H2. destruct (match1 _ s2) as [m|] eqn:Em; [|done].
    injection H2 as ->. apply search_at in Em as (j & s' & Hex).
    by eapply dateMarkRe_exec.
Qed.

Lemma extract_dates_shape_witness :
  ∃ t, extract asciiLower (Canvas.flavor 500) Sample.notes 0
         (utf16 "- [ ] pay rent ⏳ 2024-13-45") = Some (0%nat, t)
       ∧ scheduled t = Some (utf16 "2024-13-45")
       ∧ DateShape (utf16 "2024-13-45").
Proof.
  destruct (extract asciiLower (Canvas.flavor 500) Sample.notes 0
              (utf16 "- [ ] pay rent ⏳ 2024-13-45")) as [[ind t]|] eqn:E;
    [|by vm_compute in E].
  assert (ind = 0%nat) as -> by (vm_compute in E; by injection E as <- _).
  assert (scheduled t = Some (utf16 "2024-13-45")) as Hs
    by (vm_compute in E; by injection E as <-).
  exists t. split_and!; [reflexivity|exact Hs|].
  exact (extract_dates_shape asciiLower (Canvas.flavor 500) Sample.notes 0 _ 0 t _
           E (or_introl Hs)).
Defined.

End Dates.

Section Lines.
Import JS Regex.

Lemma split_nonempty sep s : split sep s ≠ [].
Proof.
  destruct s as [|c s]; simpl; [done|].
  destruct (c =? sep); [done|]. by destruct (split sep s).
Qed.

Lemma split_no_sep sep s : sep ∉ s -> split sep s = [s].
Proof.
  induction s as [|c s IH]; simpl; [done|]. intros Hn.
  destruct (N.eqb_spec c sep) as [->|Hne].
  - destruct Hn. apply list_elem_of_here.
  - rewrite IH; [done|]. intros Hin. apply Hn. by apply list_elem_of_further.
Qed.

Lemma split_app sep l rest :
  sep ∉ l -> split sep (l ++ sep :: rest) = l :: split sep rest.
Proof.
  induction l as [|c l IH]; simpl; intros Hn.
  - by rewrite N.eqb_refl.
  - destruct (N.eqb_spec c sep) as [->|Hne].
    + destruct Hn. apply list_elem_of_here.
    + rewrite IH; [done|]. intros Hin. apply Hn. by apply list_elem_of_further.
Qed.

Lemma split_crlf lines lastl :
  Forall (fun l => 0x0A ∉ l) lines -> 0x0A ∉ lastl ->
  split 0x0A ((lines ≫= fun l => l ++ [0x0D; 0x0A]) ++ lastl)
  = ((fun l => l ++ [0x0D]) <$> lines) ++ [lastl].
Proof.
  intros Hl Hlast. induction Hl as [|l lines Hn _ IH].
  - simpl. by apply split_no_sep.
  - rewrite bind_cons, fmap_cons.
    assert (((l ++ [0x0D; 0x0A]) ++ (lines ≫= fun l0 => l0 ++ [0x0D; 0x0A])) ++ lastl
            = (l ++ [0x0D]) ++ 0x0A :: ((lines ≫= fun l0 => l0 ++ [0x0D; 0x0A]) ++ lastl))
      as -> by (by rewrite <- !app_assoc).
    rewrite split_app, IH; [done|].
    intros [Hin|Hin%list_elem_of_singleton]%elem_of_app; [done|]. discriminate Hin.
Qed.

Lemma extract_before_terminator toLowerCase F f i ln c :
  last ln = Some c -> isLineTerminator c = true ->
  extract toLowerCase F f i ln = None.
Proof.
  intros Hlast Hc.
  destruct (extract toLowerCase F f i ln) as [[ind t]|] eqn:E; [|done].
  apply extract_inv in E as (m & Hm & _).
  apply checklistRe_exec in Hm as (c' & ws & body & E & _ & _ & Hb & Hbody & _).
  destruct (trimStart_split ln) as (pad & Hln & _).
  rewrite Hln, E in Hlast.
  destruct (exists_last Hb) as (body' & z & ->).
  rewrite !app_assoc, last_snoc in Hlast. injection Hlast as ->.
  apply Forall_app in Hbody as [_ Hz]. apply Forall_cons in Hz as [Hz _]. congruence.
Qed.

Lemma extracts_cr toLowerCase F f i lines rest :
  extracts toLowerCase F f i (((fun l => l ++ [0x0D]) <$> lines) ++ rest)
  = extracts toLowerCase F f (i + length lines) rest.
Proof.
  revert i. induction lines as [|l lines IH]; intros i; simpl.
  - by rewrite Nat.add_0_r.
  - rewrite (extract_before_terminator _ _ _ _ _ 0x0D); [|by rewrite last_snoc|done].
    simpl. rewrite IH. f_equal. lia.
Qed.

End Lines.

Section LineExtras.
Import JS.

(** Of a file whose lines end in carriage return and line feed, only the
    last line, which has no line end, can yield a task. *)
Theorem crlf_file_keeps_last_line_only (toLowerCase : jsstring -> jsstring) (F : Flavor)
    (f : File) (lines : list jsstring) (lastl : jsstring) :
  Forall (fun l => 0x0A ∉ l) lines -> 0x0A ∉ lastl ->
  content f = (lines ≫= fun l => l ++ [0x0D; 0x0A]) ++ lastl ->
  bare <$> tasks (scanVault toLowerCase F [f])
  = capped F (option_list (snd <$> extract toLowerCase F f (length lines) lastl)).
Proof.
  intros Hl Hlast Hc. unfold scanVault.
  rewrite (scanFiles_bare toLowerCase F [f] _ []).
  - simpl. unfold vaultTasks. simpl.
    rewrite Hc, split_crlf, extracts_cr by done. simpl. by rewrite !app_nil_r.
  - simpl. unfold capped. destruct (limit F); [by rewrite take_nil|done].
Qed.

Lemma crlf_file_keeps_last_line_only_witness :
  let f := {| path := utf16 "win.md";
              content := utf16 "- [ ] one" ++ [0x0D; 0x0A] ++ utf16 "- [ ] two";
              cache := None |} in
  length (tasks (scanVault asciiLower Svg.flavor [f])) = 1%nat.
Proof.
  intros f.
  assert (Forall (fun l : jsstring => 0x0A ∉ l) [utf16 "- [ ] one"]) as H1.
  { constructor; [|constructor]. intros Hin. vm_compute in Hin.
    repeat (apply elem_of_cons in Hin as [Hin|Hin]; [discriminate Hin|]).
    by apply elem_of_nil in Hin. }
  assert (0x0A ∉ utf16 "- [ ] two") as H2.
  { intros Hin. vm_compute in Hin.
    repeat (apply elem_of_cons in Hin as [Hin|Hin]; [discriminate Hin|]).
    by apply elem_of_nil in Hin. }
  pose proof (crlf_file_keeps_last_line_only asciiLower Svg.flavor f
                [utf16 "- [ ] one"] (utf16 "- [ ] two") H1 H2 eq_refl) as H.
  apply (f_equal length) in H. rewrite length_fmap in H. rewrite H. reflexivity.
Defined.



End LineExtras.

Section FirstMatch.
Import JS Regex.

(** With a continuation that never fails, [p*] takes every unit it can. *)
Lemma star_longest {A} p (k : nat -> jsstring -> option A) i s a :
  (∀ j s', is_Some (k j s')) ->
  star p k i s = Some a ->
  ∃ pre s', s = pre ++ s' ∧ Forall (fun c => p c = true) pre
            ∧ (∀ c, head s' = Some c -> p c = false)
            ∧ k (i + length pre)%nat s' = Some a.
Proof.
  intros Hk. revert i. induction s as [|c s IH]; intros i; simpl.
  - intros H. exists [], []. simpl. rewrite Nat.add_0_r. split_and!; try done.
  - destruct (p c) eqn:Ep.
    + destruct (star p k (S i) s) eqn:E.
      * intros [= ->]. destruct (IH _ E) as (pre & s' & -> & Hall & Hhd & Hk').
        exists (c :: pre), s'. split_and!; [done|by constructor|done|].
        simpl. by replace (i + S (length pre))%nat with (S i + length pre)%nat by lia.
      * destruct (star_complete p k (S i) [] s) as [x Hx]; [constructor|apply Hk|].
        simpl in Hx. congruence.
    + intros H. exists [], (c :: s). simpl. rewrite Nat.add_0_r.
      split_and!; try done. by intros ? [= <-].
Qed.

Lemma lits_complete {A} m i s caps (k : nat -> jsstring -> list jsstring -> option A) :
  run (lits m) i (m ++ s) caps k = k (i + length m)%nat s caps.
Proof.
  revert i. induction m as [|c m IH]; intros i; simpl.
  - by rewrite Nat.add_0_r.
  - rewrite N.eqb_refl, IH. f_equal. lia.
Qed.

(** The leftmost match: where it starts, and that no attempt before it
    succeeded. *)
Lemma search_first r i s m :
  search r i s = Some m ->
  ∃ pre s', s = pre ++ s' ∧ exec_at r (i + length pre) s' = Some m
            ∧ ∀ p s'', s = p ++ s'' -> (length p < length pre)%nat ->
                       exec_at r (i + length p) s'' = None.
Proof.
  revert i. induction s as [|c s IH]; intros i; simpl.
  - destruct (exec_at r i []) eqn:E; [|done]. intros [= ->].
    exists [], []. simpl. rewrite Nat.add_0_r. split_and!; [done|done|]. intros; lia.
  - destruct (exec_at r i (c :: s)) eqn:E.
    + intros [= ->]. exists [], (c :: s). simpl. rewrite Nat.add_0_r.
      split_and!; [done|done|]. intros; lia.
    + intros H. destruct (IH _ H) as (pre & s' & -> & Hex & Hno).
      exists (c :: pre), s'. split_and!; [done| |].
      * simpl. by replace (i + S (length pre))%nat with (S i + length pre)%nat by lia.
      * intros [|c' p] s'' Hs Hlen; simpl in *.
        -- subst s''. by rewrite Nat.add_0_r.
        -- injection Hs as -> Hs.
           replace (i + S (length p))%nat with (S i + length p)%nat by lia.
           apply Hno; [done|lia].
Qed.

Lemma search_none r i s :
  search r i s = None ->
  ∀ p s'', s = p ++ s'' -> exec_at r (i + length p) s'' = None.
Proof.
  revert i. induction s as [|c s IH]; intros i; simpl.
  - destruct (exec_at r i []) eqn:E; [done|]. intros _ [|? ?] s'' Hs; [|done].
    simpl in *. subst s''. by rewrite Nat.add_0_r.
  - destruct (exec_at r i (c :: s)) eqn:E; [done|]. intros H [|c' p] s'' Hs; simpl in *.
    + subst s''. by rewrite Nat.add_0_r.
    + injection Hs as -> Hs.
      replace (i + S (length p))%nat with (S i + length p)%nat by lia. by apply IH.
Qed.

(** [<mark>\s*(\S+)] matches wherever the marker is followed, after white
    space, by a unit that is not white space. *)
Lemma refRe_complete mark i ws c rest :
  Forall (fun x => isSpace x = true) ws -> isSpace c = false ->
  is_Some (exec_at (refRe mark) i (mark ++ ws ++ c :: rest)).
Proof.
  intros Hws Hc. unfold exec_at, refRe. cbn [seqs run]. rewrite lits_complete.
  apply star_complete; [done|]. cbn [run].
  unfold isNonSpace at 1. rewrite Hc. cbn [negb].
  apply (star_complete _ _ _ [] rest); [constructor|]. done.
Qed.

(** What a match of [<mark>\s*(\S+)] read: the marker, white space, and the
    payload up to the next white space or the end. *)
Lemma refRe_read mark i s m :
  exec_at (refRe mark) i s = Some m ->
  ∃ ws post,
    s = mark ++ ws ++ group 0 m ++ post
    ∧ Forall (fun c => isSpace c = true) ws
    ∧ group 0 m ≠ []
    ∧ Forall (fun c => isSpace c = false) (group 0 m)
    ∧ ∀ c, head post = Some c -> isSpace c = true.
Proof.
  unfold exec_at, refRe. cbn [seqs run]. intros H.
  apply lits_split in H as (s1 & -> & H).
  apply star_split in H as (ws & s2 & -> & Hws & H).
  cbn [run] in H.
  destruct s2 as [|x s2]; [done|]. destruct (isNonSpace x) eqn:Ex; [|done].
  apply star_longest in H as (pre & s3 & -> & Hpre & Hhd & H); [|done].
  injection H as <-. unfold group. simpl.
  repeat match goal with
  | |- context [take ?n (x :: _)] =>
    lazymatch n with S (length pre) => fail | _ => replace n with (S (length pre)) by lia end
  end.
  simpl. rewrite take_app_length.
  exists ws, s3. split_and!; [done|done|done| |].
  - constructor.
    + unfold isNonSpace in Ex. by apply negb_true_iff in Ex.
    + eapply Forall_impl; [done|]. intros c Hc. unfold isNonSpace in Hc.
      by apply negb_true_iff in Hc.
  - intros c Hc. apply Hhd in Hc. unfold isNonSpace in Hc. by apply negb_false_iff in Hc.
Qed.

(** The id of an extracted task: the payload of the first id marker of the
    marked text, or the derived id when that text has no id marker with a
    payload. *)
Lemma extract_id_source (toLowerCase : jsstring -> jsstring) F f i ln ind t :
  extract toLowerCase F f i ln = Some (ind, t) ->
  ∃ body, markedText ln = Some body
    ∧ ((id t = derivedId (path f) i ∧ Unmarked (idMark (marks F)) body)
       ∨ FirstPayload (idMark (marks F)) body (id t)).
Proof.
  unfold extract, markedText.
  destruct (match1 checklistRe (trimStart ln)) as [m|]; [|done].
  intros [= <- <-]. set (body := trim (removeAll tagRe (group 1 m))).
  exists body. split; [done|]. cbn [id].
  destruct (match1 (refRe (idMark (marks F))) body) as [im|] eqn:E; [right|left].
  - apply search_first in E as (pre & s' & Hb & Hex & Hno).
    pose proof (refRe_read _ _ _ _ Hex) as (ws & post & -> & Hws & Hne & Hns & Hpost).
    exists pre, ws, post. split_and!; try done.
    intros p ws' c rest Hb' Hws' Hc.
    destruct (decide (length pre ≤ length p)%nat) as [|Hlt]; [done|].
    pose proof (Hno p _ Hb' ltac:(lia)) as Hnone.
    destruct (refRe_complete (idMark (marks F)) (0 + length p) ws' c rest Hws' Hc)
      as [x Hx]. congruence.
  - split; [done|]. intros p ws c rest Hb Hws.
    destruct (isSpace c) eqn:Hc; [done|].
    pose proof (search_none _ _ _ E p _ Hb) as Hnone.
    destruct (refRe_complete (idMark (marks F)) (0 + length p) ws c rest Hws Hc)
      as [x Hx]. congruence.
Qed.

End FirstMatch.

(** ** C5: task ids *)

Section Identifiers.
Import JS Sample.

(** C5, as stated, fails: two tasks with the same id marker get the same
    id. *)
Lemma C5_duplicate_id_markers :
  ¬ NoDup (id <$> tasks (scanVault asciiLower (Canvas.flavor 500) [twins Canvas.markers])).
Proof.
  intros H. vm_compute in H. apply NoDup_cons in H as [H _].
  apply H. apply list_elem_of_here.
Qed.

(** C5 (amended): in a scan over files with distinct paths, in either view,
    two distinct tasks whose ids are derived from their path and line number
    have different ids; and the id of every extracted task is the payload
    written after the first id marker of the task's text without its tags
    (the units up to the next white space), or, when that text has no id
    marker with a payload, the id derived from path and line number. *)
Theorem C5_derived_ids_distinct (toLowerCase : jsstring -> jsstring) (F : Flavor)
    (vault : list File) (q q' : nat) (t t' : Task) :
  let ts := tasks (scanVault toLowerCase F vault) in
  NoDup (path <$> vault) ->
  ts !! q = Some t -> ts !! q' = Some t' -> q ≠ q' ->
  id t = derivedId (file t) (line t) ->
  id t' = derivedId (file t') (line t') ->
  id t ≠ id t'
  ∧ ∀ f i ln ind u,
      extract toLowerCase F f i ln = Some (ind, u) ->
      ∃ body, markedText ln = Some body
        ∧ ((id u = derivedId (path f) i ∧ Unmarked (idMark (marks F)) body)
           ∨ FirstPayload (idMark (marks F)) body (id u)).
Proof.
  intros ts Hnd Hq Hq' Hne E E'. split; [|apply extract_id_source].
  intros Heq. rewrite E, E' in Heq. apply derivedId_inj in Heq as [Hf Hl].
  apply Hne. eapply NoDup_lookup.
  - by apply (scanVault_places toLowerCase F).
  - unfold locs. fold ts. by rewrite list_lookup_fmap, Hq.
  - unfold locs. fold ts. rewrite list_lookup_fmap, Hq'. simpl. by rewrite Hf, Hl.
Qed.

Lemma C5_derived_ids_distinct_witness :
  let ts := tasks (scanVault asciiLower Svg.flavor [notes]) in
  ∃ t t',
    NoDup (path <$> [notes])
    ∧ ts !! 0%nat = Some t
    ∧ ts !! 2%nat = Some t'
    ∧ 0%nat ≠ 2%nat
    ∧ id t = derivedId (file t) (line t)
    ∧ id t' = derivedId (file t') (line t')
    ∧ id t ≠ id t'
    ∧ ∃ body,
        markedText (utf16 "- [ ] one #x " ++ idMark Svg.markers ++ utf16 " t1") = Some body
        ∧ FirstPayload (idMark Svg.markers) body (utf16 "t1").
Proof.
  intros ts.
  destruct (ts !! 0%nat) as [t|] eqn:E0; [|vm_compute in E0; discriminate E0].
  destruct (ts !! 2%nat) as [t'|] eqn:E2; [|vm_compute in E2; discriminate E2].
  assert (NoDup (path <$> [notes])) as Hnd by (apply NoDup_singleton).
  assert (0%nat ≠ 2%nat) as Hne by discriminate.
  assert (id t = derivedId (file t) (line t)) as Ht.
  { vm_compute in E0. injection E0 as <-. reflexivity. }
  assert (id t' = derivedId (file t') (line t')) as Ht'.
  { vm_compute in E2. injection E2 as <-. reflexivity. }
  pose proof (C5_derived_ids_distinct asciiLower Svg.flavor [notes] 0%nat 2%nat t t'
                Hnd E0 E2 Hne Ht Ht') as [H1 H2].
  exists t, t'. split_and!; try done.
  destruct (extract asciiLower Svg.flavor notes 0
              (utf16 "- [ ] one #x " ++ idMark Svg.markers ++ utf16 " t1"))
    as [[ind u]|] eqn:Eu; [|vm_compute in Eu; discriminate Eu].
  assert (id u = utf16 "t1") as Hid by (vm_compute in Eu; by injection Eu as _ <-).
  destruct (H2 _ _ _ _ _ Eu) as (body & Hb & [[Hd _]|Hp]).
  - exfalso. rewrite Hid in Hd. vm_compute in Hd. discriminate Hd.
  - exists body. split; [exact Hb|]. rewrite <- Hid. exact Hp.
Defined.

End Identifiers.
